(** * Setter discovery (list-setters): a shallow embedding and its properties

    The development follows [functions/go/list-setters/listsetters/list_setters.go].
    Go strings are byte sequences and are modelled as [list ascii]; Go maps are
    stdpp [gmap]s; the [int] counters are 64-bit two's complement integers held
    in [Z].  The parts of the Go standard library the code relies on
    ([strings], [unicode/utf8], [regexp], [sort]) are embedded first, restricted
    to the behaviour this file's callers can reach; then the YAML nodes, the
    registry, the two visitor rules, the manifest and the pass.  What the code
    takes from kyaml, kioutil and the package [fix/v1] is a parameter of the
    development (class [Collaborators]).  The vocabulary of the properties and
    the documents of the examples come next, and the properties last. *)

From Stdlib Require Import ZArith Lia List Ascii String.
From Stdlib Require DecimalString DecimalZ DecimalPos.
From stdpp Require Import base option gmap strings list fin_maps sorting.

Local Open Scope Z_scope.
Local Open Scope nat_scope.

(** A Go [string]: an immutable sequence of bytes. *)
Abbreviation gostring := (list ascii).

(** Go string literals. *)
Definition str (s : string) : gostring := list_ascii_of_string s.

(* ===================================================================== *)
(** ** unicode/utf8 *)
(* ===================================================================== *)

Definition byte_in (lo hi : nat) (c : ascii) : bool :=
  (lo <=? nat_of_ascii c) && (nat_of_ascii c <=? hi).

(** A continuation byte, 10xxxxxx. *)
Definition is_cont (c : ascii) : bool := byte_in 0x80 0xBF c.

(** The size returned by [utf8.DecodeRuneInString]: the width of a well-formed
    encoding at the head of [s], 1 for a byte that does not start one (the
    decoder then yields [RuneError]), 0 for the empty string. *)
Definition rune_width (s : gostring) : nat :=
  match s with
  | [] => 0
  | b0 :: t =>
    let x := nat_of_ascii b0 in
    if x <? 0xC2 then 1
    else if x <? 0xE0 then
      match t with
      | b1 :: _ => if is_cont b1 then 2 else 1
      | _ => 1
      end
    else if x <? 0xF0 then
      match t with
      | b1 :: b2 :: _ =>
        let lo := if x =? 0xE0 then 0xA0 else 0x80 in
        let hi := if x =? 0xED then 0x9F else 0xBF in
        if byte_in lo hi b1 && is_cont b2 then 3 else 1
      | _ => 1
      end
    else if x <? 0xF5 then
      match t with
      | b1 :: b2 :: b3 :: _ =>
        let lo := if x =? 0xF0 then 0x90 else 0x80 in
        let hi := if x =? 0xF4 then 0x8F else 0xBF in
        if byte_in lo hi b1 && is_cont b2 && is_cont b3 then 4 else 1
      | _ => 1
      end
    else 1
  end.

(** The head of [s] decodes to a rune other than an encoding error. *)
Definition rune_ok (s : gostring) : bool :=
  match s with
  | [] => false
  | b0 :: _ => (nat_of_ascii b0 <? 0x80) || (1 <? rune_width s)
  end.

(** [utf8.ValidString], as a scan that swallows [k] pending continuation bytes
    and otherwise decodes a rune at the head. *)
Fixpoint valid_from (k : nat) (s : gostring) : bool :=
  match s with
  | [] => true
  | _ :: s' =>
    match k with
    | S k' => valid_from k' s'
    | 0 => rune_ok s && valid_from (rune_width s - 1) s'
    end
  end.

Definition ValidString (s : gostring) : bool := valid_from 0 s.

(* ===================================================================== *)
(** ** strings *)
(* ===================================================================== *)

(** [strings.HasPrefix]. *)
Fixpoint HasPrefix (s prefix : gostring) {struct prefix} : bool :=
  match prefix, s with
  | [], _ => true
  | a :: p', b :: s' => if decide (a = b) then HasPrefix s' p' else false
  | _ :: _, [] => false
  end.

(** [strings.HasSuffix]. *)
Definition HasSuffix (s suffix : gostring) : bool :=
  HasPrefix (reverse s) (reverse suffix).

(** [strings.TrimPrefix]. *)
Definition TrimPrefix (s prefix : gostring) : gostring :=
  if HasPrefix s prefix then drop (length prefix) s else s.

(** [strings.TrimSuffix]. *)
Definition TrimSuffix (s suffix : gostring) : gostring :=
  if HasSuffix s suffix then take (length s - length suffix) s else s.

(** The UTF-8 encodings of the runes for which [unicode.IsSpace] holds:
    tab, newline, vertical tab, form feed, carriage return, space, U+0085,
    U+00A0, U+1680, U+2000 to U+200A, U+2028, U+2029, U+202F, U+205F, U+3000. *)
Definition bytes (l : list nat) : gostring := ascii_of_nat <$> l.

Definition space_encodings : list gostring :=
  (bytes <$> [[9]; [10]; [11]; [12]; [13]; [32]; [0xC2; 0x85]; [0xC2; 0xA0];
              [0xE1; 0x9A; 0x80]])
  ++ ((fun x => bytes [0xE2; 0x80; x]) <$> seq 0x80 11)
  ++ (bytes <$> [[0xE2; 0x80; 0xA8]; [0xE2; 0x80; 0xA9]; [0xE2; 0x80; 0xAF];
                 [0xE2; 0x81; 0x9F]; [0xE3; 0x80; 0x80]]).

(** Width of the white-space rune at the head of [s] among [encs], 0 if the
    head is no white space. *)
Definition space_width (encs : list gostring) (s : gostring) : nat :=
  match find (HasPrefix s) encs with
  | Some e => length e
  | None => 0
  end.

(** Drop leading white-space runes; [k] bytes of the current one are pending. *)
Fixpoint trim_left (encs : list gostring) (k : nat) (s : gostring) : gostring :=
  match k, s with
  | S k', _ :: s' => trim_left encs k' s'
  | S _, [] => []
  | 0, [] => []
  | 0, _ :: s' =>
    match space_width encs s with
    | 0 => s
    | S w => trim_left encs w s'
    end
  end.

(** [strings.TrimSpace]: white-space runes are removed from both ends.  From
    the right, the decoder recognises an encoding by its bytes read backwards. *)
Definition TrimSpace (s : gostring) : gostring :=
  reverse (trim_left (reverse <$> space_encodings) 0
             (reverse (trim_left space_encodings 0 s))).

(** Replace the non-overlapping occurrences of [old], leftmost first, by [new];
    [k] elements of the occurrence just replaced are still to be skipped. *)
Fixpoint replace_all {A} `{EqDecision A} (old new : list A) (k : nat) (s : list A)
    : list A :=
  match s with
  | [] => []
  | c :: s' =>
    match k with
    | S k' => replace_all old new k' s'
    | 0 =>
      if bool_decide (old `prefix_of` s)
      then new ++ replace_all old new (length old - 1) s'
      else c :: replace_all old new 0 s'
    end
  end.

(** With an empty [old], [new] is inserted before every rune and at the end. *)
Fixpoint insert_at_runes (new : gostring) (k : nat) (s : gostring) : gostring :=
  match s with
  | [] => new
  | c :: s' =>
    match k with
    | S k' => c :: insert_at_runes new k' s'
    | 0 => new ++ c :: insert_at_runes new (rune_width s - 1) s'
    end
  end.

(** [strings.ReplaceAll]. *)
Definition ReplaceAll (s old new : gostring) : gostring :=
  match old with
  | [] => insert_at_runes new 0 s
  | _ => replace_all old new 0 s
  end.

(** [strings.Contains]. *)
Fixpoint Contains (s substr : gostring) : bool :=
  HasPrefix s substr ||
  match s with
  | [] => false
  | _ :: s' => Contains s' substr
  end.

(** Byte-wise lexicographic order, Go's [<] on strings. *)
Fixpoint str_lt (a b : gostring) : bool :=
  match a, b with
  | _, [] => false
  | [], _ :: _ => true
  | x :: a', y :: b' =>
    (nat_of_ascii x <? nat_of_ascii y)
    || ((nat_of_ascii x =? nat_of_ascii y) && str_lt a' b')
  end.

(* ===================================================================== *)
(** ** sort *)
(* ===================================================================== *)

Section sort.
Context {A : Type} (less : A -> A -> bool).

Fixpoint insert_sorted (x : A) (l : list A) : list A :=
  match l with
  | [] => [x]
  | y :: l' => if less y x then y :: insert_sorted x l' else x :: y :: l'
  end.

(** [sort.SliceStable]: the stable sort by [less]; an element moves in front
    of the elements after it only when it is strictly smaller. *)
Definition SliceStable (l : list A) : list A := foldr insert_sorted [] l.
End sort.

(** [sort.Strings]. *)
Definition sort_Strings (l : list gostring) : list gostring := SliceStable str_lt l.

(* ===================================================================== *)
(** ** regexp *)
(* ===================================================================== *)

(** The bytes [regexp.QuoteMeta] escapes: [\.+*?()|[]{}^$]. *)
Definition special : gostring := str "\.+*?()|[]{}^$".

Definition is_special (c : ascii) : bool := bool_decide (c ∈ special).

Definition backslash : ascii := "\"%char.

(** [regexp.QuoteMeta]: a backslash in front of every special byte. *)
Fixpoint QuoteMeta (s : gostring) : gostring :=
  match s with
  | [] => []
  | c :: s' => if is_special c then backslash :: c :: QuoteMeta s' else c :: QuoteMeta s'
  end.

(** The expressions [currentSetterValues] builds are concatenations of literal
    bytes and of the named group [x] around [.] starred; a compiled expression
    is the list of these pieces. *)
Inductive inst : Type :=
  | Lit (c : ascii)
  | CaptureAny.

Global Instance inst_eq_dec : EqDecision inst.
Proof. solve_decision. Defined.

Abbreviation prog := (list inst).

(** The text substituted for a placeholder. *)
Definition capture_group : gostring := str "(?P<x>.*" ++ str ")".

Inductive pstate : Type :=
  | PNormal
  | PEscaped
  | PGroup (k : nat).

(** The parser of [regexp.Compile] on this fragment: an escaped special byte
    and an unescaped ordinary byte are literals, the group is a capture of
    any text; a trailing backslash is an error, and so is every other use of
    a special byte, which lies outside the fragment.  The expressions of
    [currentSetterValues] never leave the fragment ([Compile_setter_expr]). *)
Fixpoint parse (st : pstate) (s : gostring) : option prog :=
  match s with
  | [] =>
    match st with
    | PNormal => Some []
    | _ => None
    end
  | c :: s' =>
    match st with
    | PGroup 0 => None
    | PGroup 1 => parse PNormal s'
    | PGroup (S k) => parse (PGroup k) s'
    | PEscaped => if is_special c then cons (Lit c) <$> parse PNormal s' else None
    | PNormal =>
      if decide (c = backslash) then parse PEscaped s'
      else if HasPrefix s capture_group
      then cons CaptureAny <$> parse (PGroup (length capture_group - 1)) s'
      else if is_special c then None
      else cons (Lit c) <$> parse PNormal s'
    end
  end.

(** [regexp.Compile]: an expression that is not valid UTF-8 is rejected. *)
Definition Compile (expr : gostring) : option prog :=
  if ValidString expr then parse PNormal expr else None.

Definition newline : ascii := "010"%char.

Definition extend (c : ascii) (r : option (gostring * gostring * list gostring))
    : option (gostring * gostring * list gostring) :=
  '(cap, m, caps) ← r; Some (c :: cap, m, caps).

(** The capture in front of the rest of an expression, matched by [rest]: it
    takes runes other than newline, as many as [rest] allows (greedy, giving
    back one rune at a time); [k] bytes of the current rune are pending.  The
    result is the capture and what [rest] returns. *)
Fixpoint star (rest : gostring -> option (gostring * list gostring)) (k : nat)
    (s : gostring) : option (gostring * gostring * list gostring) :=
  match k with
  | S k' =>
    match s with
    | c :: s' => extend c (star rest k' s')
    | [] => None
    end
  | 0 =>
    let stop := '(m, caps) ← rest s; Some ([], m, caps) in
    match s with
    | [] => stop
    | c :: s' =>
      if decide (c = newline) then stop
      else match extend c (star rest (rune_width s - 1) s') with
           | Some r => Some r
           | None => stop
           end
    end
  end.

(** The encoding of [utf8.RuneError], U+FFFD: the rune the decoder yields,
    with width 1, for a byte that starts no well-formed encoding. *)
Definition RuneError : gostring := ascii_of_nat <$> [0xEF; 0xBF; 0xBD].

(** Leftmost-first matching of [p] at the head of [s]: the matched text and
    the captures.  The matcher compares the runes it decodes from the text
    with the runes of the expression.  A well-formed encoding decodes to its
    rune and nothing else does, so that the literal bytes of a rune are
    compared one by one; but U+FFFD is also what the decoder yields for a byte
    that starts no well-formed encoding, and a literal U+FFFD matches such a
    byte as well as its own three bytes. *)
Fixpoint match_here (p : prog) : gostring -> option (gostring * list gostring) :=
  match p with
  | [] => fun _ => Some ([], [])
  | Lit c :: p' => fun s =>
    match s with
    | c' :: s' =>
      let same_byte :=
        if decide (c = c') then '(m, caps) ← match_here p' s'; Some (c' :: m, caps)
        else None in
      match p' with
      | Lit c2 :: Lit c3 :: p'' =>
        if bool_decide ([c; c2; c3] = RuneError) && negb (rune_ok s)
        then '(m, caps) ← match_here p'' s'; Some (c' :: m, caps)
        else same_byte
      | _ => same_byte
      end
    | [] => None
    end
  | CaptureAny :: p' => fun s =>
    '(cap, m, caps) ← star (match_here p') 0 s; Some (cap ++ m, cap :: caps)
  end.

(** The unanchored search: the first start, rune by rune, at which [p] matches. *)
Fixpoint search (p : prog) (k : nat) (s : gostring) : option (list gostring) :=
  match k, s with
  | S k', _ :: s' => search p k' s'
  | S _, [] => None
  | 0, _ =>
    match match_here p s with
    | Some (m, caps) => Some (m :: caps)
    | None =>
      match s with
      | [] => None
      | _ :: s' => search p (rune_width s - 1) s'
      end
    end
  end.

(** [Regexp.FindStringSubmatch]: the leftmost match and its captures, or
    [None] (Go's nil slice) when there is no match. *)
Definition FindStringSubmatch (p : prog) (s : gostring) : option (list gostring) :=
  search p 0 s.

(* ===================================================================== *)
(** ** Patterns *)
(* ===================================================================== *)

Definition SetterCommentIdentifier : gostring := str "# kpt-set: ".

(** The text up to and including the first closing brace, if there is one. *)
Fixpoint until_brace (s : gostring) : option gostring :=
  match s with
  | [] => None
  | c :: s' => if decide (c = "}"%char) then Some [c] else cons c <$> until_brace s'
  end.

(** [re.FindAllString(pattern, -1)] for the expression of
    [unresolvedSetters] (a dollar sign, an opening brace, any bytes other than
    a closing brace, a closing brace): the successive non-overlapping leftmost
    matches; each runs from a [${] to the first closing brace after it.  [k]
    bytes of the last match are pending. *)
Fixpoint find_placeholders (k : nat) (s : gostring) : list gostring :=
  match s with
  | [] => []
  | c :: s' =>
    match k with
    | S k' => find_placeholders k' s'
    | 0 =>
      if HasPrefix s (str "${") then
        match until_brace (drop 2 s) with
        | Some body => (str "${" ++ body) :: find_placeholders (1 + length body) s'
        | None => find_placeholders 0 s'
        end
      else find_placeholders 0 s'
    end
  end.

Definition unresolvedSetters (pattern : gostring) : list gostring :=
  find_placeholders 0 pattern.

Definition clean (input : gostring) : gostring :=
  let input := TrimSpace input in
  TrimSuffix (TrimPrefix input (str "${")) (str "}").

Definition extractSetterPattern (lineComment : gostring) : gostring :=
  if negb (HasPrefix lineComment SetterCommentIdentifier) then []
  else TrimSpace (TrimPrefix lineComment SetterCommentIdentifier).

(** The escaped pattern with every escaped placeholder replaced by the group. *)
Definition setter_expr (pattern : gostring) : gostring :=
  foldl (fun pattern setterName =>
           ReplaceAll pattern (QuoteMeta setterName) capture_group)
        (QuoteMeta pattern) (unresolvedSetters pattern).

(** The final loop of [currentSetterValues]; the two lists have equal length. *)
Fixpoint bind_setters (urs setterValues : list gostring)
    (res : gmap gostring gostring) : gmap gostring gostring :=
  match setterValues, urs with
  | v :: setterValues', u :: urs' =>
    if decide (v = []) then ∅
    else bind_setters urs' setterValues' (<[clean u := v]> res)
  | _, _ => res
  end.

Definition currentSetterValues (pattern value : gostring) : gmap gostring gostring :=
  let res : gmap gostring gostring := ∅ in
  let urs := unresolvedSetters pattern in
  match Compile (setter_expr pattern) with
  | None => res
  | Some r =>
    match FindStringSubmatch r value with
    | None | Some [] => res
    | Some (_ :: setterValues) =>
      if decide (length urs ≠ length setterValues) then res
      else bind_setters urs setterValues res
    end
  end.

(* ===================================================================== *)
(** ** Errors *)
(* ===================================================================== *)

(** A recoverable error that occurred during setter discovery. *)
Record ErrSetterDiscovery : Type := mkErrSetterDiscovery { message : gostring }.

(** Go [error] values: a discovery error, an error made by [fmt.Errorf] or by
    a library, or an error wrapped by the kyaml [errors] package. *)
Inductive error : Type :=
  | DiscoveryError (e : ErrSetterDiscovery)
  | Errorf (msg : gostring)
  | Wrapped (prefix : gostring) (err : error).

(** [errors.As(err, &discoveryErr)]: the first discovery error in the chain. *)
Fixpoint As_discovery (err : error) : option ErrSetterDiscovery :=
  match err with
  | DiscoveryError e => Some e
  | Errorf _ => None
  | Wrapped _ err' => As_discovery err'
  end.

(** [errors.Wrap]; [errors.WrapPrefixf] is [Wrapped] with its prefix. *)
Definition Wrap (err : error) : error := Wrapped [] err.

(* ===================================================================== *)
(** ** YAML nodes (yaml.v3 and kyaml) *)
(* ===================================================================== *)

Inductive Kind : Type :=
  | DocumentNode
  | SequenceNode
  | MappingNode
  | ScalarNode
  | AliasNode.

Global Instance Kind_eq_dec : EqDecision Kind.
Proof. solve_decision. Defined.

(** [yaml.Style] is a bit set; [FlowStyle] is its sixth bit. *)
Definition FlowStyle : Z := Z.shiftl 1 5.

(** The fields of [yaml.Node] the discovery and kyaml read.  The content of a
    mapping node alternates keys and values. *)
#[warnings="-register-all"]
Inductive Node : Type :=
  mkNode {
    NodeKind : Kind;
    Tag : gostring;
    Style : Z;
    Value : gostring;
    LineComment : gostring;
    Content : list Node
  }.

(** [*yaml.RNode]: a possibly nil reference to a node. *)
Abbreviation RNode := (option Node).

Record MapNode : Type := mkMapNode { Key : RNode; MapValue : RNode }.

(** The key/value pairs of a mapping's content. *)
Fixpoint pairs {A} (content : list A) : list (A * A) :=
  match content with
  | k :: v :: rest => (k, v) :: pairs rest
  | _ => []
  end.

(** [RNode.Fields]: the field names of a mapping node; another kind of node
    and a mapping with an odd number of content nodes are errors. *)
Definition Fields (n : Node) : error + list gostring :=
  if decide (NodeKind n = MappingNode) then
    if Nat.even (length (Content n))
    then inr ((fun kv => Value kv.1) <$> pairs (Content n))
    else inl (Errorf (str "yaml MappingNodes must have even length contents"))
  else inl (Errorf (str "wrong Node Kind")).

(** [RNode.Field]: the first field with the given name. *)
Definition Field (n : Node) (name : gostring) : option MapNode :=
  (fun kv => mkMapNode (Some kv.1) (Some kv.2))
    <$> find (fun kv => bool_decide (Value kv.1 = name)) (pairs (Content n)).

(** The tag of the null value, [yaml.NullNodeTag]. *)
Definition NullNodeTag : gostring := str "!!null".

(** [yaml.IsMissingOrNull], for a node that is there: it is tagged null, as
    the reader tags [~], [null] and an empty value. *)
Definition IsMissingOrNull (n : Node) : bool := bool_decide (Tag n = NullNodeTag).

(** [RNode.Elements]: the content nodes of the node.  Its check
    ([yaml.ErrorIfInvalid] for a sequence) lets a node tagged null pass
    whatever its kind, and otherwise wants a sequence node. *)
Definition Elements (n : Node) : error + list Node :=
  if IsMissingOrNull n then inr (Content n)
  else if decide (NodeKind n = SequenceNode) then inr (Content n)
  else inl (Errorf (str "wrong Node Kind")).

(** Run [fn] over [l] in order, threading the state, until an error. *)
Fixpoint visit_each {S A} (fn : A -> S -> S * option error) (l : list A) (st : S)
    : S * option error :=
  match l with
  | [] => (st, None)
  | x :: l' =>
    match fn x st with
    | (st', None) => visit_each fn l' st'
    | (st', Some e) => (st', Some (Wrap e))
    end
  end.

(** [RNode.VisitFields]: [fn] is run on the field of every field name. *)
Definition VisitFields {S} (n : Node) (fn : option MapNode -> S -> S * option error)
    (st : S) : S * option error :=
  match Fields n with
  | inl e => (st, Some (Wrap e))
  | inr names => visit_each (fun name => fn (Field n name)) names st
  end.

(* ===================================================================== *)
(** ** The registry *)
(* ===================================================================== *)

(** Go's [int], taken to be 64 bits wide. *)
Definition wrap_int (z : Z) : Z := ((z + 2 ^ 63) mod 2 ^ 64 - 2 ^ 63)%Z.

Record ScalarSetter : Type :=
  mkScalarSetter { SName : gostring; SValue : gostring; SCount : Z }.

Record ArraySetter : Type :=
  mkArraySetter { AName : gostring; AValues : list gostring; ACount : Z }.

Record ListSetters : Type :=
  mkListSetters {
    ScalarSetters : gmap gostring ScalarSetter;
    ArraySetters : gmap gostring ArraySetter;
    Warnings : list ErrSetterDiscovery;
    filePath : gostring
  }.

Record Result : Type :=
  mkResult { RName : gostring; RValue : gostring; RType : gostring; RCount : Z }.

Definition ArraySetterType : gostring := str "list".
Definition ScalarSetterType : gostring := str "string".

(** [%d] of [fmt]: the decimal digits of an integer, after a minus sign when
    it is negative. *)
Definition itoa (z : Z) : gostring :=
  str (DecimalString.NilZero.string_of_int (Z.to_int z)).

(** The method [String] of [Result]. *)
Definition Result_String (r : Result) : gostring :=
  str "Name: " ++ RName r ++ str ", Value: " ++ RValue r
  ++ str ", Type " ++ RType r ++ str ", Count " ++ itoa (RCount r).

Definition New : ListSetters := mkListSetters ∅ ∅ [] [].

Definition with_scalars (ls : ListSetters) (m : gmap gostring ScalarSetter) : ListSetters :=
  mkListSetters m (ArraySetters ls) (Warnings ls) (filePath ls).

Definition with_arrays (ls : ListSetters) (m : gmap gostring ArraySetter) : ListSetters :=
  mkListSetters (ScalarSetters ls) m (Warnings ls) (filePath ls).

(** One turn of the loop of [visitScalar]. *)
Definition add_scalar (setterName setterValue : gostring)
    (m : gmap gostring ScalarSetter) : gmap gostring ScalarSetter :=
  match m !! setterName with
  | Some s => <[setterName := mkScalarSetter (SName s) (SValue s) (wrap_int (SCount s + 1))]> m
  | None => <[setterName := mkScalarSetter setterName setterValue 1]> m
  end.

(** The end of the callback of [visitMapping]. *)
Definition add_array (setterName : gostring) (nodeValues : list gostring)
    (m : gmap gostring ArraySetter) : gmap gostring ArraySetter :=
  match m !! setterName with
  | Some a => <[setterName := mkArraySetter (AName a) (AValues a) (wrap_int (ACount a + 1))]> m
  | None => <[setterName := mkArraySetter setterName nodeValues 1]> m
  end.

(** [for k, v := range m]: Go leaves the order unspecified; the bodies below
    act on the entry of [k] alone, so that the order is immaterial
    ([range_map_any_order]). *)
Definition range_map {V S} (body : gostring -> V -> S -> S) (m : gmap gostring V) (st : S) : S :=
  map_fold body st m.

Definition visitScalar (ls : ListSetters) (object : RNode) (path : gostring)
    : ListSetters * option error :=
  match object with
  | None => (ls, None)
  | Some n =>
    if decide (NodeKind n ≠ ScalarNode) then (ls, None)
    else
      let linecomment := LineComment n in
      let setterPattern := extractSetterPattern linecomment in
      if decide (setterPattern = []) then (ls, None)
      else
        let currentSetterValues := currentSetterValues setterPattern (Value n) in
        (with_scalars ls (range_map add_scalar currentSetterValues (ScalarSetters ls)), None)
  end.

(** The callback [visitMapping] hands to [VisitFields]. *)
Definition visitField (node : option MapNode) (ls : ListSetters) : ListSetters * option error :=
  match node with
  | None => (ls, None)
  | Some node =>
    match Key node, MapValue node with
    | Some key, Some value =>
      if decide (NodeKind value ≠ SequenceNode) then (ls, None)
      else
        match Elements value with
        | inl err => (ls, Some (Wrap err))
        | inr elements =>
          let nodeValues := sort_Strings (Value <$> elements) in
          let linecomment :=
            if decide (Style value = FlowStyle) then LineComment value
            else LineComment key in
          let setterPattern := extractSetterPattern linecomment in
          if decide (setterPattern = []) then (ls, None)
          else
            let setterName := clean setterPattern in
            (with_arrays ls (add_array setterName nodeValues (ArraySetters ls)), None)
        end
    | _, _ => (ls, None)
    end
  end.

Definition visitMapping (ls : ListSetters) (object : Node) (path : gostring)
    : ListSetters * option error :=
  VisitFields object visitField ls.

(** Modelled from the spec: [accept], the tree walker of section 4.3, whose
    source is not in this file.  It visits every mapping with [visitMapping]
    and every scalar leaf with [visitScalar], depth first in field order,
    through the values of nested mappings and the elements of sequences; the
    first error ends the walk. *)
Fixpoint accept (object : Node) : ListSetters -> ListSetters * option error :=
  let children :=
    (fix walks (l : list Node) : list (ListSetters -> ListSetters * option error) :=
       match l with
       | [] => []
       | c :: l' => accept c :: walks l'
       end) (Content object) in
  match NodeKind object with
  | DocumentNode =>
    match children with
    | walk :: _ => walk
    | [] => fun ls => (ls, None)
    end
  | MappingNode => fun ls =>
    match visitMapping ls object [] with
    | (ls', Some e) => (ls', Some e)
    | (ls', None) => visit_each (fun kv => kv.2) (pairs children) ls'
    end
  | SequenceNode => fun ls => visit_each (fun walk => walk) children ls
  | ScalarNode => fun ls => visitScalar ls (Some object) []
  | AliasNode => fun ls => (ls, None)
  end.

(* ===================================================================== *)
(** ** The package manifest *)
(* ===================================================================== *)

(** Modelled from the spec: the types of the package [fix/v1], whose source is
    not in this file (sections 4.4 and 6): a manifest may declare a pipeline
    whose stages have an image reference and either an inline configuration or
    a path to another document.  A nil map or pointer is [None]. *)
Record Function : Type :=
  mkFunction {
    Image : gostring;
    ConfigPath : gostring;
    ConfigMap : option (gmap gostring gostring)
  }.

Record Pipeline : Type := mkPipeline { Mutators : list Function }.

Record KptFile : Type := mkKptFile { KptPipeline : option Pipeline }.

Definition KptFileName : gostring := str "Kptfile".

Definition dquote : ascii := "034"%char.

(** What the discovery takes from its collaborators: the YAML reader and
    printer, the annotations and the data section of a document, and the
    decoder of the manifest. *)
Class Collaborators : Type :=
  mkCollaborators {
    (** [yaml.Parse] *)
    yaml_Parse : gostring -> error + Node;
    (** [RNode.String] *)
    RNode_String : Node -> error + gostring;
    (** [node.GetAnnotations()[kioutil.PathAnnotation]] *)
    PathAnnotation : Node -> gostring;
    (** [kioutil.GetFileAnnotations]: path and index *)
    GetFileAnnotations : Node -> error + gostring * gostring;
    (** [RNode.GetDataMap] *)
    GetDataMap : Node -> gmap gostring gostring;
    (** [kptv1.ReadFile] *)
    ReadFile : Node -> error + KptFile
  }.

Section discovery.
Context `{Collaborators}.

Fixpoint FindKptfile (nodes : list Node) : error + KptFile :=
  match nodes with
  | [] =>
    inl (DiscoveryError (mkErrSetterDiscovery
      (str "unable to find Kptfile, please include --include-meta-resources flag if a Kptfile is present")))
  | node :: nodes' =>
    if decide (PathAnnotation node = KptFileName) then
      match ReadFile node with
      | inl err => inl (Wrapped (str "unable to read Kptfile") err)
      | inr kf => inr kf
      end
    else FindKptfile nodes'
  end.

Fixpoint findSetterNode (nodes : list Node) (path : gostring) : error + Node :=
  match nodes with
  | [] =>
    inl (Errorf (str "file " ++ path ++
      str " doesn't exist, please ensure the file specified in " ++
      [dquote] ++ str "configPath" ++ [dquote] ++ str " exists and retry"))
  | node :: nodes' =>
    let np := PathAnnotation node in
    if decide (np = path) then inr node else findSetterNode nodes' path
  end.

(** The loop over [kf.Pipeline.Mutators]. *)
Fixpoint find_apply_setters (nodes : list Node) (mutators : list Function)
    : error + gmap gostring gostring :=
  match mutators with
  | [] =>
    inl (DiscoveryError (mkErrSetterDiscovery
      (str "unable to find apply-setters fn in Kptfile Pipeline.Mutators")))
  | fn :: mutators' =>
    if negb (Contains (Image fn) (str "apply-setters")) then find_apply_setters nodes mutators'
    else
      match ConfigMap fn with
      | Some configMap => inr configMap
      | None =>
        if decide (ConfigPath fn ≠ []) then
          match findSetterNode nodes (ConfigPath fn) with
          | inl err => inl err
          | inr settersConfig => inr (GetDataMap settersConfig)
          end
        else
          inl (DiscoveryError (mkErrSetterDiscovery
            (str "unable to find ConfigMap or ConfigPath fnConfig for apply-setters")))
      end
  end.

Definition FindSettersFromKptfile (nodes : list Node) : error + gmap gostring gostring :=
  match FindKptfile nodes with
  | inl err => inl err
  | inr kf =>
    match KptPipeline kf with
    | None =>
      inl (DiscoveryError (mkErrSetterDiscovery
        (str "unable to find Pipeline declaration in Kptfile")))
    | Some pipeline => find_apply_setters nodes (Mutators pipeline)
    end
  end.

(** The loop of [getArraySetterValues] over the elements. *)
Fixpoint element_strings (elems : list Node) : error + list gostring :=
  match elems with
  | [] => inr []
  | elem :: elems' =>
    match RNode_String elem with
    | inl err => inl err
    | inr setterVal =>
      match element_strings elems' with
      | inl err => inl err
      | inr setterVals => inr (ReplaceAll setterVal [newline] [] :: setterVals)
      end
    end
  end.

Definition getArraySetterValues (sv : gostring) : error + list gostring :=
  match yaml_Parse sv with
  | inl err => inl err
  | inr rn =>
    match Elements rn with
    | inl err => inl err
    | inr elems => element_strings elems
    end
  end.

(** One turn of the loop of [addKptfileSetters]. *)
Definition add_kptfile_setter (setterName setterValue : gostring) (ls : ListSetters)
    : ListSetters :=
  match getArraySetterValues setterValue with
  | inr v => with_arrays ls (<[setterName := mkArraySetter setterName v 0]> (ArraySetters ls))
  | inl _ =>
    with_scalars ls (<[setterName := mkScalarSetter setterName setterValue 0]> (ScalarSetters ls))
  end.

Definition addKptfileSetters (ls : ListSetters) (s : gmap gostring gostring) : ListSetters :=
  range_map add_kptfile_setter s ls.

(** The loop of [Filter] over the documents, [all] being the whole slice:
    the registry, the slice returned and the error. *)
Fixpoint discover (all : list Node) (ls : ListSetters) (nodes : list Node)
    : ListSetters * option (list Node) * option error :=
  match nodes with
  | [] => (ls, Some all, None)
  | node :: nodes' =>
    match GetFileAnnotations node with
    | inl err => (ls, Some all, Some err)
    | inr (filePath, _) =>
      let ls := mkListSetters (ScalarSetters ls) (ArraySetters ls) (Warnings ls) filePath in
      match accept node ls with
      | (ls', Some err) => (ls', None, Some (Wrap err))
      | (ls', None) => discover all ls' nodes'
      end
    end
  end.

Definition Filter (ls : ListSetters) (nodes : list Node)
    : ListSetters * option (list Node) * option error :=
  match FindSettersFromKptfile nodes with
  | inl err =>
    match As_discovery err with
    | Some discoveryErr =>
      discover nodes
        (mkListSetters (ScalarSetters ls) (ArraySetters ls)
           (Warnings ls ++ [discoveryErr]) (filePath ls))
        nodes
    | None => (ls, Some nodes, Some err)
    end
  | inr kfSetters => discover nodes (addKptfileSetters ls kfSetters) nodes
  end.
End discovery.

(** [fmt.Sprint] of a slice of strings: the elements between brackets,
    separated by a space. *)
Fixpoint join (sep : gostring) (l : list gostring) : gostring :=
  match l with
  | [] => []
  | [x] => x
  | x :: l' => x ++ sep ++ join sep l'
  end.

Definition Sprint (values : list gostring) : gostring :=
  str "[" ++ join (str " ") values ++ str "]".

(** [GetResults], for the orders [arrays] and [scalars] in which the two
    [range] loops enumerate the setters. *)
Definition results_of (arrays : list ArraySetter) (scalars : list ScalarSetter) : list Result :=
  let out :=
    ((fun v => mkResult (AName v) (Sprint (AValues v)) ArraySetterType (ACount v)) <$> arrays)
    ++ ((fun v => mkResult (SName v) (SValue v) ScalarSetterType (SCount v)) <$> scalars) in
  SliceStable (fun a b => str_lt (RName a) (RName b)) out.

Definition GetResults (ls : ListSetters) : list Result :=
  results_of ((map_to_list (ArraySetters ls)).*2) ((map_to_list (ScalarSetters ls)).*2).

(* ===================================================================== *)
(** ** Patterns and their pieces *)
(* ===================================================================== *)

(** The text of a placeholder. *)
Definition placeholder (name : gostring) : gostring := str "${" ++ name ++ str "}".

Definition dollar : ascii := "$"%char.
Definition rbrace : ascii := "}"%char.

Definition lbrace : ascii := "{"%char.

(** A pattern cut into literal text and placeholders. *)
Inductive piece : Type :=
  | Text (s : gostring)
  | Hole (name : gostring).

Definition render_piece (p : piece) : gostring :=
  match p with
  | Text s => s
  | Hole name => placeholder name
  end.

(** The pattern the pieces spell. *)
Definition render (pieces : list piece) : gostring := concat (render_piece <$> pieces).

Definition holes (pieces : list piece) : list gostring :=
  omap (fun p => match p with Hole name => Some name | Text _ => None end) pieces.

(** Text has no dollar sign; a name has neither a dollar sign nor a closing
    brace. *)
Definition piece_ok (p : piece) : Prop :=
  match p with
  | Text s => dollar ∉ s
  | Hole name => (dollar ∉ name) /\ (rbrace ∉ name)
  end.

(** The pattern with the bound values in the place of the placeholders. *)
Definition fill (res : gmap gostring gostring) (pieces : list piece) : gostring :=
  concat ((fun p => match p with
                    | Text s => s
                    | Hole name => default [] (res !! name)
                    end) <$> pieces).

(** The expression of the pieces once the placeholders named in [replaced]
    have been replaced by the group. *)
Definition expr_piece (replaced : list gostring) (p : piece) : gostring :=
  match p with
  | Text s => QuoteMeta s
  | Hole name => if decide (name ∈ replaced) then capture_group
                 else QuoteMeta (placeholder name)
  end.

Definition expr_with (replaced : list gostring) (pieces : list piece) : gostring :=
  concat (expr_piece replaced <$> pieces).

(** The compiled expression of the pieces. *)
Definition prog_of (pieces : list piece) : prog :=
  pieces ≫= fun p => match p with
                     | Text s => Lit <$> s
                     | Hole _ => [CaptureAny]
                     end.

(** The text a compiled expression matches with the given captures. *)
Fixpoint assemble (p : prog) (caps : list gostring) : gostring :=
  match p with
  | [] => []
  | Lit c :: p' => c :: assemble p' caps
  | CaptureAny :: p' =>
    match caps with
    | cap :: caps' => cap ++ assemble p' caps'
    | [] => assemble p' []
    end
  end.

(** An expression without the literal U+FFFD. *)
Definition replacement_free (p : prog) : Prop :=
  forall i, ¬ (Lit <$> RuneError) `prefix_of` drop i p.

(** The number of groups of a compiled expression. *)
Definition groups (p : prog) : nat := length (filter (fun i => i = CaptureAny) p).

(** The units of an expression: an escaped or plain literal byte, or the group. *)
Definition unit_text (i : inst) : gostring :=
  match i with
  | Lit c => if is_special c then [backslash; c] else [c]
  | CaptureAny => capture_group
  end.

Definition units_text (p : prog) : gostring := p ≫= unit_text.

(** A string made of white-space runes only. *)
Definition all_space (s : gostring) : Prop :=
  exists ws, Forall (fun w => w ∈ space_encodings) ws /\ s = concat ws.

(** Bytes below 128. *)
Definition ascii_only (s : gostring) : Prop := Forall (fun c => nat_of_ascii c < 128) s.

(** The compiled expression of any pattern: the literals of the pattern with
    the placeholders replaced, one after the other, by the group. *)
Definition prog_expr (pattern : gostring) : prog :=
  foldl (fun p setterName => replace_all (Lit <$> setterName) [CaptureAny] 0 p)
        (Lit <$> pattern) (unresolvedSetters pattern).

(** A placeholder of the pattern while the expression is built: still the
    literals of [${body}], or a group after the literals [pre] that an earlier
    replacement left in front of it. *)
Inductive hole_state : Type :=
  | Intact (body : gostring)
  | Replaced (pre : gostring).

(** A stretch of the pattern: the text before a placeholder, and the
    placeholder. *)
Definition block_prog (b : gostring * hole_state) : prog :=
  match b.2 with
  | Intact body => Lit <$> (b.1 ++ placeholder body)
  | Replaced pre => (Lit <$> (b.1 ++ pre)) ++ [CaptureAny]
  end.

Definition block_ok (b : gostring * hole_state) : Prop :=
  Contains b.1 (str "${") = false
  /\ match b.2 with
     | Intact body => rbrace ∉ body
     | Replaced pre => (rbrace ∉ pre) /\ head pre ≠ Some lbrace
     end.

(** What replacing the placeholder [M] does to a stretch. *)
Definition block_step (M : gostring) (b : gostring * hole_state) : gostring * hole_state :=
  match b.2 with
  | Intact body =>
    if decide (M `suffix_of` placeholder body)
    then (b.1, Replaced (take (length (placeholder body) - length M) (placeholder body)))
    else b
  | Replaced _ => b
  end.

Definition blocks_prog (bs : list (gostring * hole_state)) (tail : gostring) : prog :=
  concat (block_prog <$> bs) ++ (Lit <$> tail).

Definition is_replaced (b : gostring * hole_state) : Prop :=
  match b.2 with
  | Intact _ => False
  | Replaced _ => True
  end.

(* ===================================================================== *)
(** ** Visits *)
(* ===================================================================== *)

(** The comment [visitMapping] reads for a field: that of the value when the
    value is in flow style, that of the key otherwise. *)
Definition attached_comment (key value : Node) : gostring :=
  if decide (Style value = FlowStyle) then LineComment value else LineComment key.

Definition incr_scalar (s : ScalarSetter) : ScalarSetter :=
  mkScalarSetter (SName s) (SValue s) (wrap_int (SCount s + 1)).

Definition incr_array (a : ArraySetter) : ArraySetter :=
  mkArraySetter (AName a) (AValues a) (wrap_int (ACount a + 1)).

(** A node resolves to a name in the scalar visit. *)
Definition resolves_scalar (n : Node) (name : gostring) : Prop :=
  NodeKind n = ScalarNode
  /\ extractSetterPattern (LineComment n) ≠ []
  /\ is_Some (currentSetterValues (extractSetterPattern (LineComment n)) (Value n) !! name).

(** A field resolves to a name in the mapping visit. *)
Definition resolves_array (key value : Node) (name : gostring) : Prop :=
  NodeKind value = SequenceNode
  /\ extractSetterPattern (attached_comment key value) ≠ []
  /\ clean (extractSetterPattern (attached_comment key value)) = name.

Definition with_warning (ls : ListSetters) (w : ErrSetterDiscovery) : ListSetters :=
  mkListSetters (ScalarSetters ls) (ArraySetters ls) (Warnings ls ++ [w]) (filePath ls).

Definition with_filePath (ls : ListSetters) (path : gostring) : ListSetters :=
  mkListSetters (ScalarSetters ls) (ArraySetters ls) (Warnings ls) path.

(** Every mapping of the tree has an even number of content nodes, as the
    YAML reader builds them. *)
Fixpoint well_formed (object : Node) : bool :=
  (if decide (NodeKind object = MappingNode) then Nat.even (length (Content object))
   else true)
  && (fix all (l : list Node) : bool :=
        match l with
        | [] => true
        | c :: l' => well_formed c && all l'
        end) (Content object).

(** The walk succeeds on the tree, from some registry. *)
Definition walks (object : Node) : Prop :=
  exists ls ls', accept object ls = (ls', None).

(** A call of a visitor rule. *)
Inductive visit : Type :=
  | ScalarVisit (n : Node)
  | FieldVisit (node : option MapNode).

Definition apply_visit (ls : ListSetters) (v : visit) : ListSetters :=
  match v with
  | ScalarVisit n => (visitScalar ls (Some n) []).1
  | FieldVisit node => (visitField node ls).1
  end.

(** The fields [VisitFields] hands to its callback. *)
Definition visited_fields (n : Node) : list (option MapNode) :=
  match Fields n with
  | inr names => Field n <$> names
  | inl _ => []
  end.

(** The visits of a walk, in order. *)
Fixpoint trace (object : Node) : list visit :=
  let children :=
    (fix traces (l : list Node) : list (list visit) :=
       match l with
       | [] => []
       | c :: l' => trace c :: traces l'
       end) (Content object) in
  match NodeKind object with
  | DocumentNode =>
    match children with
    | t :: _ => t
    | [] => []
    end
  | MappingNode => (FieldVisit <$> visited_fields object) ++ concat ((pairs children).*2)
  | SequenceNode => concat children
  | ScalarNode => [ScalarVisit object]
  | AliasNode => []
  end.

(** The fields of the mappings of a tree, in the order in which the walk
    meets them: the fields of a mapping, then those inside their values. *)
Fixpoint fields (object : Node) : list (Node * Node) :=
  let children :=
    (fix all (l : list Node) : list (list (Node * Node)) :=
       match l with
       | [] => []
       | c :: l' => fields c :: all l'
       end) (Content object) in
  match NodeKind object with
  | DocumentNode =>
    match children with
    | f :: _ => f
    | [] => []
    end
  | MappingNode => pairs (Content object) ++ concat ((pairs children).*2)
  | SequenceNode => concat children
  | ScalarNode => []
  | AliasNode => []
  end.

(** No mapping of the tree has two fields of the same name. *)
Fixpoint distinct_keys (object : Node) : bool :=
  (if decide (NodeKind object = MappingNode)
   then bool_decide (NoDup ((fun kv => Value kv.1) <$> pairs (Content object)))
   else true)
  && (fix all (l : list Node) : bool :=
        match l with
        | [] => true
        | c :: l' => distinct_keys c && all l'
        end) (Content object).

(** The mapping visit of a field. *)
Definition field_visit (kv : Node * Node) : visit :=
  FieldVisit (Some (mkMapNode (Some kv.1) (Some kv.2))).

Global Instance resolves_array_dec (key value : Node) (name : gostring) :
  Decision (resolves_array key value name).
Proof. unfold resolves_array. apply _. Defined.

(** The visit is the mapping visit of a field that resolves to [name]. *)
Definition carries (name : gostring) (v : visit) : Prop :=
  match v with
  | FieldVisit (Some (mkMapNode (Some key) (Some value))) => resolves_array key value name
  | _ => False
  end.

Global Instance carries_dec (name : gostring) (v : visit) : Decision (carries name v).
Proof.
  destruct v as [n|[[[key|] [value|]]|]]; simpl; try (right; tauto).
  unfold resolves_array. apply _.
Defined.

(** The sorted elements of the field of a mapping visit. *)
Definition carried_values (v : visit) : list gostring :=
  match v with
  | FieldVisit (Some (mkMapNode _ (Some value))) => sort_Strings (Value <$> Content value)
  | _ => []
  end.

(** What a visit does to the array mapping. *)
Definition array_step (m : gmap gostring ArraySetter) (v : visit) : gmap gostring ArraySetter :=
  match v with
  | FieldVisit (Some (mkMapNode (Some key) (Some value))) =>
    if decide (NodeKind value = SequenceNode
               /\ extractSetterPattern (attached_comment key value) ≠ [])
    then add_array (clean (extractSetterPattern (attached_comment key value)))
           (sort_Strings (Value <$> Content value)) m
    else m
  | _ => m
  end.

(** Every setter is stored under its own name. *)
Definition names_ok (ls : ListSetters) : Prop :=
  (forall k s, ScalarSetters ls !! k = Some s -> SName s = k)
  /\ (forall k a, ArraySetters ls !! k = Some a -> AName a = k).

(** The visit is the scalar visit of a node that resolves to [name]. *)
Definition binds (name : gostring) (v : visit) : Prop :=
  match v with
  | ScalarVisit n => resolves_scalar n name
  | FieldVisit _ => False
  end.

Global Instance binds_dec (name : gostring) (v : visit) : Decision (binds name v).
Proof. destruct v as [n|node]; simpl; [unfold resolves_scalar|]; apply _. Defined.

(** The value the node of a scalar visit gives to [name]. *)
Definition bound_value (name : gostring) (v : visit) : gostring :=
  match v with
  | ScalarVisit n =>
    default [] (currentSetterValues (extractSetterPattern (LineComment n)) (Value n) !! name)
  | FieldVisit _ => []
  end.

(** What a visit does to the scalar mapping. *)
Definition scalar_step (m : gmap gostring ScalarSetter) (v : visit)
    : gmap gostring ScalarSetter :=
  match v with
  | ScalarVisit n =>
    if decide (NodeKind n = ScalarNode /\ extractSetterPattern (LineComment n) ≠ [])
    then range_map add_scalar
           (currentSetterValues (extractSetterPattern (LineComment n)) (Value n)) m
    else m
  | FieldVisit _ => m
  end.

(* ===================================================================== *)
(** ** Orders and results *)
(* ===================================================================== *)

(** [a] does not come after [b]. *)
Definition not_after {A} (less : A -> A -> bool) (a b : A) : Prop := less b a = false.

(** One of the two comes strictly before the other. *)
Definition apart {A} (less : A -> A -> bool) (x y : A) : Prop :=
  less x y = true \/ less y x = true.

Definition less_name (a b : Result) : bool := str_lt (RName a) (RName b).

(** The result [GetResults] makes of an array setter and of a scalar setter. *)
Definition array_result (v : ArraySetter) : Result :=
  mkResult (AName v) (Sprint (AValues v)) ArraySetterType (ACount v).

Definition scalar_result (v : ScalarSetter) : Result :=
  mkResult (SName v) (SValue v) ScalarSetterType (SCount v).

(** [out] is what [GetResults] returns for some order of its two loops. *)
Definition results_in_some_order (ls : ListSetters) (out : list Result) : Prop :=
  exists arrays scalars,
    arrays ≡ₚ (map_to_list (ArraySetters ls)).*2
    /\ scalars ≡ₚ (map_to_list (ScalarSetters ls)).*2
    /\ out = results_of arrays scalars.

(* ===================================================================== *)
(** ** Documents for the examples *)
(* ===================================================================== *)

Definition scalar (value comment : gostring) : Node :=
  mkNode ScalarNode (str "!!str") 0 value comment [].

(** The null value, written [value]. *)
Definition null (value : gostring) : Node :=
  mkNode ScalarNode NullNodeTag 0 value [] [].

Definition sequence (style : Z) (comment : gostring) (elements : list Node) : Node :=
  mkNode SequenceNode (str "!!seq") style [] comment elements.

Definition mapping (fields : list (Node * Node)) : Node :=
  mkNode MappingNode (str "!!map") 0 [] [] (fields ≫= fun kv => [kv.1; kv.2]).

(** The value of the first field called [name]. *)
Definition field_value (n : Node) (name : gostring) : option Node :=
  snd <$> find (fun kv => bool_decide (Value kv.1 = name)) (pairs (Content n)).

(** A mapping of scalars read as a Go map. *)
Definition string_map (n : Node) : gmap gostring gostring :=
  list_to_map ((fun kv => (Value kv.1, Value kv.2)) <$> pairs (Content n)).

Definition annotation (n : Node) (key : gostring) : gostring :=
  default [] (Value <$> (field_value n (str "metadata") ≫= fun m =>
                         field_value m (str "annotations") ≫= fun a =>
                         field_value a key)).

Definition scalar_value (n : Node) (name : gostring) : gostring :=
  default [] (Value <$> field_value n name).

Definition read_function (n : Node) : Function :=
  mkFunction (scalar_value n (str "image")) (scalar_value n (str "configPath"))
    (string_map <$> field_value n (str "configMap")).

Definition read_kptfile (n : Node) : error + KptFile :=
  inr (mkKptFile ((fun p => mkPipeline (read_function <$>
                     from_option Content [] (field_value p (str "mutators"))))
                  <$> field_value n (str "pipeline"))).

(** The pieces of [s] between the occurrences of [sep]. *)
Fixpoint split_on (sep : ascii) (s : gostring) : list gostring :=
  match s with
  | [] => [[]]
  | c :: s' =>
    match split_on sep s' with
    | piece :: pieces => if decide (c = sep) then [] :: piece :: pieces else (c :: piece) :: pieces
    | [] => [[c]]
    end
  end.

(** A flow sequence of plain scalars, [[a, b]], is read as a sequence node,
    [~] and [null], in its three spellings, as the null value, any other text
    as a scalar; a text without a document is an error. *)
Definition parse_flow (s : gostring) : error + Node :=
  let s := TrimSpace s in
  if decide (s = []) then inl (Errorf (str "EOF"))
  else if HasPrefix s (str "[") && HasSuffix s (str "]") then
    let inner := TrimSpace (TrimSuffix (TrimPrefix s (str "[")) (str "]")) in
    inr (sequence FlowStyle []
           (if decide (inner = []) then []
            else (fun e => scalar (TrimSpace e) []) <$> split_on ","%char inner))
  else if decide (s ∈ [str "~"; str "null"; str "Null"; str "NULL"]) then inr (null s)
  else inr (scalar s []).

Definition PathAnnotationKey : gostring := str "config.kubernetes.io/path".
Definition IndexAnnotationKey : gostring := str "config.kubernetes.io/index".

Definition reader : Collaborators :=
  {| yaml_Parse := parse_flow;
     RNode_String := fun n => inr (Value n ++ [newline]);
     PathAnnotation := fun n => annotation n PathAnnotationKey;
     GetFileAnnotations := fun n =>
       inr (annotation n PathAnnotationKey, annotation n IndexAnnotationKey);
     GetDataMap := fun n => from_option string_map ∅ (field_value n (str "data"));
     ReadFile := read_kptfile |}.

(** Documents for the examples. *)
Definition key (name : string) : Node := scalar (str name) [].

Definition with_path (path : string) (fields : list (Node * Node)) : Node :=
  mapping ((key "metadata",
            mapping [(key "annotations",
                      mapping [(scalar PathAnnotationKey [], scalar (str path) [])])])
           :: fields).

(** A manifest whose apply-setters stage has the inline configuration [config]. *)
Definition kptfile_inline (config : list (Node * Node)) : Node :=
  with_path "Kptfile"
    [(key "pipeline",
      mapping [(key "mutators",
                sequence 0 []
                  [mapping [(key "image", scalar (str "gcr.io/kpt-fn/apply-setters:v0.1") []);
                            (key "configMap", mapping config)]])])].

(** A manifest whose apply-setters stage refers to the file [path]. *)
Definition kptfile_path (path : string) : Node :=
  with_path "Kptfile"
    [(key "pipeline",
      mapping [(key "mutators",
                sequence 0 []
                  [mapping [(key "image", scalar (str "gcr.io/kpt-fn/apply-setters:v0.1") []);
                            (key "configPath", scalar (str path) [])]])])].

(** A resource with a scalar field and a sequence field, both marked. *)
Definition deployment : Node :=
  with_path "deploy.yaml"
    [(key "replicas", scalar (str "3") (str "# kpt-set: ${replicas}"));
     (scalar (str "args") (str "# kpt-set: ${list}"),
      sequence 0 [] [scalar (str "b") []; scalar (str "a") []])].

(** The field [args] of [deployment], as the mapping visit sees it. *)
Definition args_visit : visit :=
  FieldVisit (Some (mkMapNode
    (Some (scalar (str "args") (str "# kpt-set: ${list}")))
    (Some (sequence 0 [] [scalar (str "b") []; scalar (str "a") []])))).

(** A manifest that declares an array and two scalars, and a resource. *)
Definition package : list Node :=
  [kptfile_inline [(key "list", scalar (str "[b, a]") []);
                   (key "replicas", scalar (str "5") []);
                   (key "zone", scalar (str "eu") [])];
   deployment].

(** A document of setters for a manifest to refer to. *)
Definition setters_file : Node :=
  with_path "setters.yaml"
    [(key "data", mapping [(key "replicas", scalar (str "5") [])])].

(** A manifest whose pipeline is not a mapping. *)
Definition kptfile_broken : Node :=
  with_path "Kptfile" [(key "pipeline", scalar (str "none") [])].

(** A reader that fails where the libraries do: the annotations of a
    document that is no mapping cannot be read, and neither can a manifest
    whose pipeline is no mapping. *)
Definition strict_reader : Collaborators :=
  {| yaml_Parse := parse_flow;
     RNode_String := fun n => inr (Value n ++ [newline]);
     PathAnnotation := fun n => annotation n PathAnnotationKey;
     GetFileAnnotations := fun n =>
       if decide (NodeKind n = MappingNode)
       then inr (annotation n PathAnnotationKey, annotation n IndexAnnotationKey)
       else inl (Errorf (str "wrong Node Kind"));
     GetDataMap := fun n => from_option string_map ∅ (field_value n (str "data"));
     ReadFile := fun n =>
       match field_value n (str "pipeline") with
       | Some p =>
         if decide (NodeKind p = MappingNode) then read_kptfile n
         else inl (Errorf (str "yaml: unmarshal errors"))
       | None => read_kptfile n
       end |}.

(* ===================================================================== *)
(** ** The manifest and the pass *)
(* ===================================================================== *)

(** A stage that applies setters. *)
Definition applies_setters (fn : Function) : bool := Contains (Image fn) (str "apply-setters").

(** [fn] is the first stage of [mutators] that applies setters. *)
Definition first_apply_setters (mutators : list Function) (fn : Function) : Prop :=
  exists before after,
    mutators = before ++ fn :: after
    /\ Forall (fun f => applies_setters f = false) before
    /\ applies_setters fn = true.

Section vocabulary.
Context `{Collaborators}.

(** The walk of one document of [Filter], once its annotations are read. *)
Definition walk_document (ls : ListSetters) (node : Node) : ListSetters :=
  match GetFileAnnotations node with
  | inr (path, _) => foldl apply_visit (with_filePath ls path) (trace node)
  | inl _ => ls
  end.

(** The annotations of a document can be read. *)
Definition readable (node : Node) : Prop := exists pi, GetFileAnnotations node = inr pi.

(** The failures of the manifest that [Filter] survives: no manifest, no
    pipeline in it, no stage that applies setters, no configuration on the
    first such stage. *)
Definition manifest_failure (nodes : list Node) : Prop :=
  Forall (fun n => PathAnnotation n ≠ KptFileName) nodes
  \/ exists kf, FindKptfile nodes = inr kf
     /\ (KptPipeline kf = None
         \/ exists p, KptPipeline kf = Some p
            /\ (Forall (fun f => applies_setters f = false) (Mutators p)
                \/ exists fn, first_apply_setters (Mutators p) fn
                   /\ ConfigMap fn = None /\ ConfigPath fn = [])).

(** The first stage that applies setters refers to a file that is not among
    the documents. *)
Definition missing_config_file (nodes : list Node) (path : gostring) : Prop :=
  exists kf p fn,
    FindKptfile nodes = inr kf /\ KptPipeline kf = Some p
    /\ first_apply_setters (Mutators p) fn
    /\ ConfigMap fn = None /\ ConfigPath fn = path /\ path ≠ []
    /\ Forall (fun n => PathAnnotation n ≠ path) nodes.

(** The text reads as an array: the reader makes it a sequence node or a node
    tagged null, and every element of it can be printed. *)
Definition reads_as_array (sv : gostring) : Prop :=
  exists rn, yaml_Parse sv = inr rn
    /\ (Tag rn = NullNodeTag \/ NodeKind rn = SequenceNode)
    /\ Forall (fun elem => exists text, RNode_String elem = inr text) (Content rn).

(** The values the manifest seeds an array setter called [name] with: those
    [getArraySetterValues] returns for the text the manifest declares. *)
Definition seeded_array (nodes : list Node) (name : gostring) : option (list gostring) :=
  match FindSettersFromKptfile nodes with
  | inr s =>
    match s !! name with
    | Some sv =>
      match getArraySetterValues sv with
      | inr vs => Some vs
      | inl _ => None
      end
    | None => None
    end
  | inl _ => None
  end.

(** The value the manifest seeds a scalar setter called [name] with: the
    text it declares, when [getArraySetterValues] fails on it. *)
Definition seeded_scalar (nodes : list Node) (name : gostring) : option gostring :=
  match FindSettersFromKptfile nodes with
  | inr s =>
    match s !! name with
    | Some sv =>
      match getArraySetterValues sv with
      | inr _ => None
      | inl _ => Some sv
      end
    | None => None
    end
  | inl _ => None
  end.

(** The registry [Filter] walks the documents with, after the manifest. *)
Definition seeded (ls : ListSetters) (nodes : list Node) : option ListSetters :=
  match FindSettersFromKptfile nodes with
  | inl err => with_warning ls <$> As_discovery err
  | inr kfSetters => Some (addKptfileSetters ls kfSetters)
  end.
End vocabulary.

(* ===================================================================== *)
(** * Properties *)
(* ===================================================================== *)

Global Arguments visitScalar : simpl never.
Global Arguments visitField : simpl never.
Global Arguments visitMapping : simpl never.
Global Arguments currentSetterValues : simpl never.
Global Arguments extractSetterPattern : simpl never.
Global Arguments clean : simpl never.
Global Arguments TrimSpace : simpl never.
Global Arguments Contains : simpl never.
Global Arguments sort_Strings : simpl never.
Global Arguments wrap_int : simpl never.

(** ** Strings *)

Lemma HasPrefix_spec (s p : gostring) : HasPrefix s p = true <-> p `prefix_of` s.
Proof.
  revert s. induction p as [|a p IH]; intros [|b s]; simpl.
  - split; [intros _; apply prefix_nil | done].
  - split; [intros _; apply prefix_nil | done].
  - split; [done | intros Hp; by apply prefix_nil_not in Hp].
  - case_decide as Hab.
    + subst. rewrite IH. split; [apply prefix_cons | apply prefix_cons_inv_2].
    + split; [done | intros Hp; by apply prefix_cons_inv_1 in Hp].
Qed.

Lemma HasPrefix_app (p r : gostring) : HasPrefix (p ++ r) p = true.
Proof. apply HasPrefix_spec. by apply prefix_app_r. Qed.

Lemma TrimPrefix_app (p r : gostring) : TrimPrefix (p ++ r) p = r.
Proof. unfold TrimPrefix. by rewrite HasPrefix_app, drop_app_length. Qed.

Lemma TrimSuffix_app (s suffix : gostring) : TrimSuffix (s ++ suffix) suffix = s.
Proof.
  unfold TrimSuffix, HasSuffix. rewrite reverse_app, HasPrefix_app, length_app.
  replace (length s + length suffix - length suffix) with (length s) by lia.
  by rewrite take_app_length.
Qed.

Section replace_all.
Context {A : Type} `{EqDecision A}.
Implicit Types old new s : list A.

Lemma replace_all_skip old new a s :
  replace_all old new (length a) (a ++ s) = replace_all old new 0 s.
Proof.
  induction a as [|x a IH]; simpl; [|done].
  by destruct s.
Qed.

Lemma replace_all_nil old new k : replace_all old new k [] = [].
Proof. done. Qed.

Lemma replace_all_match old new s :
  old ≠ [] -> replace_all old new 0 (old ++ s) = new ++ replace_all old new 0 s.
Proof.
  destruct old as [|c old]; [done|]. intros _. simpl.
  rewrite bool_decide_eq_true_2 by (by apply (prefix_app_r (c :: old) (c :: old) s)).
  by rewrite Nat.sub_0_r, replace_all_skip.
Qed.

Lemma replace_all_step old new c s :
  ¬ old `prefix_of` (c :: s) ->
  replace_all old new 0 (c :: s) = c :: replace_all old new 0 s.
Proof. intros Hn. simpl. by rewrite bool_decide_eq_false_2. Qed.

Lemma replace_all_self old new : old ≠ [] -> replace_all old new 0 old = new.
Proof.
  intros Ho. rewrite <- (app_nil_r old) at 2.
  rewrite replace_all_match by done. simpl. apply app_nil_r.
Qed.
End replace_all.

(** ** Placeholders *)

Lemma until_brace_app (name rest : gostring) :
  "}"%char ∉ name -> until_brace (name ++ "}"%char :: rest) = Some (name ++ ["}"%char]).
Proof.
  induction name as [|c name IH]; intros Hn; simpl.
  - done.
  - rewrite decide_False by (intros ->; apply Hn; left).
    rewrite IH; [done|]. intros Hin. apply Hn. by right.
Qed.

Lemma find_placeholders_skip (a s : gostring) :
  find_placeholders (length a) (a ++ s) = find_placeholders 0 s.
Proof.
  induction a as [|x a IH]; simpl; [|done].
  by destruct s.
Qed.

Lemma find_placeholders_0 (c : ascii) (s' : gostring) :
  find_placeholders 0 (c :: s')
  = if HasPrefix (c :: s') (str "${") then
      match until_brace (drop 2 (c :: s')) with
      | Some body => (str "${" ++ body) :: find_placeholders (1 + length body) s'
      | None => find_placeholders 0 s'
      end
    else find_placeholders 0 s'.
Proof. reflexivity. Qed.

Lemma find_placeholders_hole (name rest : gostring) :
  "}"%char ∉ name ->
  find_placeholders 0 (placeholder name ++ rest)
  = placeholder name :: find_placeholders 0 rest.
Proof.
  intros Hn. unfold placeholder.
  assert (E : (str "${" ++ name ++ str "}") ++ rest
              = "$"%char :: "{"%char :: name ++ "}"%char :: rest)
    by (simpl; by rewrite <- app_assoc).
  rewrite E, find_placeholders_0.
  assert (HasPrefix ("$"%char :: "{"%char :: name ++ "}"%char :: rest) (str "${") = true)
    as -> by reflexivity.
  replace (drop 2 ("$"%char :: "{"%char :: name ++ "}"%char :: rest))
    with (name ++ "}"%char :: rest) by reflexivity.
  rewrite until_brace_app by done. f_equal.
  change ("{"%char :: name ++ "}"%char :: rest) with (("{"%char :: name) ++ ["}"%char] ++ rest).
  rewrite app_assoc.
  replace (1 + length (name ++ ["}"%char])) with (length (("{"%char :: name) ++ ["}"%char])).
  - apply find_placeholders_skip.
  - simpl. by rewrite !length_app.
Qed.

Lemma find_placeholders_short (k : nat) (s : gostring) :
  length s <= k -> find_placeholders k s = [].
Proof.
  revert k. induction s as [|c s IH]; intros k Hk; [done|].
  destruct k as [|k]; simpl in *; [lia|]. apply IH. lia.
Qed.

Lemma unresolvedSetters_single (name : gostring) :
  "}"%char ∉ name -> unresolvedSetters (placeholder name) = [placeholder name].
Proof.
  intros Hn. unfold unresolvedSetters.
  rewrite <- (app_nil_r (placeholder name)) at 1.
  by rewrite find_placeholders_hole.
Qed.

(** ** Matching *)

Lemma rune_width_le (s : gostring) : rune_width s <= length s.
Proof.
  destruct s as [|b0 t]; [done|]. unfold rune_width.
  repeat case_match; simpl; lia.
Qed.

Lemma star_all (rest : gostring -> option (gostring * list gostring)) m caps :
  rest [] = Some (m, caps) ->
  forall s k, newline ∉ s -> k <= length s ->
  star rest k s = Some (s, m, caps).
Proof.
  intros Hrest. induction s as [|c s IH]; intros k Hnl Hk.
  - destruct k; [|simpl in Hk; lia]. simpl. by rewrite Hrest.
  - assert (c ≠ newline) by (intros ->; apply Hnl; left).
    assert (newline ∉ s) by (intros ?; apply Hnl; by right).
    destruct k as [|k].
    + cbn [star]. rewrite decide_False by done.
      rewrite IH; [done|done|].
      pose proof (rune_width_le (c :: s)). simpl in *. lia.
    + cbn [star]. rewrite IH; [done|done|simpl in Hk; lia].
Qed.

Lemma search_0 (p : prog) (s : gostring) :
  search p 0 s
  = match match_here p s with
    | Some (m, caps) => Some (m :: caps)
    | None =>
      match s with
      | [] => None
      | _ :: s' => search p (rune_width s - 1) s'
      end
    end.
Proof. by destruct s. Qed.

Lemma FindStringSubmatch_capture_all (value : gostring) :
  newline ∉ value -> FindStringSubmatch [CaptureAny] value = Some [value; value].
Proof.
  intros Hnl. unfold FindStringSubmatch.
  assert (match_here [CaptureAny] value = Some (value, [value])) as Hm.
  { cbn [match_here]. rewrite (star_all _ [] []) by (done || lia).
    simpl. by rewrite app_nil_r. }
  by rewrite search_0, Hm.
Qed.

(** ** Cleaning a placeholder *)

Lemma trim_left_nonspace (encs : list gostring) (s : gostring) :
  space_width encs s = 0 -> trim_left encs 0 s = s.
Proof. intros Hw. destruct s; simpl; [done|]. by rewrite Hw. Qed.

Lemma placeholder_snoc (name : gostring) :
  placeholder name = ("$"%char :: "{"%char :: name) ++ ["}"%char].
Proof. done. Qed.

Lemma TrimSpace_placeholder (name : gostring) :
  TrimSpace (placeholder name) = placeholder name.
Proof.
  unfold TrimSpace. rewrite (trim_left_nonspace space_encodings) by reflexivity.
  rewrite placeholder_snoc, reverse_snoc.
  rewrite trim_left_nonspace by reflexivity.
  by rewrite <- reverse_snoc, reverse_involutive.
Qed.

Lemma clean_placeholder (name : gostring) : clean (placeholder name) = name.
Proof.
  unfold clean. rewrite TrimSpace_placeholder. unfold placeholder.
  by rewrite TrimPrefix_app, TrimSuffix_app.
Qed.

(** ** The resolver *)

Lemma QuoteMeta_placeholder (name : gostring) :
  QuoteMeta (placeholder name) ≠ [].
Proof. done. Qed.

Lemma setter_expr_single (name : gostring) :
  "}"%char ∉ name -> setter_expr (placeholder name) = capture_group.
Proof.
  intros Hn. unfold setter_expr. rewrite unresolvedSetters_single by done.
  cbn [foldl]. unfold ReplaceAll.
  destruct (QuoteMeta (placeholder name)) eqn:E; [done|].
  by apply replace_all_self.
Qed.

Lemma bind_setters_empty_capture (urs setterValues : list gostring) res :
  length urs = length setterValues -> [] ∈ setterValues ->
  bind_setters urs setterValues res = ∅.
Proof.
  revert urs res. induction setterValues as [|v vs IH]; intros urs res Hlen Hin.
  - by apply elem_of_nil in Hin.
  - destruct urs as [|u urs]; [done|]. simpl.
    case_decide as Hv; [done|].
    apply IH; [simpl in Hlen; lia|].
    apply elem_of_cons in Hin as [Hin|Hin]; [by subst|done].
Qed.

(** C5: whenever a group of the match captures the empty string, the
    resolver returns the empty mapping, whatever the other groups captured. *)
Theorem empty_capture_discards_all (pattern value : gostring) (r : prog)
    (matched : gostring) (captures : list gostring) :
  Compile (setter_expr pattern) = Some r ->
  FindStringSubmatch r value = Some (matched :: captures) ->
  [] ∈ captures ->
  currentSetterValues pattern value = ∅.
Proof.
  intros Hc Hm Hin. unfold currentSetterValues. rewrite Hc, Hm.
  case_decide as Hlen; [done|].
  apply bind_setters_empty_capture; [|done].
  destruct (decide (length (unresolvedSetters pattern) = length captures)); [done|].
  by destruct Hlen.
Qed.

Lemma empty_capture_discards_all_witness :
  currentSetterValues (str "foo.${a}.${b}") (str "foo..bar") = ∅.
Proof.
  apply (empty_capture_discards_all _ _
           [Lit "f"; Lit "o"; Lit "o"; Lit "."; CaptureAny; Lit "."; CaptureAny]%char
           (str "foo..bar") [[]; str "bar"]).
  - vm_compute. reflexivity.
  - vm_compute. reflexivity.
  - left.
Defined.

(** C2 (as the code has it): a pattern without placeholders binds nothing,
    and the scalar visit of a field marked with it leaves the registry as it
    was. *)
Theorem no_placeholder_no_setter (ls : ListSetters) (n : Node) (path value : gostring) :
  unresolvedSetters (extractSetterPattern (LineComment n)) = [] ->
  currentSetterValues (extractSetterPattern (LineComment n)) value = ∅
  /\ visitScalar ls (Some n) path = (ls, None).
Proof.
  intros Hurs.
  assert (forall v, currentSetterValues (extractSetterPattern (LineComment n)) v = ∅) as Hcsv.
  { intros v. unfold currentSetterValues. rewrite Hurs.
    destruct (Compile _) as [r|]; [|done].
    destruct (FindStringSubmatch r v) as [[|m caps]|]; [done| |done].
    case_decide; [done|]. by destruct caps. }
  split; [apply Hcsv|].
  unfold visitScalar. case_decide; [done|]. case_decide; [done|].
  rewrite Hcsv. unfold range_map. rewrite map_fold_empty. by destruct ls.
Qed.

Lemma no_placeholder_no_setter_witness :
  currentSetterValues (extractSetterPattern (str "# kpt-set: replicas")) (str "3") = ∅
  /\ visitScalar New (Some (scalar (str "3") (str "# kpt-set: replicas"))) [] = (New, None).
Proof.
  apply (no_placeholder_no_setter New (scalar (str "3") (str "# kpt-set: replicas"))).
  vm_compute. reflexivity.
Defined.

(** C2 as stated fails: the marker [# kpt-set: replicas] has a pattern without
    placeholders, and the scalar visit of the field registers no setter
    called [replicas]. *)
Lemma direct_name_is_not_registered :
  let n := scalar (str "3") (str "# kpt-set: replicas") in
  unresolvedSetters (extractSetterPattern (LineComment n)) = []
  /\ ScalarSetters (visitScalar New (Some n) []).1 !! str "replicas" = None.
Proof. split; vm_compute; reflexivity. Qed.

Lemma Compile_capture_group : Compile capture_group = Some [CaptureAny].
Proof. reflexivity. Qed.

(** C7 (as the code has it): a pattern that is one placeholder binds its name
    to the whole value, for a value that is not empty and has no newline. *)
Theorem single_placeholder_binds_value (name value : gostring) :
  "}"%char ∉ name -> value ≠ [] -> newline ∉ value ->
  currentSetterValues (placeholder name) value = {[ name := value ]}.
Proof.
  intros Hn Hv Hnl. unfold currentSetterValues.
  rewrite setter_expr_single, Compile_capture_group by done.
  rewrite FindStringSubmatch_capture_all, unresolvedSetters_single by done.
  rewrite decide_False by (intros Hl; by apply Hl).
  cbn [bind_setters]. rewrite decide_False by done.
  by rewrite clean_placeholder.
Qed.

Lemma single_placeholder_binds_value_witness :
  currentSetterValues (str "${replicas}") (str "3") = {[ str "replicas" := str "3" ]}.
Proof.
  apply (single_placeholder_binds_value (str "replicas") (str "3")).
  - intros Hin. by vm_compute in Hin; repeat (apply elem_of_cons in Hin as [Hin|Hin]; [discriminate|]); apply elem_of_nil in Hin.
  - discriminate.
  - intros Hin. by vm_compute in Hin; repeat (apply elem_of_cons in Hin as [Hin|Hin]; [discriminate|]); apply elem_of_nil in Hin.
Defined.

(** C7 as stated fails on a value of two lines: the capture stops at the
    newline and the name is bound to the first line only. *)
Lemma single_placeholder_multiline_value :
  let value := str "ab" ++ [newline] ++ str "cd" in
  value ≠ []
  /\ currentSetterValues (str "${x}") value = {[ str "x" := str "ab" ]}
  /\ currentSetterValues (str "${x}") value ≠ {[ str "x" := value ]}.
Proof.
  split; [discriminate|]. 
  assert (currentSetterValues (str "${x}") (str "ab" ++ [newline] ++ str "cd")
          = {[ str "x" := str "ab" ]}) as E by (vm_compute; reflexivity).
  split; [exact E|]. cbv zeta. rewrite E. intros H.
  apply (f_equal (fun m => m !! str "x")) in H.
  rewrite !lookup_singleton_eq in H. discriminate.
Qed.

(** ** The marker *)

Lemma trim_left_space (w rest : gostring) :
  w ∈ space_encodings ->
  trim_left space_encodings 0 (w ++ rest) = trim_left space_encodings 0 rest.
Proof.
  intros Hw. apply list_elem_of_In in Hw. vm_compute in Hw.
  repeat (destruct Hw as [<-|Hw]; [reflexivity|]). done.
Qed.

Lemma trim_left_all_space (s : gostring) :
  all_space s -> trim_left space_encodings 0 s = [].
Proof.
  intros (ws & Hws & ->). induction Hws as [|w ws Hw _ IH]; [done|].
  simpl. by rewrite trim_left_space.
Qed.

Lemma TrimSpace_all_space (s : gostring) : all_space s -> TrimSpace s = [].
Proof. intros Hs. unfold TrimSpace. by rewrite trim_left_all_space. Qed.

Lemma extractSetterPattern_unmarked (comment : gostring) :
  HasPrefix comment SetterCommentIdentifier = false
  \/ (exists ws, all_space ws /\ comment = SetterCommentIdentifier ++ ws) ->
  extractSetterPattern comment = [].
Proof.
  unfold extractSetterPattern. intros [Hp|(ws & Hws & ->)].
  - by rewrite Hp.
  - rewrite HasPrefix_app, TrimPrefix_app. simpl. by apply TrimSpace_all_space.
Qed.

(** C10: a field whose comment does not begin with the marker, or has only
    white space after it, yields the empty pattern and is skipped by both
    visits: the registry stays as it was. *)
Theorem unmarked_field_is_skipped (comment : gostring) :
  HasPrefix comment SetterCommentIdentifier = false
  \/ (exists ws, all_space ws /\ comment = SetterCommentIdentifier ++ ws) ->
  extractSetterPattern comment = []
  /\ (forall ls n path, LineComment n = comment -> visitScalar ls (Some n) path = (ls, None))
  /\ (forall ls key value, attached_comment key value = comment ->
        visitField (Some (mkMapNode (Some key) (Some value))) ls = (ls, None)).
Proof.
  intros Hc. apply extractSetterPattern_unmarked in Hc. split; [done|]. split.
  - intros ls n path <-. unfold visitScalar. case_decide; [done|].
    by rewrite Hc, decide_True.
  - intros ls key value <-. unfold visitField, attached_comment in *. simpl.
    destruct (decide (NodeKind value ≠ SequenceNode)) as [|Hk]; [done|].
    apply dec_stable in Hk.
    unfold Elements. destruct (IsMissingOrNull value); [|rewrite decide_True by done];
      by rewrite Hc, decide_True.
Qed.

Lemma unmarked_field_is_skipped_witness :
  extractSetterPattern (str "# kpt-set:${x}") = []
  /\ (forall ls n path, LineComment n = str "# kpt-set:${x}" ->
        visitScalar ls (Some n) path = (ls, None))
  /\ (forall ls key value, attached_comment key value = str "# kpt-set:${x}" ->
        visitField (Some (mkMapNode (Some key) (Some value))) ls = (ls, None)).
Proof. apply (unmarked_field_is_skipped (str "# kpt-set:${x}")). left. reflexivity. Defined.

(** ** The registry *)

Lemma add_scalar_lookup (k v name : gostring) (m : gmap gostring ScalarSetter) :
  add_scalar k v m !! name
  = if decide (k = name)
    then Some (match m !! name with
               | Some s => incr_scalar s
               | None => mkScalarSetter name v 1
               end)
    else m !! name.
Proof.
  unfold add_scalar. case_decide as Hk.
  - subst. destruct (m !! name); by rewrite lookup_insert_eq.
  - destruct (m !! k); by rewrite lookup_insert_ne.
Qed.

Lemma add_array_lookup (k name : gostring) (vs : list gostring) (m : gmap gostring ArraySetter) :
  add_array k vs m !! name
  = if decide (k = name)
    then Some (match m !! name with
               | Some a => incr_array a
               | None => mkArraySetter name vs 1
               end)
    else m !! name.
Proof.
  unfold add_array. case_decide as Hk.
  - subst. destruct (m !! name); by rewrite lookup_insert_eq.
  - destruct (m !! k); by rewrite lookup_insert_ne.
Qed.

(** What the loop of [visitScalar] leaves under a name, whatever the order
    of the iteration. *)
Lemma range_add_scalar_lookup (bindings : gmap gostring gostring)
    (m : gmap gostring ScalarSetter) (name : gostring) :
  range_map add_scalar bindings m !! name
  = match bindings !! name with
    | Some v => Some (match m !! name with
                      | Some s => incr_scalar s
                      | None => mkScalarSetter name v 1
                      end)
    | None => m !! name
    end.
Proof.
  unfold range_map.
  apply (map_fold_weak_ind (fun r b =>
    r !! name = match b !! name with
                | Some v => Some (match m !! name with
                                  | Some s => incr_scalar s
                                  | None => mkScalarSetter name v 1
                                  end)
                | None => m !! name
                end)).
  - by rewrite lookup_empty.
  - intros i x b r Hi IH. rewrite add_scalar_lookup. case_decide as Hk.
    + subst. rewrite lookup_insert_eq. rewrite Hi in IH. by rewrite IH.
    + by rewrite lookup_insert_ne.
Qed.

Lemma foldl_as_foldr {A B} (f : A -> B -> A) (a : A) (l : list B) :
  foldl f a l = foldr (fun b a => f a b) a (reverse l).
Proof.
  revert a. induction l as [|x l IH]; intros a; simpl; [done|].
  rewrite reverse_cons, foldr_app. simpl. apply IH.
Qed.

(** A [range] loop whose turns commute runs to the same state in any order. *)
Lemma range_map_any_order {V S} (body : gostring -> V -> S -> S)
    (m : gmap gostring V) (st : S) (l : list (gostring * V)) :
  (forall k1 v1 k2 v2 s, k1 ≠ k2 ->
     body k1 v1 (body k2 v2 s) = body k2 v2 (body k1 v1 s)) ->
  l ≡ₚ map_to_list m ->
  foldl (fun s kv => body kv.1 kv.2 s) st l = range_map body m st.
Proof.
  intros Hcomm Hl. unfold range_map. rewrite map_fold_foldr.
  rewrite foldl_as_foldr.
  assert (reverse l ≡ₚ map_to_list m) as Hr by (by rewrite reverse_Permutation).
  assert (NoDup (reverse l).*1) as Hnd.
  { rewrite Hr. apply NoDup_fst_map_to_list. }
  revert Hr Hnd. generalize (reverse l), (map_to_list m). clear l Hl.
  intros l1 l2 Hp Hnd.
  transitivity (foldr (uncurry body) st l1).
  { clear. induction l1 as [|[k v] l1 IH]; simpl; [done|]. by rewrite IH. }
  apply (foldr_permutation (=) (uncurry body) st); [|done].
  intros j1 [k1 v1] j2 [k2 v2] b Hj H1 H2. simpl. apply Hcomm.
  intros ->. apply Hj. eapply NoDup_lookup; [exact Hnd| |].
  - by rewrite list_lookup_fmap, H1.
  - by rewrite list_lookup_fmap, H2.
Qed.

Lemma add_scalar_comm (k1 v1 k2 v2 : gostring) (m : gmap gostring ScalarSetter) :
  k1 ≠ k2 -> add_scalar k1 v1 (add_scalar k2 v2 m) = add_scalar k2 v2 (add_scalar k1 v1 m).
Proof.
  intros Hk. apply map_eq. intros name. rewrite !add_scalar_lookup.
  repeat case_decide; subst; try done; by rewrite add_scalar_lookup, decide_False.
Qed.

(** The loop of [visitScalar] does not depend on the order of the iteration. *)
Lemma visitScalar_any_order (bindings : gmap gostring gostring)
    (m : gmap gostring ScalarSetter) (l : list (gostring * gostring)) :
  l ≡ₚ map_to_list bindings ->
  foldl (fun s kv => add_scalar kv.1 kv.2 s) m l = range_map add_scalar bindings m.
Proof. apply range_map_any_order. intros. by apply add_scalar_comm. Qed.

Lemma visitScalar_lookup (ls : ListSetters) (n : Node) (path name : gostring) :
  ScalarSetters (visitScalar ls (Some n) path).1 !! name
  = if decide (NodeKind n = ScalarNode /\ extractSetterPattern (LineComment n) ≠ [])
    then match currentSetterValues (extractSetterPattern (LineComment n)) (Value n) !! name with
         | Some v => Some (match ScalarSetters ls !! name with
                           | Some s => incr_scalar s
                           | None => mkScalarSetter name v 1
                           end)
         | None => ScalarSetters ls !! name
         end
    else ScalarSetters ls !! name.
Proof.
  unfold visitScalar.
  destruct (decide (NodeKind n ≠ ScalarNode)) as [Hk|Hk].
  { rewrite decide_False; [done|]. by intros [? _]. }
  apply dec_stable in Hk.
  destruct (decide (extractSetterPattern (LineComment n) = [])) as [Hp|Hp].
  { rewrite decide_False; [done|]. by intros [_ ?]. }
  rewrite decide_True by done. simpl. apply range_add_scalar_lookup.
Qed.

Lemma visitScalar_arrays (ls : ListSetters) (object : RNode) (path : gostring) :
  ArraySetters (visitScalar ls object path).1 = ArraySetters ls.
Proof. unfold visitScalar. repeat case_match; done. Qed.

Lemma visitScalar_no_error (ls : ListSetters) (object : RNode) (path : gostring) :
  (visitScalar ls object path).2 = None.
Proof. unfold visitScalar. repeat case_match; done. Qed.

Lemma Elements_sequence (n : Node) :
  NodeKind n = SequenceNode -> Elements n = inr (Content n).
Proof. intros Hk. unfold Elements. destruct (IsMissingOrNull n); [done|]. by rewrite decide_True. Qed.

Lemma visitField_lookup (ls : ListSetters) (key value : Node) (name : gostring) :
  ArraySetters (visitField (Some (mkMapNode (Some key) (Some value))) ls).1 !! name
  = if decide (resolves_array key value name)
    then Some (match ArraySetters ls !! name with
               | Some a => incr_array a
               | None => mkArraySetter name (sort_Strings (Value <$> Content value)) 1
               end)
    else ArraySetters ls !! name.
Proof.
  unfold visitField, resolves_array, attached_comment. simpl.
  destruct (decide (NodeKind value ≠ SequenceNode)) as [Hk|Hk].
  { rewrite decide_False; [done|]. by intros [? _]. }
  apply dec_stable in Hk. rewrite Elements_sequence by done.
  set (c := if decide (Style value = FlowStyle) then LineComment value else LineComment key).
  destruct (decide (extractSetterPattern c = [])) as [Hp|Hp].
  { rewrite decide_False; [done|]. by intros (_ & ? & _). }
  simpl. rewrite add_array_lookup. case_decide as Hn.
  - by rewrite decide_True.
  - rewrite decide_False; [done|]. by intros (_ & _ & ?).
Qed.

Lemma visitField_scalars (node : option MapNode) (ls : ListSetters) :
  ScalarSetters (visitField node ls).1 = ScalarSetters ls.
Proof. unfold visitField. repeat case_match; done. Qed.

Lemma visitField_no_error (node : option MapNode) (ls : ListSetters) :
  (visitField node ls).2 = None.
Proof.
  unfold visitField. destruct node as [[[key|] [value|]]|]; simpl; try done.
  destruct (decide (NodeKind value ≠ SequenceNode)) as [Hk|Hk]; [done|].
  apply dec_stable in Hk. rewrite Elements_sequence by done.
  by case_decide.
Qed.

(** ** Seeding *)

Lemma replace_all_newline (s : gostring) :
  replace_all [newline] [] 0 s = filter (fun c => c ≠ newline) s.
Proof.
  induction s as [|c s IH]; [done|].
  cbn [replace_all]. destruct (decide (c = newline)) as [->|Hc].
  - rewrite bool_decide_eq_true_2 by (by exists s).
    rewrite filter_cons_False by (intros Hn; by apply Hn). exact IH.
  - rewrite bool_decide_eq_false_2.
    + rewrite filter_cons_True by done. by rewrite IH.
    + intros [r Hr]. simpl in Hr. by simplify_eq.
Qed.

Section seeding.
Context `{Collaborators}.

Lemma element_strings_inr (elems : list Node) (vs : list gostring) :
  element_strings elems = inr vs <->
  exists texts,
    Forall2 (fun elem text => RNode_String elem = inr text) elems texts
    /\ vs = filter (fun c => c ≠ newline) <$> texts.
Proof.
  revert vs. induction elems as [|elem elems IH]; intros vs; cbn [element_strings].
  - split.
    + intros [= <-]. by exists [].
    + intros (texts & Hf & ->). by apply Forall2_nil_inv_l in Hf as ->.
  - split.
    + destruct (RNode_String elem) as [e|text] eqn:Ht; [done|].
      destruct (element_strings elems) as [e|vs'] eqn:Hvs; [done|].
      intros [= <-]. destruct (proj1 (IH vs') eq_refl) as (texts & Hf & ->).
      exists (text :: texts). split; [by constructor|].
      by rewrite fmap_cons, replace_all_newline.
    + intros (texts & Hf & ->). apply Forall2_cons_inv_l in Hf as (text & texts' & Ht & Hf & ->).
      rewrite Ht. rewrite (proj2 (IH (filter (fun c => c ≠ newline) <$> texts'))).
      * rewrite fmap_cons. unfold ReplaceAll. by rewrite replace_all_newline.
      * by exists texts'.
Qed.

(** [getArraySetterValues] accepts the texts that read as a sequence or as a
    null node whose elements print, and returns the printed elements without
    their newlines. *)
Lemma getArraySetterValues_inr (sv : gostring) (vs : list gostring) :
  getArraySetterValues sv = inr vs <->
  exists rn texts,
    yaml_Parse sv = inr rn /\ (Tag rn = NullNodeTag \/ NodeKind rn = SequenceNode)
    /\ Forall2 (fun elem text => RNode_String elem = inr text) (Content rn) texts
    /\ vs = filter (fun c => c ≠ newline) <$> texts.
Proof.
  unfold getArraySetterValues, Elements, IsMissingOrNull. split.
  - destruct (yaml_Parse sv) as [e|rn]; [done|].
    case_bool_decide as Ht.
    + intros Hvs. apply element_strings_inr in Hvs as (texts & Hf & ->).
      exists rn, texts. by repeat split; [left|..].
    + case_decide as Hk; [|done]. intros Hvs.
      apply element_strings_inr in Hvs as (texts & Hf & ->).
      exists rn, texts. by repeat split; [right|..].
  - intros (rn & texts & -> & Hk & Hf & ->).
    assert (element_strings (Content rn) = inr (filter (fun c => c ≠ newline) <$> texts)) as He.
    { apply element_strings_inr. by exists texts. }
    case_bool_decide as Ht; [done|]. destruct Hk as [Hk|Hk]; [done|].
    by rewrite decide_True.
Qed.

Lemma reads_as_array_inr (sv : gostring) :
  reads_as_array sv <-> exists vs, getArraySetterValues sv = inr vs.
Proof.
  split.
  - intros (rn & Hp & Hk & Hf).
    assert (exists texts, Forall2 (fun elem text => RNode_String elem = inr text)
                            (Content rn) texts) as [texts Ht].
    { clear Hp Hk. induction Hf as [|elem elems [text Ht] _ [texts IH]].
      - by exists [].
      - exists (text :: texts). by constructor. }
    eexists. apply getArraySetterValues_inr. by exists rn, texts.
  - intros [vs Hvs]. apply getArraySetterValues_inr in Hvs as (rn & texts & Hp & Hk & Hf & _).
    exists rn. split; [done|]. split; [done|].
    clear Hp Hk. induction Hf as [|elem text elems texts Ht _ IH]; constructor; [by exists text|done].
Qed.

Lemma add_kptfile_setter_comm (k1 v1 k2 v2 : gostring) (ls : ListSetters) :
  k1 ≠ k2 ->
  add_kptfile_setter k1 v1 (add_kptfile_setter k2 v2 ls)
  = add_kptfile_setter k2 v2 (add_kptfile_setter k1 v1 ls).
Proof.
  intros Hk. unfold add_kptfile_setter, with_arrays, with_scalars.
  destruct (getArraySetterValues v1), (getArraySetterValues v2); simpl;
    f_equal; by apply insert_insert_ne.
Qed.

(** The loop of [addKptfileSetters] does not depend on the order of the
    iteration. *)
Lemma addKptfileSetters_any_order (ls : ListSetters) (s : gmap gostring gostring)
    (l : list (gostring * gostring)) :
  l ≡ₚ map_to_list s ->
  foldl (fun ls kv => add_kptfile_setter kv.1 kv.2 ls) ls l = addKptfileSetters ls s.
Proof. apply range_map_any_order. intros. by apply add_kptfile_setter_comm. Qed.

(** What seeding leaves under a name. *)
Lemma addKptfileSetters_lookup (ls : ListSetters) (s : gmap gostring gostring)
    (name : gostring) :
  let ls' := addKptfileSetters ls s in
  match s !! name with
  | Some v =>
    match getArraySetterValues v with
    | inr vs => ArraySetters ls' !! name = Some (mkArraySetter name vs 0)
                /\ ScalarSetters ls' !! name = ScalarSetters ls !! name
    | inl _ => ScalarSetters ls' !! name = Some (mkScalarSetter name v 0)
               /\ ArraySetters ls' !! name = ArraySetters ls !! name
    end
  | None => ScalarSetters ls' !! name = ScalarSetters ls !! name
            /\ ArraySetters ls' !! name = ArraySetters ls !! name
  end.
Proof.
  unfold addKptfileSetters, range_map.
  apply (map_fold_weak_ind (fun ls' s =>
    match s !! name with
    | Some v =>
      match getArraySetterValues v with
      | inr vs => ArraySetters ls' !! name = Some (mkArraySetter name vs 0)
                  /\ ScalarSetters ls' !! name = ScalarSetters ls !! name
      | inl _ => ScalarSetters ls' !! name = Some (mkScalarSetter name v 0)
                 /\ ArraySetters ls' !! name = ArraySetters ls !! name
      end
    | None => ScalarSetters ls' !! name = ScalarSetters ls !! name
              /\ ArraySetters ls' !! name = ArraySetters ls !! name
    end)).
  - by rewrite lookup_empty.
  - intros k v m r Hk IH. unfold add_kptfile_setter.
    destruct (decide (k = name)) as [->|Hne].
    + rewrite lookup_insert_eq. rewrite Hk in IH. destruct IH as [IH1 IH2].
      destruct (getArraySetterValues v); simpl; by rewrite lookup_insert_eq.
    + rewrite lookup_insert_ne by done.
      destruct (getArraySetterValues v); simpl; by rewrite lookup_insert_ne.
Qed.

Lemma addKptfileSetters_warnings (ls : ListSetters) (s : gmap gostring gostring) :
  Warnings (addKptfileSetters ls s) = Warnings ls.
Proof.
  unfold addKptfileSetters, range_map.
  apply (map_fold_weak_ind (fun ls' _ => Warnings ls' = Warnings ls)); [done|].
  intros k v m r _ IH. unfold add_kptfile_setter. by destruct (getArraySetterValues v).
Qed.

(** C3 (as the code has it): seeding a fresh registry puts every name of the
    manifest in exactly one mapping, with the count 0: in the array mapping,
    with the values [getArraySetterValues] returns, when the value reads as
    an array (a sequence, or a null node such as [~], whose elements print),
    and in the scalar mapping, with the text as it is, when it does not; a
    name the manifest does not declare is in neither.  After that the scalar
    visit changes the scalar mapping alone and the mapping visit the array
    mapping alone, neither looking at the other mapping. *)
Theorem seeding_classifies_each_name_once :
  (forall s name,
     let ls' := addKptfileSetters New s in
     match s !! name with
     | Some v =>
       (reads_as_array v
        /\ (exists vs, getArraySetterValues v = inr vs
              /\ ArraySetters ls' !! name = Some (mkArraySetter name vs 0))
        /\ ScalarSetters ls' !! name = None)
       \/ (¬ reads_as_array v
           /\ ScalarSetters ls' !! name = Some (mkScalarSetter name v 0)
           /\ ArraySetters ls' !! name = None)
     | None => ScalarSetters ls' !! name = None /\ ArraySetters ls' !! name = None
     end)
  /\ (forall ls object path, ArraySetters (visitScalar ls object path).1 = ArraySetters ls)
  /\ (forall ls node, ScalarSetters (visitField node ls).1 = ScalarSetters ls).
Proof.
  split; [|split; [apply visitScalar_arrays | intros; apply visitField_scalars]].
  intros s name ls'. pose proof (addKptfileSetters_lookup New s name) as Hl.
  cbv zeta in Hl. fold ls' in Hl. destruct (s !! name) as [v|]; [|done].
  destruct (getArraySetterValues v) as [e|vs] eqn:Hv.
  - right. destruct Hl as [Hs Ha]. split; [|done].
    intros Hr. apply reads_as_array_inr in Hr as [vs Hvs]. congruence.
  - left. destruct Hl as [Ha Hs]. split; [apply reads_as_array_inr; by exists vs|].
    split; [by exists vs|done].
Qed.
End seeding.

(** C3 as stated fails: after an empty seeding, a scalar field and a sequence
    field both marked [${x}] leave the name [x] in both mappings. *)
Lemma name_in_both_mappings :
  let ls0 := addKptfileSetters (H := reader) New ∅ in
  let ls1 := (visitScalar ls0 (Some (scalar (str "1") (str "# kpt-set: ${x}"))) []).1 in
  let ls2 := (visitField (Some (mkMapNode (Some (scalar (str "xs") (str "# kpt-set: ${x}")))
                                          (Some (sequence 0 [] [scalar (str "1") []])))) ls1).1 in
  ScalarSetters ls2 !! str "x" = Some (mkScalarSetter (str "x") (str "1") 1)
  /\ ArraySetters ls2 !! str "x" = Some (mkArraySetter (str "x") [str "1"] 1).
Proof. split; vm_compute; reflexivity. Qed.

(** ** The walk as a list of visits *)

Lemma Node_nested_ind (P : Node -> Prop) :
  (forall k tag st v c content, Forall P content -> P (mkNode k tag st v c content)) ->
  forall n, P n.
Proof.
  intros HP. fix IH 1. intros [k tag st v c content]. apply HP.
  induction content as [|x content IHc]; constructor; [apply IH | apply IHc].
Qed.

Lemma accept_unfold (object : Node) :
  accept object
  = let children := accept <$> Content object in
    match NodeKind object with
    | DocumentNode =>
      match children with
      | walk :: _ => walk
      | [] => fun ls => (ls, None)
      end
    | MappingNode => fun ls =>
      match visitMapping ls object [] with
      | (ls', Some e) => (ls', Some e)
      | (ls', None) => visit_each (fun kv => kv.2) (pairs children) ls'
      end
    | SequenceNode => fun ls => visit_each (fun walk => walk) children ls
    | ScalarNode => fun ls => visitScalar ls (Some object) []
    | AliasNode => fun ls => (ls, None)
    end.
Proof.
  destruct object as [k tag st v c content]. simpl.
  replace ((fix walks (l : list Node) : list (ListSetters -> ListSetters * option error) :=
       match l with
       | [] => []
       | c :: l' => accept c :: walks l'
       end) content) with (accept <$> content); [done|].
  induction content as [|x content IH]; [done|].
  rewrite fmap_cons, <- IH. reflexivity.
Qed.

Lemma trace_unfold (object : Node) :
  trace object
  = let children := trace <$> Content object in
    match NodeKind object with
    | DocumentNode =>
      match children with
      | t :: _ => t
      | [] => []
      end
    | MappingNode => (FieldVisit <$> visited_fields object) ++ concat ((pairs children).*2)
    | SequenceNode => concat children
    | ScalarNode => [ScalarVisit object]
    | AliasNode => []
    end.
Proof.
  destruct object as [k tag st v c content]. simpl.
  replace ((fix traces (l : list Node) : list (list visit) :=
       match l with
       | [] => []
       | c :: l' => trace c :: traces l'
       end) content) with (trace <$> content); [done|].
  induction content as [|x content IH]; [done|].
  rewrite fmap_cons, <- IH. reflexivity.
Qed.

Lemma well_formed_unfold (object : Node) :
  well_formed object
  = (if decide (NodeKind object = MappingNode) then Nat.even (length (Content object))
     else true)
    && forallb well_formed (Content object).
Proof.
  destruct object as [k tag st v c content]. cbn [well_formed NodeKind Content].
  replace ((fix all (l : list Node) : bool :=
              match l with
              | [] => true
              | c :: l' => well_formed c && all l'
              end) content) with (forallb well_formed content); [done|].
  induction content as [|x content IH]; [done|].
  cbn [forallb]. rewrite IH. reflexivity.
Qed.

Lemma visit_each_fmap {S A B} (fn : B -> S -> S * option error) (g : A -> B)
    (l : list A) (st : S) :
  visit_each fn (g <$> l) st = visit_each (fun x => fn (g x)) l st.
Proof.
  revert st. induction l as [|x l IH]; intros st; simpl; [done|].
  destruct (fn (g x) st) as [st' [e|]]; [done|]. apply IH.
Qed.

Lemma visit_each_total {S A} (fn : A -> S -> S * option error) (step : S -> A -> S)
    (l : list A) (st : S) :
  Forall (fun x => forall st, fn x st = (step st x, None)) l ->
  visit_each fn l st = (foldl step st l, None).
Proof.
  intros Hl. revert st. induction Hl as [|x l Hx _ IH]; intros st; simpl; [done|].
  by rewrite Hx, IH.
Qed.

Lemma visit_each_success {S A} (fn : A -> S -> S * option error) (step : S -> A -> S)
    (l : list A) (st st' : S) :
  Forall (fun x => forall s s', fn x s = (s', None) -> s' = step s x) l ->
  visit_each fn l st = (st', None) -> st' = foldl step st l.
Proof.
  intros Hl. revert st. induction Hl as [|x l Hx _ IH]; intros st; simpl.
  - by intros [= <-].
  - destruct (fn x st) as [st1 [e|]] eqn:Hfn; [done|].
    rewrite <- (Hx _ _ Hfn). apply IH.
Qed.

Lemma visit_each_no_error {S A} (fn : A -> S -> S * option error) (l : list A) (st : S) :
  Forall (fun x => forall s, (fn x s).2 = None) l -> (visit_each fn l st).2 = None.
Proof.
  intros Hl. revert st. induction Hl as [|x l Hx _ IH]; intros st; simpl; [done|].
  specialize (Hx st). destruct (fn x st) as [st1 e]. simpl in Hx. subst e. apply IH.
Qed.

Lemma visit_each_visits {A} (fn : A -> ListSetters -> ListSetters * option error)
    (l : list A) (ls : ListSetters) :
  Forall (fun x => forall s, exists vs, (fn x s).1 = foldl apply_visit s vs) l ->
  exists vs, (visit_each fn l ls).1 = foldl apply_visit ls vs.
Proof.
  intros Hl. revert ls. induction Hl as [|x l Hx _ IH]; intros ls; simpl; [by exists []|].
  destruct (Hx ls) as [vs Hvs]. destruct (fn x ls) as [ls1 [e|]]; simpl in *.
  - by exists vs.
  - destruct (IH ls1) as [vs' Hvs']. exists (vs ++ vs'). by rewrite foldl_app, <- Hvs.
Qed.

Lemma visitField_total (node : option MapNode) (ls : ListSetters) :
  visitField node ls = ((visitField node ls).1, None).
Proof.
  pose proof (visitField_no_error node ls) as He.
  destruct (visitField node ls) as [ls' e]. simpl in He. by subst.
Qed.

Lemma visitScalar_total (ls : ListSetters) (object : RNode) (path : gostring) :
  visitScalar ls object path = ((visitScalar ls object path).1, None).
Proof.
  pose proof (visitScalar_no_error ls object path) as He.
  destruct (visitScalar ls object path) as [ls' e]. simpl in He. by subst.
Qed.

(** The mapping visit fails on the fields it cannot list, before any field
    is visited, and else is the run of the visits of its fields. *)
Lemma visitMapping_trace (ls : ListSetters) (object : Node) (path : gostring) :
  visitMapping ls object path
  = match Fields object with
    | inl e => (ls, Some (Wrap e))
    | inr _ => (foldl apply_visit ls (FieldVisit <$> visited_fields object), None)
    end.
Proof.
  unfold visitMapping, VisitFields, visited_fields.
  destruct (Fields object) as [e|names]; [done|].
  rewrite (visit_each_total _ (fun ls name => (visitField (Field object name) ls).1)).
  - f_equal. by rewrite !foldl_fmap.
  - apply Forall_forall. intros name _ st. apply visitField_total.
Qed.

Lemma pairs_ind {A} (P : list A -> Prop) :
  P [] -> (forall x, P [x]) -> (forall k v l, P l -> P (k :: v :: l)) -> forall l, P l.
Proof.
  intros Hnil Hone Hcons. fix IH 1. intros [|k [|v l]]; [done..|].
  apply Hcons, IH.
Qed.

Lemma pairs_fmap {A B} (f : A -> B) (l : list A) :
  pairs (f <$> l) = (fun kv => (f kv.1, f kv.2)) <$> pairs l.
Proof.
  induction l as [|x|k v l IH] using pairs_ind; [done..|].
  rewrite !fmap_cons. cbn [pairs]. by rewrite fmap_cons, IH.
Qed.

Lemma pairs_elem {A} (l : list A) (kv : A * A) : kv ∈ pairs l -> kv.1 ∈ l /\ kv.2 ∈ l.
Proof.
  induction l as [|x|k v l IH] using pairs_ind; simpl; intros Hin.
  - by apply elem_of_nil in Hin.
  - by apply elem_of_nil in Hin.
  - apply elem_of_cons in Hin as [->|Hin]; simpl.
    + split; [left | right; left].
    + apply IH in Hin as [? ?]. split; by do 2 right.
Qed.

Lemma Forall_pairs_snd {A} (P : A -> Prop) (l : list A) :
  Forall P l -> Forall (fun kv => P kv.2) (pairs l).
Proof.
  intros Hl. apply Forall_forall. intros kv Hkv. apply pairs_elem in Hkv as [_ Hkv].
  rewrite Forall_forall in Hl. by apply Hl.
Qed.

Lemma foldl_concat {A B} (f : A -> B -> A) (a : A) (ls : list (list B)) :
  foldl f a (concat ls) = foldl (foldl f) a ls.
Proof.
  revert a. induction ls as [|l ls IH]; intros a; simpl; [done|].
  by rewrite foldl_app, IH.
Qed.

(** A walk that ends without error is the run of its visits. *)
Lemma accept_success (object : Node) (ls ls' : ListSetters) :
  accept object ls = (ls', None) -> ls' = foldl apply_visit ls (trace object).
Proof.
  revert ls ls'. induction object as [k tag st v c content IH] using Node_nested_ind.
  intros ls ls'. rewrite accept_unfold, trace_unfold. cbv zeta. cbn [NodeKind Content].
  destruct k.
  - destruct IH as [|x content Hx _]; simpl; [by intros [= <-]|]. apply Hx.
  - rewrite visit_each_fmap. intros Hv.
    apply (visit_each_success _ (fun ls n => foldl apply_visit ls (trace n))) in Hv.
    + by rewrite Hv, foldl_concat, foldl_fmap.
    + exact IH.
  - rewrite visitMapping_trace.
    destruct (Fields (mkNode MappingNode tag st v c content)); [by intros [=]|].
    rewrite foldl_app. set (ls1 := foldl apply_visit ls _).
    rewrite !pairs_fmap, visit_each_fmap. intros Hv.
    apply (visit_each_success _ (fun ls kv => foldl apply_visit ls (trace kv.2))) in Hv.
    + by rewrite Hv, foldl_concat, <- list_fmap_compose, !foldl_fmap.
    + apply (Forall_pairs_snd (fun n => forall s s', accept n s = (s', None) ->
                                 s' = foldl apply_visit s (trace n))). exact IH.
  - rewrite visitScalar_total. by intros [= <-].
  - by intros [= <-].
Qed.

(** The walk of a well-formed tree does not fail. *)
Lemma accept_well_formed (object : Node) (ls : ListSetters) :
  well_formed object = true -> (accept object ls).2 = None.
Proof.
  revert ls. induction object as [k tag st v c content IH] using Node_nested_ind.
  intros ls. rewrite accept_unfold, well_formed_unfold. cbv zeta. cbn [NodeKind Content].
  intros [Hk Hc]%andb_true_iff.
  assert (Forall (fun n => forall s, (accept n s).2 = None) content) as Hall.
  { apply Forall_forall. intros x Hx s. rewrite Forall_forall in IH. apply IH; [done|].
    rewrite forallb_forall in Hc. apply Hc. by apply list_elem_of_In. }
  destruct k.
  - destruct Hall as [|x content Hx _]; simpl; [done|]. apply Hx.
  - rewrite visit_each_fmap. by apply visit_each_no_error.
  - rewrite visitMapping_trace. unfold Fields. cbn [NodeKind Content].
    rewrite decide_True in Hk by done. rewrite decide_True by done. rewrite Hk.
    rewrite !pairs_fmap, visit_each_fmap. apply visit_each_no_error.
    by apply (Forall_pairs_snd (fun n => forall s, (accept n s).2 = None)).
  - apply visitScalar_no_error.
  - done.
Qed.

(** Whether it fails or not, a walk leaves the registry a run of visits leaves. *)
Lemma accept_visits (object : Node) (ls : ListSetters) :
  exists vs, (accept object ls).1 = foldl apply_visit ls vs.
Proof.
  revert ls. induction object as [k tag st v c content IH] using Node_nested_ind.
  intros ls. rewrite accept_unfold. cbv zeta. cbn [NodeKind Content]. destruct k.
  - destruct IH as [|x content Hx _]; simpl; [by exists []|]. apply Hx.
  - rewrite visit_each_fmap. by apply visit_each_visits.
  - rewrite visitMapping_trace. destruct (Fields _); [by exists []|].
    set (vs0 := FieldVisit <$> _).
    rewrite !pairs_fmap, visit_each_fmap.
    destruct (visit_each_visits (fun kv : Node * Node => accept kv.2) (pairs content)
                (foldl apply_visit ls vs0)) as [vs Hvs].
    { by apply (Forall_pairs_snd (fun n => forall s, exists vs, (accept n s).1 = foldl apply_visit s vs)). }
    exists (vs0 ++ vs). by rewrite foldl_app, <- Hvs.
  - by exists [ScalarVisit (mkNode ScalarNode tag st v c content)].
  - by exists [].
Qed.

(** The walk of a well-formed tree is the run of its visits. *)
Lemma accept_trace (object : Node) (ls : ListSetters) :
  well_formed object = true ->
  accept object ls = (foldl apply_visit ls (trace object), None).
Proof.
  intros Hwf. pose proof (accept_well_formed object ls Hwf) as He.
  destruct (accept object ls) as [ls' e] eqn:Ha. simpl in He. subst e.
  by rewrite (accept_success _ _ _ Ha).
Qed.

(** ** The pass *)

Section pass.
Context `{Collaborators}.

Lemma FindKptfile_missing (nodes : list Node) :
  Forall (fun n => PathAnnotation n ≠ KptFileName) nodes ->
  exists w, FindKptfile nodes = inl (DiscoveryError w).
Proof.
  induction 1 as [|n nodes Hn _ IH]; simpl; [by eexists|].
  by rewrite decide_False.
Qed.

Lemma findSetterNode_missing (nodes : list Node) (path : gostring) :
  Forall (fun n => PathAnnotation n ≠ path) nodes ->
  exists msg, findSetterNode nodes path = inl (Errorf msg).
Proof.
  induction 1 as [|n nodes Hn _ IH]; simpl; [by eexists|].
  by rewrite decide_False.
Qed.

Lemma find_apply_setters_none (nodes : list Node) (mutators : list Function) :
  Forall (fun f => applies_setters f = false) mutators ->
  exists w, find_apply_setters nodes mutators = inl (DiscoveryError w).
Proof.
  induction 1 as [|fn ms Hfn _ IH]; cbn [find_apply_setters]; [by eexists|].
  unfold applies_setters in Hfn. by rewrite Hfn.
Qed.

Lemma find_apply_setters_first (nodes : list Node) (mutators : list Function)
    (fn : Function) :
  first_apply_setters mutators fn ->
  find_apply_setters nodes mutators
  = match ConfigMap fn with
    | Some configMap => inr configMap
    | None =>
      if decide (ConfigPath fn ≠ []) then
        match findSetterNode nodes (ConfigPath fn) with
        | inl err => inl err
        | inr settersConfig => inr (GetDataMap settersConfig)
        end
      else
        inl (DiscoveryError (mkErrSetterDiscovery
          (str "unable to find ConfigMap or ConfigPath fnConfig for apply-setters")))
    end.
Proof.
  intros (before & after & -> & Hb & Hfn).
  induction Hb as [|f before Hf _ IH]; cbn [find_apply_setters app].
  - unfold applies_setters in Hfn. by rewrite Hfn.
  - unfold applies_setters in Hf. by rewrite Hf.
Qed.

Lemma manifest_failure_warning (nodes : list Node) :
  manifest_failure nodes ->
  exists w, FindSettersFromKptfile nodes = inl (DiscoveryError w).
Proof.
  unfold FindSettersFromKptfile.
  intros [Hm|(kf & -> & [-> |(p & -> & [Hn|(fn & Hfn & Hmap & Hpath)])])].
  - apply FindKptfile_missing in Hm as [w ->]. by eexists.
  - by eexists.
  - by apply find_apply_setters_none.
  - rewrite (find_apply_setters_first _ _ fn) by done. rewrite Hmap, Hpath.
    rewrite decide_False by (by intros ?). by eexists.
Qed.

Lemma apply_visit_warnings (ls : ListSetters) (v : visit) :
  Warnings (apply_visit ls v) = Warnings ls.
Proof.
  destruct v as [n|node]; simpl.
  - unfold visitScalar. repeat case_match; done.
  - unfold visitField. repeat case_match; done.
Qed.

Lemma foldl_apply_visit_warnings (ls : ListSetters) (vs : list visit) :
  Warnings (foldl apply_visit ls vs) = Warnings ls.
Proof.
  revert ls. induction vs as [|v vs IH]; intros ls; simpl; [done|].
  by rewrite IH, apply_visit_warnings.
Qed.

Lemma walk_document_warnings (ls : ListSetters) (node : Node) :
  Warnings (walk_document ls node) = Warnings ls.
Proof.
  unfold walk_document. destruct (GetFileAnnotations node) as [|[path i]]; [done|].
  by rewrite foldl_apply_visit_warnings.
Qed.

Lemma foldl_walk_document_warnings (ls : ListSetters) (nodes : list Node) :
  Warnings (foldl walk_document ls nodes) = Warnings ls.
Proof.
  revert ls. induction nodes as [|n nodes IH]; intros ls; simpl; [done|].
  by rewrite IH, walk_document_warnings.
Qed.

Lemma discover_readable (all nodes : list Node) (ls : ListSetters) :
  Forall readable nodes -> Forall (fun n => well_formed n = true) nodes ->
  discover all ls nodes = (foldl walk_document ls nodes, Some all, None).
Proof.
  intros Hr. revert ls. induction Hr as [|n nodes [[path i] Hn] _ IH]; intros ls Hwf; simpl.
  - done.
  - apply Forall_cons in Hwf as [Hw Hwf].
    unfold walk_document at 2. rewrite Hn, accept_trace by done. by apply IH.
Qed.

(** C6: the failures of the manifest become a warning added to the list,
    after which the documents are walked as without a manifest, and the pass
    returns them when their annotations can be read and their trees are well
    formed; a configuration file that is not among the documents ends the
    pass at once with an error that is no warning. *)
Theorem manifest_failures_warn_missing_file_aborts (ls : ListSetters) (nodes : list Node) :
  (manifest_failure nodes ->
   exists w,
     FindSettersFromKptfile nodes = inl (DiscoveryError w)
     /\ Filter ls nodes = discover nodes (with_warning ls w) nodes
     /\ (Forall readable nodes -> Forall (fun n => well_formed n = true) nodes ->
         exists ls',
           Filter ls nodes = (ls', Some nodes, None)
           /\ ls' = foldl walk_document (with_warning ls w) nodes
           /\ Warnings ls' = Warnings ls ++ [w]))
  /\ (forall path,
        missing_config_file nodes path ->
        exists msg, Filter ls nodes = (ls, Some nodes, Some (Errorf msg))).
Proof.
  split.
  - intros Hf. apply manifest_failure_warning in Hf as [w Hw]. exists w.
    split; [done|]. unfold Filter. rewrite Hw. simpl. split; [done|].
    intros Hr Hwf. eexists. rewrite discover_readable by done. split; [done|]. split; [done|].
    by rewrite foldl_walk_document_warnings.
  - intros path (kf & p & fn & Hkf & Hp & Hfn & Hmap & Hpath & Hne & Hmiss).
    apply findSetterNode_missing in Hmiss as [msg Hmsg]. exists msg.
    unfold Filter, FindSettersFromKptfile. rewrite Hkf, Hp.
    rewrite (find_apply_setters_first _ _ fn) by done. rewrite Hmap, Hpath.
    rewrite decide_True by done. by rewrite Hmsg.
Qed.
End pass.

Lemma manifest_failures_warn_missing_file_aborts_witness :
  (exists w ls',
     FindSettersFromKptfile (H := reader) [deployment] = inl (DiscoveryError w)
     /\ Filter (H := reader) New [deployment] = (ls', Some [deployment], None)
     /\ Warnings ls' = [w])
  /\ (exists msg,
        Filter (H := reader) New [kptfile_path "setters.yaml"; deployment]
        = (New, Some [kptfile_path "setters.yaml"; deployment], Some (Errorf msg))).
Proof.
  split.
  - destruct (proj1 (manifest_failures_warn_missing_file_aborts (H := reader) New [deployment]))
      as (w & Hw & _ & Hret).
    { left. repeat constructor. vm_compute. discriminate. }
    destruct Hret as (ls' & Hf & _ & Hws).
    { repeat constructor. by eexists. }
    { repeat constructor. }
    by exists w, ls'.
  - apply (proj2 (manifest_failures_warn_missing_file_aborts (H := reader) New
                    [kptfile_path "setters.yaml"; deployment]) (str "setters.yaml")).
    eexists _, _, _. split; [vm_compute; reflexivity|]. split; [reflexivity|].
    split; [exists [], []; split; [reflexivity|]; split; [constructor | vm_compute; reflexivity]|].
    split; [reflexivity|]. split; [vm_compute; reflexivity|]. split; [discriminate|].
    repeat constructor; vm_compute; discriminate.
Defined.

(** ** Array setters and the fields that carry them *)

Lemma apply_visit_arrays (ls : ListSetters) (v : visit) :
  ArraySetters (apply_visit ls v) = array_step (ArraySetters ls) v.
Proof.
  destruct v as [n|[[[key|] [value|]]|]]; simpl; try done.
  - apply visitScalar_arrays.
  - unfold visitField, attached_comment. simpl.
    set (c := if decide (Style value = FlowStyle) then LineComment value else LineComment key).
    destruct (decide (NodeKind value ≠ SequenceNode)) as [Hk|Hk].
    { rewrite decide_False; [done|]. by intros [? _]. }
    apply dec_stable in Hk. rewrite Elements_sequence by done.
    destruct (decide (extractSetterPattern c = [])) as [Hp|Hp].
    + rewrite decide_False; [done|]. by intros [_ ?].
    + by rewrite decide_True by (by split).
Qed.

Lemma foldl_apply_visit_arrays (ls : ListSetters) (vs : list visit) :
  ArraySetters (foldl apply_visit ls vs) = foldl array_step (ArraySetters ls) vs.
Proof.
  revert ls. induction vs as [|v vs IH]; intros ls; simpl; [done|].
  by rewrite IH, apply_visit_arrays.
Qed.

Lemma array_step_lookup (m : gmap gostring ArraySetter) (v : visit) (name : gostring) :
  array_step m v !! name
  = if decide (carries name v)
    then Some (match m !! name with
               | Some a => incr_array a
               | None => mkArraySetter name (carried_values v) 1
               end)
    else m !! name.
Proof.
  destruct v as [n|[[[key|] [value|]]|]]; simpl; try done.
  unfold resolves_array. case_decide as Hr.
  - rewrite add_array_lookup. case_decide as Hn.
    + by rewrite decide_True by tauto.
    + by rewrite decide_False by tauto.
  - by rewrite decide_False by tauto.
Qed.

Lemma wrap_int_plus (z k : Z) : wrap_int (wrap_int z + k) = wrap_int (z + k).
Proof.
  unfold wrap_int.
  replace ((z + 2 ^ 63) `mod` 2 ^ 64 - 2 ^ 63 + k + 2 ^ 63)%Z
    with ((z + 2 ^ 63) `mod` 2 ^ 64 + k)%Z by lia.
  replace (z + k + 2 ^ 63)%Z with (z + 2 ^ 63 + k)%Z by lia.
  by rewrite Zplus_mod_idemp_l.
Qed.

Lemma wrap_int_idemp (z : Z) : wrap_int (wrap_int z) = wrap_int z.
Proof.
  transitivity (wrap_int (wrap_int z + 0)); [by rewrite Z.add_0_r|].
  by rewrite wrap_int_plus, Z.add_0_r.
Qed.

Lemma wrap_int_small (z : Z) : (- 2 ^ 63 <= z < 2 ^ 63)%Z -> wrap_int z = z.
Proof. intros Hz. unfold wrap_int. rewrite Z.mod_small; lia. Qed.

(** The array setter a run of visits leaves under [name]: the count grows by
    the number of visits that carry the name, the values are those of the
    setter already there, else of the first such visit. *)
Lemma foldl_array_step_lookup (vs : list visit) (m : gmap gostring ArraySetter)
    (name : gostring) :
  foldl array_step m vs !! name
  = match filter (carries name) vs with
    | [] => m !! name
    | v :: rest =>
      Some (match m !! name with
            | Some a =>
              mkArraySetter (AName a) (AValues a)
                (wrap_int (ACount a + Z.of_nat (length (v :: rest))))
            | None =>
              mkArraySetter name (carried_values v) (wrap_int (Z.of_nat (length (v :: rest))))
            end)
    end.
Proof.
  revert m. induction vs as [|v vs IH]; intros m; [done|].
  cbn [foldl]. rewrite IH. rewrite filter_cons. rewrite array_step_lookup.
  destruct (decide (carries name v)) as [Hc|Hc]; [|done].
  destruct (filter (carries name) vs) as [|v' rest].
  - by destruct (m !! name).
  - f_equal. destruct (m !! name) as [a|]; cbn [incr_array AName AValues ACount].
    + f_equal. rewrite !length_cons, !Nat2Z.inj_succ.
      rewrite <- (wrap_int_plus (wrap_int (ACount a + 1))), wrap_int_idemp, wrap_int_plus.
      f_equal. lia.
    + f_equal. rewrite !length_cons, !Nat2Z.inj_succ. f_equal. lia.
Qed.

Lemma apply_visit_keeps_scalar (ls : ListSetters) (v : visit) (name : gostring)
    (s : ScalarSetter) :
  ScalarSetters ls !! name = Some s ->
  exists s', ScalarSetters (apply_visit ls v) !! name = Some s'
    /\ SName s' = SName s /\ SValue s' = SValue s.
Proof.
  intros Hs. destruct v as [n|node]; cbn [apply_visit].
  - rewrite visitScalar_lookup, Hs. case_decide; [|by exists s].
    destruct (currentSetterValues _ _ !! name); [by eexists|by exists s].
  - rewrite visitField_scalars. by exists s.
Qed.

Lemma apply_visit_keeps_array (ls : ListSetters) (v : visit) (name : gostring)
    (a : ArraySetter) :
  ArraySetters ls !! name = Some a ->
  exists a', ArraySetters (apply_visit ls v) !! name = Some a'
    /\ AName a' = AName a /\ AValues a' = AValues a.
Proof.
  intros Ha. rewrite apply_visit_arrays, array_step_lookup, Ha.
  case_decide; [by eexists|by exists a].
Qed.

(** C4: a visit that resolves to a name the registry already holds, in the
    mapping where it holds it, adds one to the count and keeps the name and
    the stored value; and no run of visits, resolving or not, changes the
    name or the value stored under a name. *)
Theorem first_value_is_kept (ls : ListSetters) (name : gostring) :
  (forall s n path,
     ScalarSetters ls !! name = Some s -> resolves_scalar n name ->
     ScalarSetters (visitScalar ls (Some n) path).1 !! name
     = Some (mkScalarSetter (SName s) (SValue s) (wrap_int (SCount s + 1))))
  /\ (forall a key value,
        ArraySetters ls !! name = Some a -> resolves_array key value name ->
        ArraySetters (visitField (Some (mkMapNode (Some key) (Some value))) ls).1 !! name
        = Some (mkArraySetter (AName a) (AValues a) (wrap_int (ACount a + 1))))
  /\ (forall s vs,
        ScalarSetters ls !! name = Some s ->
        exists s', ScalarSetters (foldl apply_visit ls vs) !! name = Some s'
          /\ SName s' = SName s /\ SValue s' = SValue s)
  /\ (forall a vs,
        ArraySetters ls !! name = Some a ->
        exists a', ArraySetters (foldl apply_visit ls vs) !! name = Some a'
          /\ AName a' = AName a /\ AValues a' = AValues a).
Proof.
  split; [|split; [|split]].
  - intros s n path Hs (Hk & Hp & v & Hv).
    by rewrite visitScalar_lookup, decide_True, Hv, Hs.
  - intros a key value Ha Hr.
    by rewrite visitField_lookup, decide_True, Ha.
  - intros s vs. revert ls s. induction vs as [|v vs IH]; intros ls s Hs; [by exists s|].
    destruct (apply_visit_keeps_scalar ls v name s Hs) as (s1 & Hs1 & Hn1 & Hv1).
    destruct (IH _ _ Hs1) as (s' & Hs' & Hn' & Hv'). exists s'. cbn [foldl].
    split; [done|]. split; congruence.
  - intros a vs. revert ls a. induction vs as [|v vs IH]; intros ls a Ha; [by exists a|].
    destruct (apply_visit_keeps_array ls v name a Ha) as (a1 & Ha1 & Hn1 & Hv1).
    destruct (IH _ _ Ha1) as (a' & Ha' & Hn' & Hv'). exists a'. cbn [foldl].
    split; [done|]. split; congruence.
Qed.

Lemma first_value_is_kept_witness :
  let ls := mkListSetters {[ str "replicas" := mkScalarSetter (str "replicas") (str "3") 1 ]}
              {[ str "list" := mkArraySetter (str "list") [str "a"; str "b"] 1 ]} [] [] in
  ScalarSetters (visitScalar ls (Some (scalar (str "5") (str "# kpt-set: ${replicas}"))) []).1
    !! str "replicas" = Some (mkScalarSetter (str "replicas") (str "3") 2)
  /\ ArraySetters (visitField (Some (mkMapNode
         (Some (scalar (str "args") (str "# kpt-set: ${list}")))
         (Some (sequence 0 [] [scalar (str "z") []])))) ls).1
    !! str "list" = Some (mkArraySetter (str "list") [str "a"; str "b"] 2)
  /\ (exists s', ScalarSetters (foldl apply_visit ls (trace deployment)) !! str "replicas"
                 = Some s' /\ SValue s' = str "3")
  /\ (exists a', ArraySetters (foldl apply_visit ls (trace deployment)) !! str "list"
                 = Some a' /\ AValues a' = [str "a"; str "b"]).
Proof.
  intros ls. split; [|split; [|split]].
  - apply (proj1 (first_value_is_kept ls (str "replicas"))
             (mkScalarSetter (str "replicas") (str "3") 1)).
    + vm_compute. reflexivity.
    + split; [reflexivity|]. split; [vm_compute; discriminate|].
      exists (str "5"). vm_compute. reflexivity.
  - apply (proj1 (proj2 (first_value_is_kept ls (str "list")))
             (mkArraySetter (str "list") [str "a"; str "b"] 1)).
    + vm_compute. reflexivity.
    + split; [reflexivity|]. split; [vm_compute; discriminate|]. vm_compute. reflexivity.
  - destruct (proj1 (proj2 (proj2 (first_value_is_kept ls (str "replicas"))))
                (mkScalarSetter (str "replicas") (str "3") 1) (trace deployment))
      as (s' & Hs' & _ & Hv'); [vm_compute; reflexivity|].
    exists s'. split; [exact Hs'|exact Hv'].
  - destruct (proj2 (proj2 (proj2 (first_value_is_kept ls (str "list"))))
                (mkArraySetter (str "list") [str "a"; str "b"] 1) (trace deployment))
      as (a' & Ha' & _ & Hv'); [vm_compute; reflexivity|].
    exists a'. split; [exact Ha'|exact Hv'].
Defined.

(** ** Sorting *)

Section sorting.
Context {A : Type} (less : A -> A -> bool).
Hypothesis less_asym : forall a b, less a b = true -> less b a = false.

Lemma insert_sorted_Permutation (x : A) (l : list A) : insert_sorted less x l ≡ₚ x :: l.
Proof.
  induction l as [|y l IH]; simpl; [done|].
  destruct (less y x); [|done]. rewrite IH. apply Permutation_swap.
Qed.

Lemma SliceStable_Permutation (l : list A) : SliceStable less l ≡ₚ l.
Proof.
  induction l as [|x l IH]; simpl; [done|].
  by rewrite insert_sorted_Permutation, IH.
Qed.

Lemma insert_sorted_Sorted (x : A) (l : list A) :
  Sorted (not_after less) l -> Sorted (not_after less) (insert_sorted less x l).
Proof.
  induction 1 as [|y l Hl IH Hy]; simpl.
  - repeat constructor.
  - destruct (less y x) eqn:Hyx.
    + constructor; [done|]. destruct Hy as [|z l Hz]; simpl.
      * constructor. by apply less_asym.
      * destruct (less z x); constructor; [done|]. by apply less_asym.
    + constructor; [by constructor|]. by constructor.
Qed.

Lemma SliceStable_Sorted (l : list A) : Sorted (not_after less) (SliceStable less l).
Proof.
  induction l as [|x l IH]; simpl; [constructor|]. by apply insert_sorted_Sorted.
Qed.
End sorting.

Lemma str_lt_asym (a b : gostring) : str_lt a b = true -> str_lt b a = false.
Proof.
  revert b. induction a as [|x a IH]; intros [|y b]; simpl; try done.
  intros Hab. apply orb_true_iff in Hab as [Hlt|Hab].
  - apply Nat.ltb_lt in Hlt. apply orb_false_iff. split.
    + apply Nat.ltb_ge. lia.
    + apply andb_false_iff. left. apply Nat.eqb_neq. lia.
  - apply andb_true_iff in Hab as [Heq Hab]. apply Nat.eqb_eq in Heq.
    apply orb_false_iff. split.
    + apply Nat.ltb_ge. lia.
    + apply andb_false_iff. right. by apply IH.
Qed.

(** [sort.Strings] returns its argument rearranged in ascending order. *)
Lemma sort_Strings_sorted (l : list gostring) :
  sort_Strings l ≡ₚ l /\ Sorted (not_after str_lt) (sort_Strings l).
Proof.
  split; [apply SliceStable_Permutation | apply SliceStable_Sorted, str_lt_asym].
Qed.

(** ** The fields of a document and the visits of its walk *)

Lemma fields_unfold (object : Node) :
  fields object
  = let children := fields <$> Content object in
    match NodeKind object with
    | DocumentNode =>
      match children with
      | f :: _ => f
      | [] => []
      end
    | MappingNode => pairs (Content object) ++ concat ((pairs children).*2)
    | SequenceNode => concat children
    | ScalarNode => []
    | AliasNode => []
    end.
Proof.
  destruct object as [k tag st v c content]. simpl.
  replace ((fix all (l : list Node) : list (list (Node * Node)) :=
       match l with
       | [] => []
       | c :: l' => fields c :: all l'
       end) content) with (fields <$> content); [done|].
  induction content as [|x content IH]; [done|].
  rewrite fmap_cons, <- IH. reflexivity.
Qed.

Lemma distinct_keys_unfold (object : Node) :
  distinct_keys object
  = (if decide (NodeKind object = MappingNode)
     then bool_decide (NoDup ((fun kv => Value kv.1) <$> pairs (Content object)))
     else true)
    && forallb distinct_keys (Content object).
Proof.
  destruct object as [k tag st v c content]. cbn [distinct_keys NodeKind Content].
  replace ((fix all (l : list Node) : bool :=
              match l with
              | [] => true
              | c :: l' => distinct_keys c && all l'
              end) content) with (forallb distinct_keys content); [done|].
  induction content as [|x content IH]; [done|].
  cbn [forallb]. rewrite IH. reflexivity.
Qed.

(** Among fields of distinct names, the first field of a name is the field
    of that name. *)
Lemma find_distinct {A K} `{EqDecision K} (f : A -> K) (l : list A) (x : A) :
  NoDup (f <$> l) -> x ∈ l -> find (fun y => bool_decide (f y = f x)) l = Some x.
Proof.
  induction l as [|y l IH]; intros Hnd Hx; [by apply elem_of_nil in Hx|].
  rewrite fmap_cons in Hnd. apply NoDup_cons in Hnd as [Hy Hnd]. cbn [find].
  apply elem_of_cons in Hx as [->|Hx].
  - by rewrite bool_decide_eq_true_2.
  - rewrite bool_decide_eq_false_2; [by apply IH|].
    intros Heq. apply Hy. rewrite Heq. by apply list_elem_of_fmap_2.
Qed.

(** The mapping visit of a mapping with distinct names takes its fields one
    by one. *)
Lemma visited_fields_distinct (n : Node) :
  NodeKind n = MappingNode -> Nat.even (length (Content n)) = true ->
  NoDup ((fun kv => Value kv.1) <$> pairs (Content n)) ->
  FieldVisit <$> visited_fields n = field_visit <$> pairs (Content n).
Proof.
  intros Hk He Hnd. unfold visited_fields, Fields. rewrite decide_True by done. rewrite He.
  rewrite <- !list_fmap_compose. apply list_fmap_ext. intros i kv Hkv. simpl.
  unfold Field, field_visit.
  rewrite (find_distinct (fun kv => Value kv.1) _ kv); [done|done|].
  by eapply list_elem_of_lookup_2.
Qed.

Lemma filter_fmap_iff {A B} (f : A -> B) (P : B -> Prop) (Q : A -> Prop)
    `{forall x, Decision (P x)} `{forall x, Decision (Q x)} (l : list A) :
  (forall x, P (f x) <-> Q x) -> filter P (f <$> l) = f <$> filter Q l.
Proof.
  intros HPQ. induction l as [|x l IH]; [done|].
  rewrite fmap_cons. destruct (decide (Q x)) as [HQ|HQ].
  - rewrite !filter_cons_True by (done || by apply HPQ). by rewrite fmap_cons, IH.
  - rewrite !filter_cons_False by (done || by rewrite HPQ). exact IH.
Qed.

Lemma visit_each_inv {S A} (fn : A -> S -> S * option error) (l : list A) (st st' : S) :
  visit_each fn l st = (st', None) ->
  Forall (fun x => exists s s', fn x s = (s', None)) l.
Proof.
  revert st. induction l as [|x l IH]; intros st; simpl; [constructor|].
  destruct (fn x st) as [st1 [e|]] eqn:Hfn; [done|].
  intros Hl. constructor; [by eauto|by eapply IH].
Qed.

(** In a tree the walk succeeds on, and whose mappings have fields of
    distinct names, the visits that carry a name are the visits of the
    fields that carry it, in the same order. *)
Lemma carrying_visits_of_a_tree (object : Node) (name : gostring) :
  walks object -> distinct_keys object = true ->
  filter (carries name) (trace object)
  = field_visit <$> filter (fun kv => resolves_array kv.1 kv.2 name) (fields object).
Proof.
  induction object as [k tag st v c content IH] using Node_nested_ind.
  unfold walks. rewrite accept_unfold, distinct_keys_unfold, trace_unfold, fields_unfold.
  cbv zeta. cbn [NodeKind Content].
  intros (ls & ls' & Hacc) [Hd Hdk]%andb_true_iff.
  assert (forall l : list Node,
            Forall (fun n => walks n) l -> (forall n, n ∈ l -> n ∈ content) ->
            filter (carries name) (concat (trace <$> l))
            = field_visit <$> filter (fun kv => resolves_array kv.1 kv.2 name)
                                (concat (fields <$> l))) as Hconcat.
  { intros l Hl Hin. induction Hl as [|x l Hx _ IHl]; [done|].
    rewrite !fmap_cons, !concat_cons, !filter_app, fmap_app.
    rewrite IHl by (intros n Hn; apply Hin; by right). f_equal.
    rewrite Forall_forall in IH. rewrite forallb_forall in Hdk.
    apply IH; [apply Hin; left|done|]. apply Hdk, list_elem_of_In, Hin. left. }
  destruct k.
  - destruct content as [|x content]; [done|]. cbn [fmap list_fmap] in *.
    rewrite Forall_forall in IH. apply IH; [left|by exists ls, ls'|].
    cbn [forallb] in Hdk. by apply andb_true_iff in Hdk as [? _].
  - apply Hconcat; [|done]. apply visit_each_inv in Hacc.
    rewrite Forall_forall in Hacc. apply Forall_forall. intros n Hn.
    apply (Hacc (accept n)). by apply list_elem_of_fmap_2.
  - rewrite visitMapping_trace in Hacc.
    destruct (Fields (mkNode MappingNode tag st v c content)) as [e|names] eqn:Hf; [done|].
    assert (Nat.even (length content) = true) as Heven.
    { unfold Fields in Hf. cbn [NodeKind Content] in Hf. rewrite decide_True in Hf by done.
      by destruct (Nat.even (length content)). }
    rewrite decide_True in Hd by done. apply bool_decide_eq_true_1 in Hd.
    rewrite visited_fields_distinct by done.
    rewrite !filter_app, fmap_app. f_equal.
    + apply filter_fmap_iff. by intros [key value].
    + rewrite !pairs_fmap, <- !list_fmap_compose.
      change (snd ∘ (fun kv : Node * Node => (trace kv.1, trace kv.2)))
        with (trace ∘ (snd : Node * Node -> Node)).
      change (snd ∘ (fun kv : Node * Node => (fields kv.1, fields kv.2)))
        with (fields ∘ (snd : Node * Node -> Node)).
      rewrite !list_fmap_compose. apply Hconcat.
      * apply visit_each_inv in Hacc. rewrite pairs_fmap in Hacc.
        rewrite Forall_forall in Hacc. apply Forall_forall. intros n Hn.
        apply list_elem_of_fmap in Hn as (kv & -> & Hkv).
        apply (Hacc (accept kv.1, accept kv.2)).
        by apply (list_elem_of_fmap_2 (fun kv : Node * Node => (accept kv.1, accept kv.2))).
      * intros n Hn. apply list_elem_of_fmap in Hn as (kv & -> & Hkv).
        by apply pairs_elem in Hkv as [_ ?].
  - done.
  - done.
Qed.

Lemma carrying_visits (nodes : list Node) (name : gostring) :
  Forall walks nodes ->
  Forall (fun d => distinct_keys d = true) nodes ->
  filter (carries name) (nodes ≫= trace)
  = field_visit <$> filter (fun kv => resolves_array kv.1 kv.2 name) (nodes ≫= fields).
Proof.
  intros Hwf Hdk. induction Hwf as [|d nodes Hd Hwf IH]; [done|].
  apply Forall_cons in Hdk as [Hkd Hdk].
  rewrite !bind_cons, !filter_app, fmap_app.
  by rewrite carrying_visits_of_a_tree, IH.
Qed.

(** ** Array setters of a whole pass *)

Section arrays.
Context `{Collaborators}.

Lemma discover_inv (all nodes : list Node) (ls ls' : ListSetters) (out : option (list Node)) :
  discover all ls nodes = (ls', out, None) ->
  Forall readable nodes /\ ls' = foldl walk_document ls nodes /\ out = Some all.
Proof.
  revert ls. induction nodes as [|n nodes IH]; intros ls; simpl.
  - intros [= <- <-]. by repeat split.
  - destruct (GetFileAnnotations n) as [err|[path i]] eqn:Hn; [done|].
    destruct (accept n _) as [ls1 [e|]] eqn:Ha; [done|].
    apply accept_success in Ha as ->.
    intros Hd. apply IH in Hd as (Hr & -> & ->).
    split; [constructor; [by eexists|done]|]. split; [|done].
    cbn [foldl]. f_equal. unfold walk_document. by rewrite Hn.
Qed.

Lemma walk_document_arrays (ls : ListSetters) (node : Node) :
  readable node ->
  ArraySetters (walk_document ls node) = foldl array_step (ArraySetters ls) (trace node).
Proof.
  intros [[path i] Hn]. unfold walk_document. rewrite Hn.
  by rewrite foldl_apply_visit_arrays.
Qed.

Lemma foldl_walk_document_arrays (ls : ListSetters) (nodes : list Node) :
  Forall readable nodes ->
  ArraySetters (foldl walk_document ls nodes)
  = foldl array_step (ArraySetters ls) (nodes ≫= trace).
Proof.
  intros Hr. revert ls. induction Hr as [|n nodes Hn _ IH]; intros ls; simpl; [done|].
  by rewrite IH, walk_document_arrays, foldl_app.
Qed.

Lemma Filter_inv (ls ls' : ListSetters) (nodes : list Node) (out : option (list Node)) :
  Filter ls nodes = (ls', out, None) ->
  exists ls0, seeded ls nodes = Some ls0
    /\ Forall readable nodes /\ ls' = foldl walk_document ls0 nodes /\ out = Some nodes.
Proof.
  unfold Filter, seeded. destruct (FindSettersFromKptfile nodes) as [err|s].
  - destruct (As_discovery err) as [w|]; [|done].
    intros Hd. apply discover_inv in Hd. by eexists.
  - intros Hd. apply discover_inv in Hd. by eexists.
Qed.

Lemma seeded_lookup (nodes : list Node) (ls0 : ListSetters) (name : gostring) :
  seeded New nodes = Some ls0 ->
  ArraySetters ls0 !! name
  = (fun vs => mkArraySetter name vs 0) <$> seeded_array nodes name.
Proof.
  unfold seeded, seeded_array. destruct (FindSettersFromKptfile nodes) as [err|s].
  - destruct (As_discovery err); [|done]. by intros [= <-].
  - intros [= <-]. pose proof (addKptfileSetters_lookup New s name) as Hl. simpl in Hl.
    destruct (s !! name) as [sv|].
    + destruct (getArraySetterValues sv); [by destruct Hl as [_ ->]|by destruct Hl as [-> _]].
    + by destruct Hl as [_ ->].
Qed.

Lemma discover_walks (all nodes : list Node) (ls ls' : ListSetters)
    (out : option (list Node)) :
  discover all ls nodes = (ls', out, None) -> Forall walks nodes.
Proof.
  revert ls. induction nodes as [|n nodes IH]; intros ls; simpl; [constructor|].
  destruct (GetFileAnnotations n) as [err|[path i]]; [done|].
  destruct (accept n _) as [ls1 [e|]] eqn:Ha; [done|].
  intros Hd. constructor; [by eexists _, _|by eapply IH].
Qed.

Lemma Filter_walks (ls ls' : ListSetters) (nodes : list Node) (out : option (list Node)) :
  Filter ls nodes = (ls', out, None) -> Forall walks nodes.
Proof.
  unfold Filter. destruct (FindSettersFromKptfile nodes) as [err|s].
  - destruct (As_discovery err) as [w|]; [|done]. apply discover_walks.
  - apply discover_walks.
Qed.

(** The array setter of a name after a pass that succeeds, by the visits
    that carry the name. *)
Lemma array_setter_counts_its_visits (nodes : list Node) (ls' : ListSetters)
    (name : gostring) (v : visit) (rest : list visit) :
  Filter New nodes = (ls', Some nodes, None) ->
  filter (carries name) (nodes ≫= trace) = v :: rest ->
  ArraySetters ls' !! name
  = Some (mkArraySetter name
            (default (carried_values v) (seeded_array nodes name))
            (wrap_int (Z.of_nat (length (v :: rest))))).
Proof.
  intros Hf Hc. apply Filter_inv in Hf as (ls0 & Hs & Hr & -> & _).
  rewrite foldl_walk_document_arrays, foldl_array_step_lookup, Hc by done.
  rewrite (seeded_lookup nodes ls0) by done.
  by destruct (seeded_array nodes name).
Qed.

(** C8 (as the code has it): when the pass succeeds on documents whose
    mappings have fields of distinct names, and the fields that carry an
    array-setter name are [f] and then [rest], in the order of the walk, the
    registry holds one array setter of that name, its count is their number,
    and its values are those the manifest seeds the name with, if it seeds
    an array, and else the sorted elements of [f], the first field met. *)
Theorem array_setter_counts_its_fields (nodes : list Node) (ls' : ListSetters)
    (name : gostring) (f : Node * Node) (rest : list (Node * Node)) :
  Filter New nodes = (ls', Some nodes, None) ->
  Forall (fun d => distinct_keys d = true) nodes ->
  filter (fun kv => resolves_array kv.1 kv.2 name) (nodes ≫= fields) = f :: rest ->
  ArraySetters ls' !! name
  = Some (mkArraySetter name
            (default (sort_Strings (Value <$> Content f.2)) (seeded_array nodes name))
            (wrap_int (Z.of_nat (length (f :: rest))))).
Proof.
  intros Hf Hdk Hc.
  rewrite (array_setter_counts_its_visits nodes ls' name (field_visit f) (field_visit <$> rest));
    [by rewrite !length_cons, length_fmap|done|].
  rewrite (carrying_visits nodes name); [by rewrite Hc| |done].
  by eapply Filter_walks.
Qed.
End arrays.

Lemma array_setter_counts_its_fields_witness :
  ArraySetters (Filter (H := reader) New [deployment]).1.1 !! str "list"
  = Some (mkArraySetter (str "list") [str "a"; str "b"] 1).
Proof.
  apply (array_setter_counts_its_fields (H := reader) [deployment]
           (Filter (H := reader) New [deployment]).1.1 (str "list")
           (scalar (str "args") (str "# kpt-set: ${list}"),
            sequence 0 [] [scalar (str "b") []; scalar (str "a") []]) []).
  - vm_compute. reflexivity.
  - repeat constructor.
  - vm_compute. reflexivity.
Defined.

(** The condition on the names of the fields is needed: the mapping visit
    takes every field by its name, and a name that comes twice gives the
    first of the two fields twice.  Here one field carries [list] and the
    count is 2. *)
Lemma repeated_key_is_visited_twice :
  let doc := with_path "deploy.yaml"
               [(scalar (str "args") (str "# kpt-set: ${list}"),
                 sequence 0 [] [scalar (str "a") []]);
                (key "args", sequence 0 [] [scalar (str "b") []])] in
  let ls' := (Filter (H := reader) New [doc]).1.1 in
  Filter (H := reader) New [doc] = (ls', Some [doc], None)
  /\ length (filter (fun kv => resolves_array kv.1 kv.2 (str "list")) (fields doc)) = 1
  /\ distinct_keys doc = false
  /\ ArraySetters ls' !! str "list" = Some (mkArraySetter (str "list") [str "a"] 2).
Proof. repeat split; vm_compute; reflexivity. Qed.

(** C8 as stated fails when the manifest declares the name: one field carries
    [list] and its sorted elements are [a], [b], yet the array setter keeps
    the values of the manifest, in the order of the manifest. *)
Lemma manifest_values_are_kept :
  let nodes := [kptfile_inline [(key "list", scalar (str "[b, a]") [])]; deployment] in
  let ls' := (Filter (H := reader) New nodes).1.1 in
  Filter (H := reader) New nodes = (ls', Some nodes, None)
  /\ filter (carries (str "list")) (nodes ≫= trace) = [args_visit]
  /\ carried_values args_visit = [str "a"; str "b"]
  /\ ArraySetters ls' !! str "list" = Some (mkArraySetter (str "list") [str "b"; str "a"] 1).
Proof. repeat split; vm_compute; reflexivity. Qed.

(** A manifest that declares the name with the null value seeds an array
    setter without values, and the field that carries the name only adds to
    its count. *)
Lemma null_manifest_value_seeds_no_values :
  let nodes := [kptfile_inline [(key "list", scalar (str "~") [])]; deployment] in
  let ls' := (Filter (H := reader) New nodes).1.1 in
  Filter (H := reader) New nodes = (ls', Some nodes, None)
  /\ seeded_array (H := reader) nodes (str "list") = Some []
  /\ ArraySetters ls' !! str "list" = Some (mkArraySetter (str "list") [] 1)
  /\ ScalarSetters ls' !! str "list" = None.
Proof. repeat split; vm_compute; reflexivity. Qed.

(** ** The stable sort and the order of its input *)

Section stable.
Context {A : Type} (less : A -> A -> bool).
Hypothesis less_asym : forall a b, less a b = true -> less b a = false.
Hypothesis less_trans : forall a b c, less a b = true -> less b c = true -> less a c = true.

Lemma insert_sorted_comm (x y : A) (l : list A) :
  apart less x y ->
  insert_sorted less x (insert_sorted less y l) = insert_sorted less y (insert_sorted less x l).
Proof.
  intros Hxy. induction l as [|z l IH]; simpl.
  - destruct Hxy as [Hxy|Hyx].
    + by rewrite Hxy, (less_asym _ _ Hxy).
    + by rewrite Hyx, (less_asym _ _ Hyx).
  - destruct (less z y) eqn:Hzy, (less z x) eqn:Hzx; simpl; rewrite ?Hzy, ?Hzx.
    + by rewrite IH.
    + destruct (less x y) eqn:Hx; simpl; rewrite ?Hzy; [done|].
      destruct Hxy as [Hxy|Hyx]; [congruence|].
      rewrite (less_trans _ _ _ Hzy Hyx) in Hzx. done.
    + destruct (less y x) eqn:Hy; simpl; rewrite ?Hzx; [done|].
      destruct Hxy as [Hxy|Hyx]; [|congruence].
      rewrite (less_trans _ _ _ Hzx Hxy) in Hzy. done.
    + destruct Hxy as [Hxy|Hyx].
      * by rewrite Hxy, (less_asym _ _ Hxy).
      * by rewrite Hyx, (less_asym _ _ Hyx).
Qed.

(** Rearranging elements of distinct keys does not change the result of the
    stable sort, when elements of distinct keys are apart. *)
Lemma SliceStable_rearranged {K} (key : A -> K) (l1 l2 suffix : list A) :
  (forall x y, key x ≠ key y -> apart less x y) ->
  l1 ≡ₚ l2 -> NoDup (key <$> l1) ->
  SliceStable less (l1 ++ suffix) = SliceStable less (l2 ++ suffix).
Proof.
  intros Hkey Hp. induction Hp as [|x l1 l2 Hp IH|x y l|l1 l2 l3 Hp1 IH1 Hp2 IH2]; intros Hd.
  - done.
  - simpl. rewrite IH; [done|]. by apply NoDup_cons in Hd as [_ ?].
  - simpl. apply insert_sorted_comm. apply Hkey.
    rewrite !fmap_cons in Hd. apply NoDup_cons in Hd as [Hd _].
    intros Heq. apply Hd. rewrite Heq. left.
  - rewrite IH1 by done. apply IH2. by rewrite <- Hp1.
Qed.

Lemma SliceStable_suffix (prefix l1 l2 : list A) :
  SliceStable less l1 = SliceStable less l2 ->
  SliceStable less (prefix ++ l1) = SliceStable less (prefix ++ l2).
Proof. intros Hl. induction prefix as [|x prefix IH]; simpl; [done|]. by rewrite IH. Qed.
End stable.

Lemma nat_of_ascii_inj (x y : ascii) : nat_of_ascii x = nat_of_ascii y -> x = y.
Proof.
  intros Hxy. rewrite <- (ascii_nat_embedding x), <- (ascii_nat_embedding y). by rewrite Hxy.
Qed.

Lemma str_lt_trans (a b c : gostring) :
  str_lt a b = true -> str_lt b c = true -> str_lt a c = true.
Proof.
  revert b c. induction a as [|x a IH]; intros [|y b] [|z c]; simpl; try done.
  intros Hab Hbc.
  apply orb_true_iff in Hab as [Hab|Hab]; apply orb_true_iff in Hbc as [Hbc|Hbc];
    rewrite ?andb_true_iff, ?Nat.ltb_lt, ?Nat.eqb_eq in *; apply orb_true_iff;
    rewrite ?andb_true_iff, ?Nat.ltb_lt, ?Nat.eqb_eq.
  - left. lia.
  - left. lia.
  - left. lia.
  - right. split; [lia|]. apply (IH b); tauto.
Qed.

Lemma str_lt_total (a b : gostring) : a ≠ b -> str_lt a b = true \/ str_lt b a = true.
Proof.
  revert b. induction a as [|x a IH]; intros [|y b] Hab; simpl; try tauto.
  destruct (Nat.lt_trichotomy (nat_of_ascii x) (nat_of_ascii y)) as [Hlt|[Heq|Hgt]].
  - left. apply orb_true_iff. left. by apply Nat.ltb_lt.
  - apply nat_of_ascii_inj in Heq as ->.
    destruct (IH b) as [Hl|Hl]; [congruence| |].
    + left. by rewrite Hl, Nat.eqb_refl, orb_true_r.
    + right. by rewrite Hl, Nat.eqb_refl, orb_true_r.
  - right. apply orb_true_iff. left. by apply Nat.ltb_lt.
Qed.

(** ** The results of a pass *)

Lemma less_name_apart (x y : Result) : RName x ≠ RName y -> apart less_name x y.
Proof. apply str_lt_total. Qed.

Lemma names_ok_New : names_ok New.
Proof. split; intros k s; simpl; by rewrite lookup_empty. Qed.

Lemma names_ok_apply_visit (ls : ListSetters) (v : visit) :
  names_ok ls -> names_ok (apply_visit ls v).
Proof.
  intros [Hs Ha]. split.
  - intros k s. destruct v as [n|node]; simpl.
    + rewrite visitScalar_lookup. case_decide; [|apply Hs].
      destruct (currentSetterValues _ _ !! k); [|apply Hs].
      destruct (ScalarSetters ls !! k) as [s0|] eqn:Hk; intros [= <-]; [|done].
      simpl. by apply Hs.
    + rewrite visitField_scalars. apply Hs.
  - intros k a. rewrite apply_visit_arrays, array_step_lookup.
    case_decide; [|apply Ha].
    destruct (ArraySetters ls !! k) as [a0|] eqn:Hk; intros [= <-]; [|done].
    simpl. by apply Ha.
Qed.

Lemma names_ok_foldl_apply_visit (ls : ListSetters) (vs : list visit) :
  names_ok ls -> names_ok (foldl apply_visit ls vs).
Proof.
  revert ls. induction vs as [|v vs IH]; intros ls Hls; simpl; [done|].
  by apply IH, names_ok_apply_visit.
Qed.

Section results.
Context `{Collaborators}.

Lemma names_ok_addKptfileSetters (ls : ListSetters) (s : gmap gostring gostring) :
  names_ok ls -> names_ok (addKptfileSetters ls s).
Proof.
  intros Hls. unfold addKptfileSetters, range_map.
  apply (map_fold_weak_ind (fun ls' _ => names_ok ls')); [done|].
  intros k v m r _ [Hs Ha]. unfold add_kptfile_setter.
  destruct (getArraySetterValues v); split; simpl; intros k' x;
    rewrite ?lookup_insert; try case_decide; try (by intros [= <-]); auto.
Qed.

Lemma names_ok_discover (all nodes : list Node) (ls : ListSetters) :
  names_ok ls -> names_ok (discover all ls nodes).1.1.
Proof.
  revert ls. induction nodes as [|n nodes IH]; intros ls Hls; simpl; [done|].
  destruct (GetFileAnnotations n) as [err|[path i]]; [done|].
  set (ls0 := mkListSetters _ _ _ path).
  assert (names_ok (accept n ls0).1) as Hok.
  { destruct (accept_visits n ls0) as [vs ->]. apply names_ok_foldl_apply_visit.
    by destruct Hls. }
  destruct (accept n ls0) as [ls1 [e|]]; [done|]. by apply IH.
Qed.

Lemma names_ok_Filter (nodes : list Node) : names_ok (Filter New nodes).1.1.
Proof.
  unfold Filter. destruct (FindSettersFromKptfile nodes) as [err|s].
  - destruct (As_discovery err); [|apply names_ok_New].
    apply names_ok_discover. split; intros k s; simpl; by rewrite lookup_empty.
  - apply names_ok_discover, names_ok_addKptfileSetters, names_ok_New.
Qed.
End results.

Lemma results_any_order (ls : ListSetters) (out : list Result) :
  names_ok ls -> results_in_some_order ls out -> out = GetResults ls.
Proof.
  intros [Hs Ha] (arrays & scalars & Harr & Hsc & ->). unfold GetResults, results_of.
  fold less_name.
  set (fa := fun v => mkResult (AName v) (Sprint (AValues v)) ArraySetterType (ACount v)).
  set (fs := fun v => mkResult (SName v) (SValue v) ScalarSetterType (SCount v)).
  assert (forall (m : gmap gostring ArraySetter),
            (forall k a, m !! k = Some a -> AName a = k) ->
            RName <$> (fa <$> (map_to_list m).*2) = (map_to_list m).*1) as Hna.
  { intros m Hm. rewrite <- !list_fmap_compose. apply list_fmap_ext.
    intros i [k a] Hi. simpl. apply Hm. apply elem_of_map_to_list.
    by eapply list_elem_of_lookup_2. }
  assert (forall (m : gmap gostring ScalarSetter),
            (forall k s, m !! k = Some s -> SName s = k) ->
            RName <$> (fs <$> (map_to_list m).*2) = (map_to_list m).*1) as Hns.
  { intros m Hm. rewrite <- !list_fmap_compose. apply list_fmap_ext.
    intros i [k a] Hi. simpl. apply Hm. apply elem_of_map_to_list.
    by eapply list_elem_of_lookup_2. }
  transitivity (SliceStable less_name ((fa <$> (map_to_list (ArraySetters ls)).*2) ++ (fs <$> scalars))).
  - apply (SliceStable_rearranged less_name (fun a b => str_lt_asym (RName a) (RName b)) (fun a b c => str_lt_trans (RName a) (RName b) (RName c)) RName).
    + apply less_name_apart.
    + by rewrite Harr.
    + rewrite Harr, Hna by done. apply NoDup_fst_map_to_list.
  - apply SliceStable_suffix.
    rewrite <- (app_nil_r (fs <$> scalars)), <- (app_nil_r (fs <$> _.*2)).
    apply (SliceStable_rearranged less_name (fun a b => str_lt_asym (RName a) (RName b)) (fun a b c => str_lt_trans (RName a) (RName b) (RName c)) RName).
    + apply less_name_apart.
    + by rewrite Hsc.
    + rewrite Hsc, Hns by done. apply NoDup_fst_map_to_list.
Qed.

Section repeat.
Context `{Collaborators}.

Lemma discover_nodes (all nodes : list Node) (ls : ListSetters) (ns : list Node) :
  (discover all ls nodes).1.2 = Some ns -> ns = all.
Proof.
  revert ls. induction nodes as [|n nodes IH]; intros ls; simpl.
  - by intros [= <-].
  - destruct (GetFileAnnotations n) as [err|[path i]]; [by intros [= <-]|].
    destruct (accept n _) as [ls1 [e|]]; [done|]. apply IH.
Qed.

Lemma Filter_nodes (ls : ListSetters) (nodes ns : list Node) :
  (Filter ls nodes).1.2 = Some ns -> ns = nodes.
Proof.
  unfold Filter. destruct (FindSettersFromKptfile nodes) as [err|s].
  - destruct (As_discovery err); [apply discover_nodes|by intros [= <-]].
  - apply discover_nodes.
Qed.

(** C9: two passes over the same documents, each from a fresh registry, give
    the same list of results, whatever the order in which [GetResults]
    enumerates the two mappings; and the documents a pass returns are the
    documents it was given. *)
Theorem discovery_is_repeatable (nodes : list Node)
    (ls1 ls2 : ListSetters) (ns1 ns2 : option (list Node)) (e1 e2 : option error)
    (out1 out2 : list Result) :
  Filter New nodes = (ls1, ns1, e1) ->
  Filter New nodes = (ls2, ns2, e2) ->
  results_in_some_order ls1 out1 ->
  results_in_some_order ls2 out2 ->
  out1 = out2 /\ (forall ns, ns1 = Some ns -> ns = nodes).
Proof.
  intros H1 H2 Ho1 Ho2. split.
  - pose proof (names_ok_Filter nodes) as Hok.
    rewrite (results_any_order ls1 out1), (results_any_order ls2 out2); try done.
    + congruence.
    + by rewrite H2 in Hok.
    + by rewrite H1 in Hok.
  - intros ns ->. apply (Filter_nodes New). by rewrite H1.
Qed.
End repeat.

Lemma discovery_is_repeatable_witness :
  let list := mkArraySetter (str "list") [str "b"; str "a"] 1 in
  let replicas := mkScalarSetter (str "replicas") (str "5") 1 in
  let zone := mkScalarSetter (str "zone") (str "eu") 0 in
  results_of [list] [replicas; zone] = results_of [list] [zone; replicas]
  /\ (forall ns, Some package = Some ns -> ns = package).
Proof.
  intros list replicas zone.
  apply (discovery_is_repeatable (H := reader) package
           (Filter (H := reader) New package).1.1 (Filter (H := reader) New package).1.1
           (Some package) (Some package) None None).
  - vm_compute. reflexivity.
  - vm_compute. reflexivity.
  - exists [list], [replicas; zone]. split; [|split; [|done]].
    + vm_compute. reflexivity.
    + vm_compute. reflexivity.
  - exists [list], [zone; replicas]. split; [|split; [|done]].
    + vm_compute. reflexivity.
    + vm_compute. apply Permutation_swap.
Defined.

(** ** Patterns as pieces *)

Lemma find_placeholders_text (s rest : gostring) :
  dollar ∉ s -> find_placeholders 0 (s ++ rest) = find_placeholders 0 rest.
Proof.
  induction s as [|c s IH]; intros Hs; [done|].
  rewrite <- app_comm_cons, find_placeholders_0.
  assert (c ≠ dollar) as Hc by (intros ->; apply Hs; left).
  assert (HasPrefix (c :: s ++ rest) (str "${") = false) as ->.
  { simpl. rewrite decide_False; [done|]. by intros ?. }
  apply IH. intros ?. apply Hs. by right.
Qed.

Lemma render_cons (p : piece) (pieces : list piece) :
  render (p :: pieces) = render_piece p ++ render pieces.
Proof. done. Qed.

Lemma expr_with_cons (replaced : list gostring) (p : piece) (pieces : list piece) :
  expr_with replaced (p :: pieces) = expr_piece replaced p ++ expr_with replaced pieces.
Proof. done. Qed.

Lemma unresolvedSetters_render (pieces : list piece) :
  Forall piece_ok pieces ->
  unresolvedSetters (render pieces) = placeholder <$> holes pieces.
Proof.
  unfold unresolvedSetters.
  induction 1 as [|[s|name] pieces Hp _ IH]; [done| |]; rewrite render_cons.
  - cbn [render_piece]. by rewrite find_placeholders_text.
  - destruct Hp as [_ Hb]. cbn [render_piece]. by rewrite find_placeholders_hole, IH.
Qed.

Lemma QuoteMeta_app (a b : gostring) : QuoteMeta (a ++ b) = QuoteMeta a ++ QuoteMeta b.
Proof.
  induction a as [|c a IH]; simpl; [done|]. rewrite IH. by destruct (is_special c).
Qed.

Lemma QuoteMeta_render (pieces : list piece) : QuoteMeta (render pieces) = expr_with [] pieces.
Proof.
  induction pieces as [|[s|name] pieces IH]; [done| |];
    rewrite render_cons, expr_with_cons, QuoteMeta_app, IH; [done|].
  cbn [expr_piece render_piece]. rewrite decide_False; [done|]. apply not_elem_of_nil.
Qed.

Lemma QuoteMeta_elem (c : ascii) (s : gostring) :
  c ∈ QuoteMeta s -> c = backslash \/ c ∈ s.
Proof.
  induction s as [|x s IH]; simpl; [by intros ?%elem_of_nil|].
  destruct (is_special x); rewrite !elem_of_cons; tauto.
Qed.

Lemma QuoteMeta_inj (a b : gostring) : QuoteMeta a = QuoteMeta b -> a = b.
Proof.
  revert b. induction a as [|x a IH]; intros [|y b]; simpl.
  - done.
  - by destruct (is_special y).
  - by destruct (is_special x).
  - destruct (is_special x) eqn:Hx, (is_special y) eqn:Hy; intros Heq; simplify_eq;
      f_equal; by apply IH.
Qed.

(** ** Replacing the placeholders *)

Lemma replace_all_no_second {A} `{EqDecision A} (b0 b1 : A) (old new a rest : list A) :
  b1 ∉ a -> head rest ≠ Some b1 ->
  replace_all (b0 :: b1 :: old) new 0 (a ++ rest)
  = a ++ replace_all (b0 :: b1 :: old) new 0 rest.
Proof.
  induction a as [|c a IH]; intros Ha Hr; [done|].
  rewrite <- !app_comm_cons, replace_all_step.
  - f_equal. apply IH; [|done]. intros ?. apply Ha. by right.
  - intros Hp. apply prefix_cons_inv_2 in Hp.
    destruct a as [|c' a]; simpl in Hp.
    + destruct rest as [|r rest]; [by apply prefix_nil_not in Hp|].
      apply prefix_cons_inv_1 in Hp as ->. by apply Hr.
    + apply prefix_cons_inv_1 in Hp as ->. apply Ha. right. left.
Qed.

Lemma first_occurrence {A} (x : A) (a b r1 r2 : list A) :
  (a ++ x :: r1) `prefix_of` (b ++ x :: r2) -> x ∉ a -> x ∉ b -> a = b.
Proof.
  revert b. induction a as [|c a IH]; intros [|d b] Hp Ha Hb; simpl in *.
  - done.
  - apply prefix_cons_inv_1 in Hp as <-. exfalso. apply Hb. left.
  - apply prefix_cons_inv_1 in Hp as ->. exfalso. apply Ha. left.
  - pose proof (prefix_cons_inv_1 _ _ _ _ Hp) as ->.
    apply prefix_cons_inv_2 in Hp. f_equal. apply IH; [done| |].
    + intros ?. apply Ha. by right.
    + intros ?. apply Hb. by right.
Qed.

Lemma QuoteMeta_placeholder_eq (name : gostring) :
  QuoteMeta (placeholder name)
  = backslash :: dollar :: backslash :: lbrace :: QuoteMeta name ++ [backslash; rbrace].
Proof.
  unfold placeholder. rewrite !QuoteMeta_app. reflexivity.
Qed.

Lemma QuoteMeta_not_elem (c : ascii) (s : gostring) :
  c ≠ backslash -> c ∉ s -> c ∉ QuoteMeta s.
Proof. intros Hc Hs Hin. apply QuoteMeta_elem in Hin as [?|?]; done. Qed.

Lemma head_QuoteMeta (s : gostring) : head (QuoteMeta s) ≠ Some dollar.
Proof.
  destruct s as [|c s]; simpl; [done|].
  destruct (is_special c) eqn:Hc; simpl; [done|]. intros [= ->]. by vm_compute in Hc.
Qed.

Lemma head_app_ne {A} (x : A) (a b : list A) :
  head a ≠ Some x -> head b ≠ Some x -> head (a ++ b) ≠ Some x.
Proof. by destruct a. Qed.

Lemma head_expr_with (replaced : list gostring) (pieces : list piece) :
  head (expr_with replaced pieces) ≠ Some dollar.
Proof.
  induction pieces as [|[s|name] pieces IH]; [done| |]; rewrite expr_with_cons.
  - apply head_app_ne; [apply head_QuoteMeta|done].
  - apply head_app_ne; [|done]. cbn [expr_piece]. case_decide; [done|].
    apply head_QuoteMeta.
Qed.

(** The escaped text of one placeholder does not occur in that of another. *)
Lemma replace_all_other_hole (n m : gostring) (rest : gostring) :
  n ≠ m -> rbrace ∉ n -> dollar ∉ m -> rbrace ∉ m -> head rest ≠ Some dollar ->
  replace_all (QuoteMeta (placeholder n)) capture_group 0 (QuoteMeta (placeholder m) ++ rest)
  = QuoteMeta (placeholder m) ++ replace_all (QuoteMeta (placeholder n)) capture_group 0 rest.
Proof.
  intros Hnm Hn Hmd Hm Hr. rewrite !QuoteMeta_placeholder_eq.
  rewrite <- !app_comm_cons. rewrite replace_all_step.
  2:{ intros Hp. do 4 apply prefix_cons_inv_2 in Hp.
      rewrite <- !app_assoc in Hp.
      change (QuoteMeta n ++ [backslash; rbrace])
        with (QuoteMeta n ++ [backslash] ++ rbrace :: []) in Hp.
      change (QuoteMeta m ++ [backslash; rbrace] ++ rest)
        with (QuoteMeta m ++ [backslash] ++ rbrace :: rest) in Hp.
      rewrite !app_assoc in Hp. apply first_occurrence in Hp.
      - apply app_inj_tail in Hp as [Hp _]. by apply QuoteMeta_inj in Hp.
      - rewrite not_elem_of_app. split; [by apply QuoteMeta_not_elem|].
        by intros ?%list_elem_of_singleton.
      - rewrite not_elem_of_app. split; [by apply QuoteMeta_not_elem|].
        by intros ?%list_elem_of_singleton. }
  f_equal. rewrite replace_all_step.
  2:{ intros Hp. by apply prefix_cons_inv_1 in Hp. }
  f_equal.
  change (backslash :: lbrace :: (QuoteMeta m ++ [backslash; rbrace]) ++ rest)
    with ((backslash :: lbrace :: QuoteMeta m ++ [backslash; rbrace]) ++ rest).
  rewrite replace_all_no_second; [done| |done].
  rewrite !not_elem_of_cons, not_elem_of_app, !not_elem_of_cons.
  repeat split; try done; [by apply QuoteMeta_not_elem | apply not_elem_of_nil].
Qed.

Lemma ReplaceAll_nonempty (s old new : gostring) :
  old ≠ [] -> ReplaceAll s old new = replace_all old new 0 s.
Proof. by destruct old. Qed.

Lemma replace_all_expr_with (n : gostring) (replaced : list gostring) (pieces : list piece) :
  rbrace ∉ n -> Forall piece_ok pieces ->
  ReplaceAll (expr_with replaced pieces) (QuoteMeta (placeholder n)) capture_group
  = expr_with (n :: replaced) pieces.
Proof.
  intros Hn Hok. rewrite ReplaceAll_nonempty by apply QuoteMeta_placeholder.
  induction Hok as [|[s|m] pieces Hp _ IH]; [done| |]; rewrite !expr_with_cons.
  - cbn [expr_piece]. rewrite QuoteMeta_placeholder_eq at 1.
    rewrite replace_all_no_second.
    + by rewrite <- QuoteMeta_placeholder_eq, IH.
    + by apply QuoteMeta_not_elem.
    + apply head_expr_with.
  - cbn [expr_piece]. destruct Hp as [Hmd Hmb].
    destruct (decide (m ∈ replaced)) as [Hin|Hin].
    + rewrite decide_True by (by right).
      rewrite QuoteMeta_placeholder_eq at 1. rewrite replace_all_no_second.
      * by rewrite <- QuoteMeta_placeholder_eq, IH.
      * vm_compute. intros Hd. apply list_elem_of_In in Hd. simpl in Hd.
        repeat (destruct Hd as [Hd|Hd]; [discriminate|]). done.
      * apply head_expr_with.
    + destruct (decide (m = n)) as [->|Hne].
      * rewrite decide_True by left. rewrite replace_all_match by done. by rewrite IH.
      * rewrite decide_False by (rewrite elem_of_cons; by intros [?|?]).
        rewrite replace_all_other_hole; try done; [by rewrite IH|apply head_expr_with].
Qed.

Lemma holes_ok (pieces : list piece) :
  Forall piece_ok pieces -> Forall (fun n => rbrace ∉ n) (holes pieces).
Proof.
  induction 1 as [|[s|n] pieces Hp _ IH]; simpl; [done|done|].
  constructor; [by destruct Hp|done].
Qed.

Lemma foldl_replace_expr_with (names replaced : list gostring) (pieces : list piece) :
  Forall piece_ok pieces -> Forall (fun n => rbrace ∉ n) names ->
  foldl (fun pattern setterName =>
           ReplaceAll pattern (QuoteMeta setterName) capture_group)
        (expr_with replaced pieces) (placeholder <$> names)
  = expr_with (reverse names ++ replaced) pieces.
Proof.
  intros Hok Hn. revert replaced. induction Hn as [|n names Hn _ IH]; intros replaced; [done|].
  rewrite fmap_cons. cbn [foldl]. rewrite replace_all_expr_with by done.
  by rewrite IH, reverse_cons, <- app_assoc.
Qed.

(** The expression [currentSetterValues] compiles for the pattern the pieces
    spell: every placeholder has become the group. *)
Lemma setter_expr_render (pieces : list piece) :
  Forall piece_ok pieces ->
  setter_expr (render pieces) = expr_with (reverse (holes pieces) ++ []) pieces.
Proof.
  intros Hok. unfold setter_expr.
  rewrite unresolvedSetters_render, QuoteMeta_render by done.
  apply foldl_replace_expr_with; [done|by apply holes_ok].
Qed.

(** ** Compiling *)

Lemma parse_normal_cons (c : ascii) (s : gostring) :
  parse PNormal (c :: s)
  = if decide (c = backslash) then parse PEscaped s
    else if HasPrefix (c :: s) capture_group
    then cons CaptureAny <$> parse (PGroup (length capture_group - 1)) s
    else if is_special c then None
    else cons (Lit c) <$> parse PNormal s.
Proof. done. Qed.

Lemma parse_escaped_cons (c : ascii) (s : gostring) :
  parse PEscaped (c :: s) = if is_special c then cons (Lit c) <$> parse PNormal s else None.
Proof. done. Qed.

Lemma HasPrefix_head (c d : ascii) (s p : gostring) :
  c ≠ d -> HasPrefix (c :: s) (d :: p) = false.
Proof. intros Hcd. simpl. rewrite decide_False; [done|]. by intros ->. Qed.

Lemma parse_text (s rest : gostring) :
  parse PNormal (QuoteMeta s ++ rest) = (fun p => (Lit <$> s) ++ p) <$> parse PNormal rest.
Proof.
  induction s as [|c s IH]; cbn [QuoteMeta].
  - rewrite app_nil_l. by destruct (parse PNormal rest).
  - destruct (is_special c) eqn:Hc; rewrite <- !app_comm_cons, parse_normal_cons.
    + rewrite decide_True by done. rewrite parse_escaped_cons, Hc, IH.
      by destruct (parse PNormal rest).
    + rewrite decide_False by (intros ->; by vm_compute in Hc).
      unfold capture_group at 1. cbn [str list_ascii_of_string app].
      rewrite HasPrefix_head by (intros ->; by vm_compute in Hc).
      rewrite Hc, IH. by destruct (parse PNormal rest).
Qed.

Lemma parse_group (rest : gostring) :
  parse PNormal (capture_group ++ rest) = cons CaptureAny <$> parse PNormal rest.
Proof. reflexivity. Qed.

Lemma parse_expr_with (replaced : list gostring) (pieces : list piece) :
  holes pieces ⊆ replaced ->
  parse PNormal (expr_with replaced pieces) = Some (prog_of pieces).
Proof.
  induction pieces as [|[s|n] pieces IH]; intros Hsub; [done| |]; rewrite expr_with_cons.
  - cbn [expr_piece]. rewrite parse_text, IH by done. done.
  - cbn [expr_piece]. rewrite decide_True by (apply Hsub; left).
    rewrite parse_group, IH; [done|]. intros x Hx. apply Hsub. by right.
Qed.

Lemma Compile_render (pieces : list piece) (r : prog) :
  Forall piece_ok pieces ->
  Compile (setter_expr (render pieces)) = Some r -> r = prog_of pieces.
Proof.
  intros Hok. rewrite setter_expr_render by done. unfold Compile.
  destruct (ValidString _); [|done]. rewrite parse_expr_with; [by intros [= <-]|].
  intros x Hx. rewrite app_nil_r. by apply elem_of_reverse.
Qed.

(** ** What a match is made of *)

Lemma star_sound (rest : gostring -> option (gostring * list gostring))
    (s : gostring) (k : nat) (cap m : gostring) (caps : list gostring) :
  star rest k s = Some (cap, m, caps) ->
  exists s', s = cap ++ s' /\ rest s' = Some (m, caps).
Proof.
  revert k cap. induction s as [|c s IH]; intros k cap.
  - destruct k; simpl; [|done]. destruct (rest []) as [[m' caps']|] eqn:Hr; [|done].
    intros [= <- <- <-]. by exists [].
  - assert (forall k', extend c (star rest k' s) = Some (cap, m, caps) ->
              exists s', c :: s = cap ++ s' /\ rest s' = Some (m, caps)) as Hext.
    { intros k'. destruct (star rest k' s) as [[[cap' m'] caps']|] eqn:Hs; [|done].
      simpl. intros [= <- <- <-]. apply IH in Hs as (s' & -> & Hr). by exists s'. }
    assert (('(m0, caps0) ← rest (c :: s); Some ([], m0, caps0)) = Some (cap, m, caps) ->
            exists s', c :: s = cap ++ s' /\ rest s' = Some (m, caps)) as Hstop.
    { destruct (rest (c :: s)) as [[m' caps']|] eqn:Hr; [|done].
      simpl. intros [= <- <- <-]. by exists (c :: s). }
    destruct k as [|k]; cbn [star]; [|apply Hext].
    destruct (decide (c = newline)); [apply Hstop|].
    destruct (extend c (star rest (rune_width (c :: s) - 1) s)) eqn:He; [|apply Hstop].
    intros [= ->]. by apply Hext in He.
Qed.

Lemma assemble_text (s : gostring) (p : prog) (caps : list gostring) :
  assemble ((Lit <$> s) ++ p) caps = s ++ assemble p caps.
Proof.
  induction s as [|c s IH]; [done|].
  rewrite fmap_cons, <- app_comm_cons. cbn [assemble]. by rewrite IH.
Qed.

(** The expression three steps at a time, as a literal U+FFFD takes them. *)
Lemma prog_ind3 (P : prog -> Prop) :
  P [] -> (forall i p, P p -> P (drop 2 p) -> P (i :: p)) -> forall p, P p.
Proof.
  intros Hnil Hcons p.
  assert (P p /\ P (drop 1 p) /\ P (drop 2 p)) as [Hp _]; [|done].
  induction p as [|i p (IH0 & IH1 & IH2)]; [done|].
  split; [by apply Hcons|]. split; [done|]. by rewrite skipn_cons.
Qed.

Lemma RuneError_prefix (c c2 c3 : ascii) (p : prog) :
  [c; c2; c3] = RuneError <-> (Lit <$> RuneError) `prefix_of` (Lit c :: Lit c2 :: Lit c3 :: p).
Proof.
  unfold RuneError. cbn [fmap list_fmap]. split.
  - intros [= -> -> ->]. by exists p.
  - intros [k Hk]. by simplify_eq/=.
Qed.

Lemma RuneError_prefix_inv (p : prog) :
  (Lit <$> RuneError) `prefix_of` p ->
  exists c c2 c3 p', p = Lit c :: Lit c2 :: Lit c3 :: p' /\ [c; c2; c3] = RuneError.
Proof. intros [k ->]. unfold RuneError. cbn [fmap list_fmap app]. by eexists _, _, _, _. Qed.

(** A literal at the head of the expression: U+FFFD takes a byte that starts
    no well-formed encoding, and any literal byte takes the same byte. *)
Lemma match_here_Lit (c : ascii) (p : prog) (s : gostring) :
  match_here (Lit c :: p) s
  = match s with
    | [] => None
    | c' :: s' =>
      if bool_decide ((Lit <$> RuneError) `prefix_of` (Lit c :: p)) && negb (rune_ok s)
      then '(m, caps) ← match_here (drop 2 p) s'; Some (c' :: m, caps)
      else if decide (c = c') then '(m, caps) ← match_here p s'; Some (c' :: m, caps)
      else None
    end.
Proof.
  destruct s as [|c' s']; [done|].
  destruct (decide ((Lit <$> RuneError) `prefix_of` (Lit c :: p))) as [Hp|Hp].
  - apply RuneError_prefix_inv in Hp as Hq. destruct Hq as (d & c2 & c3 & p' & [= <- ->] & Hr).
    cbn [match_here drop]. by rewrite !bool_decide_eq_true_2.
  - rewrite (bool_decide_eq_false_2 _ Hp). cbn [andb].
    destruct p as [|[c2|] [|[c3|] p']]; try done.
    cbn [match_here]. rewrite bool_decide_eq_false_2; [done|].
    intros Hr. by apply Hp, RuneError_prefix.
Qed.

(** An ordinary literal byte takes the same byte of the text. *)
Lemma match_here_Lit_plain (c : ascii) (p : prog) (s : gostring) :
  ¬ (Lit <$> RuneError) `prefix_of` (Lit c :: p) ->
  match_here (Lit c :: p) s
  = match s with
    | [] => None
    | c' :: s' =>
      if decide (c = c') then '(m, caps) ← match_here p s'; Some (c' :: m, caps) else None
    end.
Proof. intros Hp. rewrite match_here_Lit. by rewrite (bool_decide_eq_false_2 _ Hp). Qed.

Lemma groups_Lit_cons (c : ascii) (p : prog) : groups (Lit c :: p) = groups p.
Proof. unfold groups. by rewrite filter_cons_False. Qed.

Lemma groups_RuneError (c : ascii) (p : prog) :
  (Lit <$> RuneError) `prefix_of` (Lit c :: p) -> groups (drop 2 p) = groups (Lit c :: p).
Proof.
  intros Hp. apply RuneError_prefix_inv in Hp as (d & c2 & c3 & p' & [= <- ->] & _).
  cbn [drop]. by rewrite !groups_Lit_cons.
Qed.

(** A match at the head of [s] is a prefix of [s], with one capture for each
    group, and every capture is a part of it. *)
Lemma match_here_sound (p : prog) (s m : gostring) (caps : list gostring) :
  match_here p s = Some (m, caps) ->
  m `prefix_of` s /\ length caps = groups p
  /\ (forall i x, caps !! i = Some x -> exists a b, m = a ++ x ++ b).
Proof.
  revert s m caps. induction p as [|[c|] p IH IH2] using prog_ind3; intros s m caps.
  - intros [= <- <-]. split; [apply prefix_nil|]. split; [done|]. by intros [|i].
  - rewrite match_here_Lit. destruct s as [|c' s]; [done|].
    assert (forall q, groups q = groups (Lit c :: p) ->
              (forall s m caps, match_here q s = Some (m, caps) ->
                 m `prefix_of` s /\ length caps = groups q
                 /\ (forall i x, caps !! i = Some x -> exists a b, m = a ++ x ++ b)) ->
              ('(m0, caps0) ← match_here q s; Some (c' :: m0, caps0)) = Some (m, caps) ->
              m `prefix_of` c' :: s /\ length caps = groups (Lit c :: p)
              /\ (forall i x, caps !! i = Some x -> exists a b, m = a ++ x ++ b)) as Hq.
    { intros q Hg Hrec. destruct (match_here q s) as [[m' caps']|] eqn:Hm; [|done]. simpl.
      intros [= <- <-]. apply Hrec in Hm as (Hp & Hl & Hc).
      split; [by apply prefix_cons|]. split; [by rewrite Hl|].
      intros i x Hi. destruct (Hc i x Hi) as (a & b & ->). by exists (c' :: a), b. }
    destruct (bool_decide _ && _) eqn:Hb.
    + apply andb_prop in Hb as [Hb _]. apply bool_decide_eq_true_1 in Hb.
      apply Hq; [by apply groups_RuneError|exact IH2].
    + destruct (decide (c = c')); [|done]. apply Hq; [by rewrite groups_Lit_cons|exact IH].
  - cbn [match_here].
    destruct (star (match_here p) 0 s) as [[[cap m'] caps']|] eqn:Hs; [|done]. simpl.
    intros [= <- <-]. apply star_sound in Hs as (s' & -> & Hm).
    apply IH in Hm as (Hp & Hl & Hc). split; [by apply prefix_app|]. split.
    + unfold groups. rewrite filter_cons_True by done. simpl. by rewrite Hl.
    + intros [|i] x Hi.
      * simpl in Hi. injection Hi as ->. by exists [], m'.
      * destruct (Hc i x Hi) as (a & b & ->). exists (cap ++ a), b. by rewrite <- app_assoc.
Qed.

Lemma replacement_free_cons (i : inst) (p : prog) :
  replacement_free (i :: p) -> replacement_free p.
Proof. intros Hf k. apply (Hf (S k)). Qed.

(** Without a literal U+FFFD, the match is made of the literals of the
    expression and of the captures. *)
Lemma match_here_assemble (p : prog) (s m : gostring) (caps : list gostring) :
  replacement_free p -> match_here p s = Some (m, caps) -> m = assemble p caps.
Proof.
  revert s m caps. induction p as [|[c|] p IH]; intros s m caps Hf.
  - by intros [= <- <-].
  - rewrite match_here_Lit_plain by apply (Hf 0).
    destruct s as [|c' s]; [done|]. case_decide as Hc; [|done]. subst c'.
    destruct (match_here p s) as [[m' caps']|] eqn:Hm; [|done]. simpl.
    intros [= <- <-]. cbn [assemble]. f_equal. apply (IH s); [|done].
    by eapply replacement_free_cons.
  - cbn [match_here].
    destruct (star (match_here p) 0 s) as [[[cap m'] caps']|] eqn:Hs; [|done]. simpl.
    intros [= <- <-]. apply star_sound in Hs as (s' & -> & Hm). cbn [assemble]. f_equal.
    apply (IH s'); [|done]. by eapply replacement_free_cons.
Qed.

Lemma search_match (p : prog) (s : gostring) (k : nat) (m : gostring) (caps : list gostring) :
  search p k s = Some (m :: caps) ->
  exists before after, s = before ++ after /\ match_here p after = Some (m, caps).
Proof.
  revert k. induction s as [|c s IH]; intros k.
  - destruct k; simpl; [|done].
    destruct (match_here p []) as [[m' caps']|] eqn:Hm; [|done].
    intros [= <- <-]. by exists [], [].
  - assert (forall k', search p k' s = Some (m :: caps) ->
       exists before after, c :: s = before ++ after /\ match_here p after = Some (m, caps))
      as Hs.
    { intros k' Hk. apply IH in Hk as (before & after & -> & ?).
      by exists (c :: before), after. }
    destruct k as [|k]; [|apply Hs]. rewrite search_0.
    destruct (match_here p (c :: s)) as [[m' caps']|] eqn:Hm; [|apply Hs].
    intros [= <- <-]. by exists [], (c :: s).
Qed.

(** What the search finds is a part of the text, with one capture for each
    group; without a literal U+FFFD it is made of the literals of the
    expression and of the captures. *)
Lemma search_sound (p : prog) (s : gostring) (k : nat) (m : gostring) (caps : list gostring) :
  search p k s = Some (m :: caps) ->
  exists before after,
    s = before ++ m ++ after /\ length caps = groups p
    /\ (replacement_free p -> m = assemble p caps).
Proof.
  intros Hs. apply search_match in Hs as (before & rest & -> & Hm).
  apply match_here_sound in Hm as Hsound. destruct Hsound as ([after ->] & Hl & _).
  exists before, after. split; [done|]. split; [done|].
  intros Hf. by eapply match_here_assemble.
Qed.

(** ** Patterns without U+FFFD *)

Lemma Contains_false (s t : gostring) :
  Contains s t = false -> forall a b, s ≠ a ++ t ++ b.
Proof.
  intros Hc a. revert s Hc. induction a as [|c a IH]; intros s Hc b ->.
  - destruct (t ++ b) as [|c r] eqn:Hr.
    + apply app_eq_nil in Hr as [-> _]. by destruct b.
    + rewrite <- Hr in Hc. clear Hr.
      assert (HasPrefix (t ++ b) t = true) as Hp by (apply HasPrefix_spec; by exists b).
      destruct (t ++ b); unfold Contains in Hc; simpl in Hc; fold Contains in Hc;
        by rewrite Hp in Hc.
  - rewrite <- app_comm_cons in Hc.
    change (Contains (c :: a ++ t ++ b) t)
      with (HasPrefix (c :: a ++ t ++ b) t || Contains (a ++ t ++ b) t) in Hc.
    apply orb_false_elim in Hc as [_ Hc]. by apply (IH _ Hc b).
Qed.

Lemma replacement_free_alt (p : prog) :
  (forall x y, p ≠ x ++ (Lit <$> RuneError) ++ y) -> replacement_free p.
Proof.
  intros Hp i [k Hk]. apply (Hp (take i p) k). by rewrite <- Hk, take_drop.
Qed.

Lemma fmap_Lit_inj (a b : gostring) : Lit <$> a = Lit <$> b -> a = b.
Proof.
  revert b. induction a as [|c a IH]; intros [|d b]; try done.
  rewrite !fmap_cons. intros [= -> Hab]. f_equal. by apply IH.
Qed.

(** A run of literals of the expression of a pattern is a part of the
    pattern. *)
Lemma prog_of_literals (T pre : gostring) (pieces : list piece) (x y : prog) :
  T ≠ [] ->
  (Lit <$> pre) ++ prog_of pieces = x ++ (Lit <$> T) ++ y ->
  exists a b, pre ++ render pieces = a ++ T ++ b.
Proof.
  intros HT. revert pre x y. induction pieces as [|[t|n] pieces IH]; intros pre x y Heq.
  - change (prog_of []) with (@nil inst) in Heq. rewrite app_nil_r in Heq.
    apply fmap_app_inv in Heq as (a & r & -> & Hr2 & ->). symmetry in Hr2.
    apply fmap_app_inv in Hr2 as (t' & b & Ht & -> & ->).
    apply fmap_Lit_inj in Ht. subst t'.
    exists a, b. change (render []) with (@nil ascii). by rewrite app_nil_r.
  - destruct (IH (pre ++ t) x y) as (a & b & Hab).
    + rewrite <- Heq. unfold prog_of. by rewrite bind_cons, fmap_app, <- app_assoc.
    + exists a, b. by rewrite render_cons, app_assoc.
  - unfold prog_of in Heq. rewrite bind_cons in Heq. fold (prog_of pieces) in Heq.
    cbn [app] in Heq. rewrite render_cons. cbn [render_piece].
    apply app_eq_inv in Heq as [(k & Hk1 & Hk2)|(k & Hk1 & Hk2)].
    + (* the run begins before the group *)
      apply app_eq_inv in Hk2 as [(k' & Hk3 & Hk4)|(k' & Hk3 & Hk4)].
      * (* and does not end after it *)
        destruct k' as [|i k'].
        -- rewrite app_nil_r in Hk3. subst k.
           apply fmap_app_inv in Hk1 as (a & t' & -> & Ht & ->).
           apply fmap_Lit_inj in Ht. subst t'.
           exists a, (placeholder n ++ render pieces). by rewrite <- !app_assoc.
        -- rewrite <- app_comm_cons in Hk4. injection Hk4 as <- _.
           assert (CaptureAny ∈ (Lit <$> T)) as Hin.
           { rewrite Hk3. apply elem_of_app. right. left. }
           apply list_elem_of_fmap in Hin as (c & [=] & _).
      * (* and ends before it *)
        subst k. apply fmap_app_inv in Hk1 as (a & r & -> & Hr2 & ->).
        symmetry in Hr2. apply fmap_app_inv in Hr2 as (t' & b & Ht & _ & ->).
        apply fmap_Lit_inj in Ht. subst t'.
        exists a, (b ++ placeholder n ++ render pieces). by rewrite <- !app_assoc.
    + (* the run begins after the group *)
      destruct k as [|i k].
      * rewrite app_nil_l in Hk2. destruct T as [|c T]; [done|]. by rewrite fmap_cons in Hk2.
      * rewrite <- app_comm_cons in Hk2. injection Hk2 as <- Hk2.
        destruct (IH [] k y) as (a & b & Hab); [done|]. rewrite app_nil_l in Hab.
        exists (pre ++ placeholder n ++ a), b. by rewrite Hab, <- !app_assoc.
Qed.

(** The expression of a pattern without U+FFFD has no literal U+FFFD. *)
Lemma replacement_free_prog_of (pieces : list piece) :
  Contains (render pieces) RuneError = false -> replacement_free (prog_of pieces).
Proof.
  intros Hc. apply replacement_free_alt. intros x y Heq.
  destruct (prog_of_literals RuneError [] pieces x y) as (a & b & Hab); [done|done|].
  by apply (Contains_false _ _ Hc a b).
Qed.

(** ** Binding *)

Lemma bind_setters_lookup (names caps : list gostring) (res0 : gmap gostring gostring) :
  NoDup names -> length names = length caps ->
  bind_setters (placeholder <$> names) caps res0 ≠ ∅ ->
  (forall i n cap, names !! i = Some n -> caps !! i = Some cap ->
     bind_setters (placeholder <$> names) caps res0 !! n = Some cap)
  /\ (forall n, n ∉ names -> bind_setters (placeholder <$> names) caps res0 !! n = res0 !! n).
Proof.
  intros Hnd. revert caps res0.
  induction Hnd as [|n names Hn Hnd IH]; intros [|cap caps] res0 Hlen Hne; try done.
  rewrite fmap_cons in *. cbn [bind_setters] in *.
  destruct (decide (cap = [])) as [->|Hcap]; [done|].
  rewrite clean_placeholder in *.
  destruct (IH caps (<[n := cap]> res0)) as [IH1 IH2]; [by simplify_eq/=|done|].
  split.
  - intros [|i] n' cap' Hi Hc; simplify_eq/=.
    + by rewrite IH2, lookup_insert_eq.
    + by apply (IH1 i).
  - intros n' Hn'. apply not_elem_of_cons in Hn' as [Hne' Hn'].
    by rewrite IH2, lookup_insert_ne.
Qed.

Lemma groups_prog_of (pieces : list piece) : groups (prog_of pieces) = length (holes pieces).
Proof.
  unfold groups, prog_of.
  induction pieces as [|[s|n] pieces IH]; [done| |].
  - rewrite bind_cons, filter_app, length_app, IH. cbn [holes omap].
    replace (filter (fun i => i = CaptureAny) (Lit <$> s)) with (@nil inst); [done|].
    induction s as [|c s IHs]; [done|]. rewrite fmap_cons, filter_cons_False; done.
  - rewrite bind_cons, filter_app, length_app, IH. done.
Qed.

Lemma fill_assemble (res : gmap gostring gostring) (pieces : list piece)
    (caps : list gostring) :
  (forall i n cap, holes pieces !! i = Some n -> caps !! i = Some cap -> res !! n = Some cap) ->
  length caps = length (holes pieces) ->
  fill res pieces = assemble (prog_of pieces) caps.
Proof.
  revert caps. induction pieces as [|[s|n] pieces IH]; intros caps Hres Hlen; [done| |].
  - unfold fill, prog_of in *. rewrite fmap_cons, bind_cons, assemble_text. cbn [concat].
    f_equal. by apply IH.
  - destruct caps as [|cap caps]; [done|].
    unfold fill, prog_of in *. rewrite fmap_cons, bind_cons. cbn [concat app assemble].
    rewrite (Hres 0 n cap) by done. cbn [default]. f_equal.
    apply IH; [|by simplify_eq/=].
    intros i n' cap' Hi Hc. by apply (Hres (S i)).
Qed.

(** C1 (as the code has it): for a pattern made of text without dollar signs
    and of placeholders with distinct names, and free of U+FFFD, when the
    resolver returns a binding that is not empty, every placeholder is bound
    and the pattern with the bound values in the place of the placeholders is
    a contiguous part of the value, the part the expression matched. *)
Theorem binding_rebuilds_the_match (pieces : list piece) (value : gostring) :
  Forall piece_ok pieces -> NoDup (holes pieces) ->
  Contains (render pieces) RuneError = false ->
  currentSetterValues (render pieces) value ≠ ∅ ->
  (forall name, name ∈ holes pieces ->
     is_Some (currentSetterValues (render pieces) value !! name))
  /\ exists before after,
       value = before ++ fill (currentSetterValues (render pieces) value) pieces ++ after.
Proof.
  intros Hok Hnd Hfree. unfold currentSetterValues.
  destruct (Compile (setter_expr (render pieces))) as [r|] eqn:Hc; [|done].
  apply Compile_render in Hc as ->; [|done].
  destruct (FindStringSubmatch _ value) as [[|m caps]|] eqn:Hm; [done| |done].
  apply search_sound in Hm as (before & after & -> & Hg & Hasm).
  rewrite Hasm by (by apply replacement_free_prog_of). clear Hasm.
  rewrite groups_prog_of in Hg. rewrite unresolvedSetters_render by done.
  rewrite length_fmap. case_decide as Hlen; [done|]. intros Hne.
  destruct (bind_setters_lookup (holes pieces) caps ∅) as [Hl _]; [done|lia|done|].
  split.
  - intros name Hin. apply list_elem_of_lookup in Hin as [i Hi].
    destruct (lookup_lt_is_Some_2 caps i) as [cap Hcap].
    { rewrite Hg. by eapply lookup_lt_Some. }
    exists cap. by apply (Hl i).
  - exists before, after. by rewrite (fill_assemble _ pieces caps).
Qed.

Lemma binding_rebuilds_the_match_witness :
  let pieces := [Text (str "a"); Hole (str "x")] in
  (forall name, name ∈ holes pieces ->
     is_Some (currentSetterValues (render pieces) (str "ba1") !! name))
  /\ exists before after,
       str "ba1"
       = before ++ fill (currentSetterValues (render pieces) (str "ba1")) pieces ++ after.
Proof.
  apply (binding_rebuilds_the_match [Text (str "a"); Hole (str "x")] (str "ba1")).
  - repeat constructor; apply (bool_decide_unpack _); vm_compute; exact I.
  - apply (bool_decide_unpack _). vm_compute. exact I.
  - vm_compute. reflexivity.
  - intros Hm. apply (f_equal (fun m => m !! str "x")) in Hm. vm_compute in Hm. discriminate.
Defined.

(** C1 as stated fails: the expression is not anchored.  The pattern
    [a${x}] finds its match inside the value [ba1] and binds [x] to [1]; the
    pattern with [1] in the place of the placeholder is [a1], not the value. *)
Lemma binding_does_not_rebuild_the_value :
  let pattern := str "a${x}" in
  let value := str "ba1" in
  currentSetterValues pattern value = {[ str "x" := str "1" ]}
  /\ currentSetterValues pattern value ≠ ∅
  /\ ReplaceAll pattern (str "${x}") (str "1") = str "a1"
  /\ fill (currentSetterValues pattern value) [Text (str "a"); Hole (str "x")] = str "a1"
  /\ str "a1" ≠ value.
Proof.
  assert (currentSetterValues (str "a${x}") (str "ba1") = {[ str "x" := str "1" ]}) as E
    by (vm_compute; reflexivity).
  cbv zeta. rewrite E. split; [done|]. split.
  - intros Hm. apply (f_equal (fun m => m !! str "x")) in Hm.
    by rewrite lookup_singleton_eq, lookup_empty in Hm.
  - split; [vm_compute; reflexivity|]. split; [vm_compute; reflexivity|discriminate].
Qed.

(** The condition on U+FFFD is needed: it is the rune the matcher reads for
    a byte that starts no well-formed encoding.  The pattern [${x}] followed
    by U+FFFD binds [x] to [1] in the value made of [1] and the byte 255,
    which holds no U+FFFD. *)
Lemma replacement_character_takes_an_ill_formed_byte :
  let pattern := placeholder (str "x") ++ RuneError in
  let value := str "1" ++ [ascii_of_nat 255] in
  currentSetterValues pattern value = {[ str "x" := str "1" ]}
  /\ Contains pattern RuneError = true
  /\ forall before after, value ≠ before ++ (str "1" ++ RuneError) ++ after.
Proof.
  split; [vm_compute; reflexivity|]. split; [vm_compute; reflexivity|].
  intros before after Hv. apply (f_equal length) in Hv.
  rewrite !length_app in Hv. simpl in Hv. lia.
Qed.

(** ** The fragment suffices *)

Lemma QuoteMeta_units (s : gostring) : QuoteMeta s = units_text (Lit <$> s).
Proof.
  induction s as [|c s IH]; [done|]. rewrite fmap_cons. unfold units_text.
  rewrite bind_cons. cbn [QuoteMeta unit_text]. fold (units_text (Lit <$> s)).
  rewrite IH. by destruct (is_special c).
Qed.

Lemma units_text_cons (i : inst) (p : prog) : units_text (i :: p) = unit_text i ++ units_text p.
Proof. done. Qed.

Lemma units_text_app (p q : prog) : units_text (p ++ q) = units_text p ++ units_text q.
Proof. unfold units_text. apply bind_app. Qed.

Lemma head_units_text (p : prog) : head (units_text p) ≠ Some dollar.
Proof.
  destruct p as [|[c|] p]; [done| |done]. rewrite units_text_cons. cbn [unit_text].
  destruct (is_special c) eqn:Hc; simpl; [done|]. intros [= ->]. by vm_compute in Hc.
Qed.

(** No unit is the beginning of another: an occurrence of literal units
    begins and ends between units. *)
Lemma units_prefix (s : gostring) (p : prog) :
  units_text (Lit <$> s) `prefix_of` units_text p -> (Lit <$> s) `prefix_of` p.
Proof.
  revert p. induction s as [|c s IH]; intros p Hp; [apply prefix_nil|].
  rewrite fmap_cons, units_text_cons in Hp. cbn [unit_text] in Hp.
  destruct p as [|[d|] p].
  - destruct (is_special c); by apply prefix_nil_not in Hp.
  - rewrite units_text_cons in Hp. cbn [unit_text] in Hp.
    destruct (is_special c) eqn:Hc, (is_special d) eqn:Hd; simpl in Hp.
    + apply prefix_cons_inv_2 in Hp. pose proof (prefix_cons_inv_1 _ _ _ _ Hp) as ->.
      apply prefix_cons_inv_2 in Hp. rewrite fmap_cons. by apply prefix_cons, IH.
    + apply prefix_cons_inv_1 in Hp as <-. by vm_compute in Hd.
    + apply prefix_cons_inv_1 in Hp as ->. by vm_compute in Hc.
    + pose proof (prefix_cons_inv_1 _ _ _ _ Hp) as ->.
      apply prefix_cons_inv_2 in Hp. rewrite fmap_cons. by apply prefix_cons, IH.
  - rewrite units_text_cons in Hp. cbn [unit_text] in Hp.
    destruct (is_special c) eqn:Hc; simpl in Hp.
    + by apply prefix_cons_inv_1 in Hp.
    + apply prefix_cons_inv_1 in Hp as ->. by vm_compute in Hc.
Qed.

Lemma replace_all_drop {A} `{EqDecision A} (old new s : list A) (k : nat) :
  replace_all old new k s = replace_all old new 0 (drop k s).
Proof.
  revert k. induction s as [|c s IH]; intros [|k]; try done.
  simpl. apply IH.
Qed.

Lemma replace_all_first {A} `{EqDecision A} (b0 : A) (old new a rest : list A) :
  b0 ∉ a -> replace_all (b0 :: old) new 0 (a ++ rest) = a ++ replace_all (b0 :: old) new 0 rest.
Proof.
  induction a as [|c a IH]; intros Ha; [done|].
  rewrite <- !app_comm_cons, replace_all_step.
  - f_equal. apply IH. intros ?. apply Ha. by right.
  - intros Hp. apply prefix_cons_inv_1 in Hp as ->. apply Ha. left.
Qed.

Lemma replace_all_through_unit (old rest : gostring) (i : inst) :
  ¬ (backslash :: dollar :: old) `prefix_of` (unit_text i ++ rest) ->
  head rest ≠ Some dollar ->
  replace_all (backslash :: dollar :: old) capture_group 0 (unit_text i ++ rest)
  = unit_text i ++ replace_all (backslash :: dollar :: old) capture_group 0 rest.
Proof.
  intros Hnp Hr. destruct i as [c|]; cbn [unit_text] in *.
  - destruct (is_special c); cbn [app] in *.
    + rewrite replace_all_step by done. f_equal.
      rewrite replace_all_step; [done|]. intros Hp.
      apply prefix_cons_inv_2 in Hp. destruct rest as [|d rest].
      * by apply prefix_nil_not in Hp.
      * apply prefix_cons_inv_1 in Hp as <-. by apply Hr.
    + by rewrite replace_all_step.
  - apply replace_all_first. apply (bool_decide_unpack _). vm_compute. exact I.
Qed.

(** Replacing an escaped placeholder in the text of units replaces whole
    units. *)
Lemma replace_all_units (s : gostring) (p : prog) :
  replace_all (units_text (Lit <$> (dollar :: s))) capture_group 0 (units_text p)
  = units_text (replace_all (Lit <$> (dollar :: s)) [CaptureAny] 0 p).
Proof.
  remember (length p) as n eqn:Hn. revert p Hn.
  induction n as [n IH] using lt_wf_ind. intros p ->.
  destruct p as [|i p]; [done|].
  destruct (decide ((Lit <$> (dollar :: s)) `prefix_of` (i :: p))) as [[q Hq]|Hnp].
  - rewrite Hq, units_text_app.
    rewrite !replace_all_match by done.
    rewrite units_text_app. f_equal.
    apply (IH (length q)); [|done].
    apply (f_equal length) in Hq. rewrite length_app, fmap_cons in Hq. simpl in *. lia.
  - rewrite (replace_all_step _ _ i p) by done.
    rewrite !units_text_cons. rewrite <- (IH (length p)); [|simpl; lia|done].
    assert (¬ units_text (Lit <$> (dollar :: s)) `prefix_of` (unit_text i ++ units_text p)) as Hnc.
    { rewrite <- units_text_cons. intros Hp. by apply units_prefix in Hp. }
    rewrite fmap_cons, units_text_cons in *.
    change (unit_text (Lit dollar) ++ ?x) with (backslash :: dollar :: x) in *.
    apply replace_all_through_unit; [done|apply head_units_text].
Qed.

Lemma parse_units (p : prog) : parse PNormal (units_text p) = Some p.
Proof.
  induction p as [|[c|] p IH]; [done| |]; rewrite units_text_cons.
  - cbn [unit_text]. destruct (is_special c) eqn:Hc; cbn [app]; rewrite parse_normal_cons.
    + rewrite decide_True by done. by rewrite parse_escaped_cons, Hc, IH.
    + rewrite decide_False by (intros ->; by vm_compute in Hc).
      unfold capture_group at 1. cbn [str list_ascii_of_string app].
      rewrite HasPrefix_head by (intros ->; by vm_compute in Hc).
      by rewrite Hc, IH.
  - cbn [unit_text]. by rewrite parse_group, IH.
Qed.

Lemma find_placeholders_dollar (s : gostring) (k : nat) :
  Forall (fun u => exists body, u = dollar :: body) (find_placeholders k s).
Proof.
  revert k. induction s as [|c s IH]; intros k; [constructor|].
  destruct k as [|k]; [|apply IH]. rewrite find_placeholders_0.
  destruct (HasPrefix _ _); [|apply IH].
  destruct (until_brace _) as [body|]; [|apply IH].
  constructor; [by eexists|apply IH].
Qed.

(** Whatever the pattern, its expression is a text of units: when it is valid
    UTF-8, [Compile] accepts it. *)
Lemma setter_expr_units (pattern : gostring) :
  exists p, setter_expr pattern = units_text p.
Proof.
  unfold setter_expr. rewrite QuoteMeta_units.
  generalize (Lit <$> pattern). 
  pose proof (find_placeholders_dollar pattern 0) as Hu. fold (unresolvedSetters pattern) in Hu.
  induction Hu as [|u urs [body ->] _ IH]; intros p; [by exists p|].
  cbn [foldl]. rewrite ReplaceAll_nonempty by done.
  rewrite QuoteMeta_units, replace_all_units. apply IH.
Qed.

Lemma Compile_setter_expr (pattern : gostring) :
  ValidString (setter_expr pattern) = true -> is_Some (Compile (setter_expr pattern)).
Proof.
  intros Hv. unfold Compile. rewrite Hv.
  destruct (setter_expr_units pattern) as [p ->]. rewrite parse_units. by eexists.
Qed.

(* ===================================================================== *)
(** * Further properties *)
(* ===================================================================== *)

(** ** The placeholders of any pattern *)

Lemma until_brace_Some (s body : gostring) :
  until_brace s = Some body ->
  exists name rest, body = name ++ [rbrace] /\ (rbrace ∉ name) /\ s = body ++ rest.
Proof.
  revert body. induction s as [|c s IH]; intros body; simpl; [done|].
  case_decide as Hc.
  - intros [= <-]. exists [], s. subst c. split; [done|]. split; [apply not_elem_of_nil|done].
  - destruct (until_brace s) as [b|]; [|done]. intros [= <-].
    destruct (IH b eq_refl) as (name & rest & -> & Hn & ->).
    exists (c :: name), rest. split; [done|]. split; [|done].
    rewrite not_elem_of_cons. split; [|done]. intros Heq. apply Hc. by rewrite <- Heq.
Qed.

Lemma until_brace_None (s : gostring) : until_brace s = None <-> rbrace ∉ s.
Proof.
  induction s as [|c s IH]; simpl.
  - split; [intros _; apply not_elem_of_nil|done].
  - case_decide as Hc.
    + subst c. split; [done|]. intros Hn. exfalso. apply Hn. left.
    + rewrite not_elem_of_cons, <- IH. destruct (until_brace s); simpl.
      * split; [done|]. intros [_ [=]].
      * split; [|done]. intros _. split; [|done]. intros Heq. apply Hc. by rewrite <- Heq.
Qed.

Lemma find_placeholders_no_brace (k : nat) (s : gostring) :
  rbrace ∉ s -> find_placeholders k s = [].
Proof.
  revert k. induction s as [|c s IH]; intros k Hs; [by destruct k|].
  apply not_elem_of_cons in Hs as [Hc Hs].
  destruct k as [|k]; [|by apply IH].
  rewrite find_placeholders_0.
  assert (until_brace (drop 2 (c :: s)) = None) as ->.
  { apply until_brace_None. intros Hd. apply Hs.
    destruct s as [|d s]; simpl in Hd; [by apply not_elem_of_nil in Hd|]. by right. }
  rewrite IH by done. by destruct (HasPrefix _ _).
Qed.

Lemma Contains_cons (c : ascii) (s sub : gostring) :
  Contains (c :: s) sub = HasPrefix (c :: s) sub || Contains s sub.
Proof. reflexivity. Qed.

(** The stretches of a pattern: the text before each placeholder and its
    body, and the text after the last placeholder. *)
Lemma pattern_blocks (pattern : gostring) :
  exists (blocks : list (gostring * gostring)) (tail : gostring),
    pattern = concat ((fun tb => tb.1 ++ placeholder tb.2) <$> blocks) ++ tail
    /\ unresolvedSetters pattern = (fun tb => placeholder tb.2) <$> blocks
    /\ Forall (fun tb => Contains tb.1 (str "${") = false /\ (rbrace ∉ tb.2)) blocks
    /\ unresolvedSetters tail = [].
Proof.
  unfold unresolvedSetters.
  remember (length pattern) as n eqn:Hn.
  assert (length pattern <= n) as Hle by lia. clear Hn.
  revert pattern Hle. induction n as [|n IH]; intros pattern Hle.
  { destruct pattern; [|simpl in Hle; lia]. exists [], []. by repeat split. }
  destruct pattern as [|c s]; [exists [], []; by repeat split|].
  simpl in Hle. rewrite find_placeholders_0.
  destruct (HasPrefix (c :: s) (str "${")) eqn:Hp.
  - destruct (until_brace (drop 2 (c :: s))) as [body|] eqn:Hb.
    + apply HasPrefix_spec in Hp as [r Hr].
      rewrite Hr in Hb. simpl in Hb. rewrite drop_0 in Hb.
      destruct (until_brace_Some _ _ Hb) as (name & rest & -> & Hname & ->).
      injection Hr as -> ->.
      replace (find_placeholders (1 + length (name ++ [rbrace]))
                 ("{"%char :: (name ++ [rbrace]) ++ rest))
        with (find_placeholders 0 rest).
      2:{ change ("{"%char :: (name ++ [rbrace]) ++ rest)
            with (("{"%char :: name ++ [rbrace]) ++ rest).
          by rewrite <- (find_placeholders_skip ("{"%char :: name ++ [rbrace]) rest). }
      destruct (IH rest) as (segs & tail & Hpat & Hurs & Hsegs & Htail).
      { simpl in Hle. rewrite !length_app in Hle. lia. }
      exists (([], name) :: segs), tail. split; [|split; [|split]].
      * rewrite fmap_cons, concat_cons. cbn [fst snd].
        rewrite app_nil_l, <- (app_assoc (placeholder name)), <- Hpat. unfold placeholder. simpl.
        by rewrite <- ?app_assoc.
      * rewrite fmap_cons. cbn [snd]. rewrite Hurs. unfold placeholder. simpl.
        by rewrite <- ?app_assoc.
      * constructor; [|done]. by split.
      * done.
    + assert (rbrace ∉ s) as Hs.
      { apply until_brace_None in Hb. apply HasPrefix_spec in Hp as [r Hr].
        rewrite Hr in Hb. simpl in Hb. rewrite drop_0 in Hb.
        injection Hr as -> ->. rewrite not_elem_of_cons. by split. }
      exists [], (c :: s). split; [done|]. split; [|split; [done|]].
      * by apply find_placeholders_no_brace.
      * rewrite find_placeholders_0, Hp, Hb. by apply find_placeholders_no_brace.
  - destruct (IH s) as (segs & tail & Hpat & Hurs & Hsegs & Htail); [lia|].
    destruct segs as [|[t u] segs].
    + exists [], (c :: s). split; [done|]. split; [by rewrite Hurs|]. split; [done|].
      rewrite find_placeholders_0, Hp. by rewrite Hurs.
    + exists ((c :: t, u) :: segs), tail. split; [|split; [|split]].
      * simpl in *. by rewrite Hpat.
      * by rewrite Hurs.
      * apply Forall_cons in Hsegs as [[Ht Hbody] Hsegs].
        constructor; [|done]. simpl in *. split; [|done].
        rewrite Contains_cons, Ht, orb_false_r.
        rewrite Hpat in Hp.
        destruct t as [|d t]; [done|]. exact Hp.
      * done.
Qed.

(** A text in which a [${] is followed, anywhere later, by a closing brace
    has a placeholder. *)
Lemma find_placeholders_finds (a body b : gostring) :
  find_placeholders 0 (a ++ placeholder body ++ b) ≠ [].
Proof.
  assert (forall s, rbrace ∈ s -> is_Some (until_brace s)) as Hsome.
  { intros s Hs. destruct (until_brace s) eqn:Hu; [by eexists|].
    by apply until_brace_None in Hu. }
  induction a as [|c a IH].
  - unfold placeholder.
    assert (E : [] ++ (str "${" ++ body ++ str "}") ++ b
                = "$"%char :: "{"%char :: body ++ "}"%char :: b)
      by (simpl; by rewrite <- app_assoc).
    rewrite E, find_placeholders_0.
    assert (HasPrefix ("$"%char :: "{"%char :: body ++ "}"%char :: b) (str "${") = true)
      as -> by reflexivity.
    replace (drop 2 ("$"%char :: "{"%char :: body ++ "}"%char :: b))
      with (body ++ "}"%char :: b) by reflexivity.
    destruct (Hsome (body ++ "}"%char :: b)) as [x ->]; [|done].
    apply elem_of_app. right. left.
  - rewrite <- app_comm_cons, find_placeholders_0.
    destruct (HasPrefix _ _); [|done]. by destruct (until_brace _).
Qed.

(** X1: every pattern is a run of gaps and placeholders followed by a tail:
    [unresolvedSetters] returns the placeholders, in order; each is a [${], a
    body free of closing braces and a closing brace; no gap contains [${],
    and the tail has no [${] with a closing brace anywhere after it. *)
Theorem placeholders_partition_the_pattern (pattern : gostring) :
  exists (segs : list (gostring * gostring)) (tail : gostring),
    pattern = concat ((fun tu => tu.1 ++ tu.2) <$> segs) ++ tail
    /\ unresolvedSetters pattern = segs.*2
    /\ Forall (fun tu => (forall a b, tu.1 ≠ a ++ str "${" ++ b)
                         /\ exists body, tu.2 = placeholder body /\ (rbrace ∉ body)) segs
    /\ (forall a body b, tail ≠ a ++ placeholder body ++ b).
Proof.
  destruct (pattern_blocks pattern) as (blocks & tail & Hpat & Hurs & Hblocks & Htail).
  exists ((fun tb => (tb.1, placeholder tb.2)) <$> blocks), tail.
  split; [|split; [|split]].
  - by rewrite <- list_fmap_compose.
  - by rewrite <- list_fmap_compose.
  - apply Forall_fmap. eapply Forall_impl; [exact Hblocks|].
    intros [t body] [Ht Hbody]. split; [by apply Contains_false|]. by exists body.
  - intros a body b Heq. rewrite Heq in Htail. by apply find_placeholders_finds in Htail.
Qed.

(** ** Trimming *)

Lemma trim_left_suffix (encs : list gostring) (k : nat) (s : gostring) :
  Forall (fun e => e ≠ []) encs ->
  trim_left encs k s `suffix_of` s
  /\ space_width encs (trim_left encs k s) = 0.
Proof.
  intros Hne.
  assert (space_width encs [] = 0) as Hnil.
  { unfold space_width. destruct (find _ encs) as [e|] eqn:He; [|done].
    apply find_some in He as [Hin He]. rewrite Forall_forall in Hne.
    apply list_elem_of_In, Hne in Hin. by destruct e. }
  revert k. induction s as [|c s IH]; intros k.
  - by destruct k.
  - destruct k as [|k]; simpl.
    + destruct (space_width encs (c :: s)) as [|w] eqn:Hw; [done|].
      destruct (IH w) as [Hs Hz]. split; [by apply suffix_cons_r|done].
    + destruct (IH k) as [Hs Hz]. split; [by apply suffix_cons_r|done].
Qed.

Lemma space_width_0 (encs : list gostring) (s : gostring) :
  Forall (fun e => e ≠ []) encs ->
  space_width encs s = 0 <-> Forall (fun e => ¬ e `prefix_of` s) encs.
Proof.
  intros Hne. unfold space_width. rewrite !Forall_forall in *. split.
  - intros Hw e He Hp. destruct (find (HasPrefix s) encs) as [e'|] eqn:Hf.
    + apply find_some in Hf as [Hin _]. apply list_elem_of_In, Hne in Hin. by destruct e'.
    + apply list_elem_of_In in He. apply (find_none _ _ Hf e) in He.
      apply HasPrefix_spec in Hp. congruence.
  - intros Hall. destruct (find (HasPrefix s) encs) as [e'|] eqn:Hf; [|done].
    apply find_some in Hf as [Hin Hp]. apply list_elem_of_In in Hin.
    apply HasPrefix_spec in Hp. by apply Hall in Hp.
Qed.

Lemma space_encodings_nonempty : Forall (fun e : gostring => e ≠ []) space_encodings.
Proof. vm_compute. repeat constructor; discriminate. Qed.

Lemma reversed_encodings_nonempty :
  Forall (fun e : gostring => e ≠ []) (reverse <$> space_encodings).
Proof. vm_compute. repeat constructor; discriminate. Qed.

Lemma TrimSpace_trimmed (s : gostring) :
  Forall (fun w => ¬ w `prefix_of` TrimSpace s /\ ¬ w `suffix_of` TrimSpace s) space_encodings
  /\ TrimSpace (TrimSpace s) = TrimSpace s.
Proof.
  unfold TrimSpace at 1 2 4.
  set (y := trim_left space_encodings 0 s).
  set (z := trim_left (reverse <$> space_encodings) 0 (reverse y)).
  destruct (trim_left_suffix space_encodings 0 s space_encodings_nonempty) as [_ Hy].
  destruct (trim_left_suffix _ 0 (reverse y) reversed_encodings_nonempty) as [Hzy Hz].
  fold y in Hy. fold z in Hzy, Hz.
  assert (reverse z `prefix_of` y) as Hry.
  { rewrite <- (reverse_involutive y). by apply suffix_prefix_reverse. }
  apply (space_width_0 _ _ space_encodings_nonempty) in Hy as Hy'.
  apply (space_width_0 _ _ reversed_encodings_nonempty) in Hz as Hz'.
  assert (Forall (fun w => ¬ w `prefix_of` reverse z) space_encodings) as Hpre.
  { eapply Forall_impl; [exact Hy'|]. intros w Hw Hp. apply Hw. by etrans. }
  split.
  - rewrite Forall_forall in *. intros w Hw. split; [by apply Hpre|].
    intros Hs. apply (Hz' (reverse w)).
    + apply list_elem_of_fmap. by exists w.
    + by apply suffix_prefix_reverse in Hs; rewrite reverse_involutive in Hs.
  - unfold TrimSpace.
    rewrite (trim_left_nonspace _ (reverse z)).
    2:{ by apply (space_width_0 _ _ space_encodings_nonempty). }
    by rewrite reverse_involutive, (trim_left_nonspace _ z Hz).
Qed.

Lemma extractSetterPattern_trimmed (lineComment : gostring) :
  Forall (fun w => ¬ w `prefix_of` extractSetterPattern lineComment
                   /\ ¬ w `suffix_of` extractSetterPattern lineComment) space_encodings
  /\ TrimSpace (extractSetterPattern lineComment) = extractSetterPattern lineComment.
Proof.
  unfold extractSetterPattern.
  destruct (negb (HasPrefix lineComment SetterCommentIdentifier)).
  - split; [|reflexivity].
    eapply Forall_impl; [exact space_encodings_nonempty|]. intros w Hw. split.
    + intros Hp. apply prefix_nil_inv in Hp. done.
    + intros Hs. apply suffix_nil_inv in Hs. done.
  - apply TrimSpace_trimmed.
Qed.

(** X2: the pattern [extractSetterPattern] returns neither begins nor ends with
    a white-space rune; trimming it again changes nothing, so that [clean]
    only strips the braces from it. *)
Theorem extracted_pattern_is_trimmed (lineComment : gostring) :
  Forall (fun w => ¬ w `prefix_of` extractSetterPattern lineComment
                   /\ ¬ w `suffix_of` extractSetterPattern lineComment) space_encodings
  /\ TrimSpace (extractSetterPattern lineComment) = extractSetterPattern lineComment
  /\ clean (extractSetterPattern lineComment)
     = TrimSuffix (TrimPrefix (extractSetterPattern lineComment) (str "${")) (str "}").
Proof.
  destruct (extractSetterPattern_trimmed lineComment) as [Hends Htrim].
  split; [done|]. split; [done|]. unfold clean. by rewrite Htrim.
Qed.

(** ** White space around the pattern *)

Lemma trim_right_space (w rest : gostring) :
  w ∈ space_encodings ->
  trim_left (reverse <$> space_encodings) 0 (reverse w ++ rest)
  = trim_left (reverse <$> space_encodings) 0 rest.
Proof.
  intros Hw. apply list_elem_of_In in Hw. vm_compute in Hw.
  repeat (destruct Hw as [<-|Hw]; [reflexivity|]). done.
Qed.

Lemma trim_left_spaces (ws : list gostring) (rest : gostring) :
  Forall (fun w => w ∈ space_encodings) ws ->
  trim_left space_encodings 0 (concat ws ++ rest) = trim_left space_encodings 0 rest.
Proof.
  induction 1 as [|w ws Hw _ IH]; [done|].
  simpl. by rewrite <- app_assoc, trim_left_space.
Qed.

Lemma trim_right_spaces (ws : list gostring) (rest : gostring) :
  Forall (fun w => w ∈ space_encodings) ws ->
  trim_left (reverse <$> space_encodings) 0 (reverse (concat ws) ++ rest)
  = trim_left (reverse <$> space_encodings) 0 rest.
Proof.
  intros Hws. revert rest. induction Hws as [|w ws Hw _ IH]; intros rest; [done|].
  simpl. rewrite reverse_app, <- app_assoc, IH. by apply trim_right_space.
Qed.

(** The bytes after the first of a white-space rune are continuation bytes,
    and the first is not. *)
Lemma space_encodings_shape :
  Forall (fun e => match e with
                   | [] => False
                   | b :: e' => is_cont b = false /\ Forall (fun c => is_cont c = true) e'
                   end) space_encodings.
Proof. vm_compute. repeat constructor. Qed.

Lemma no_space_across (p : gostring) (ws : list gostring) (e : gostring) :
  Forall (fun w => w ∈ space_encodings) ws -> e ∈ space_encodings ->
  p ≠ [] -> ¬ e `prefix_of` p -> ¬ e `prefix_of` p ++ concat ws.
Proof.
  intros Hws He Hp Hep [r Hr].
  destruct (decide (length e <= length p)) as [Hle|Hgt].
  { apply Hep. apply (f_equal (take (length e))) in Hr.
    rewrite take_app_le in Hr by lia. rewrite take_app_length in Hr.
    rewrite <- Hr. apply prefix_take. }
  pose proof space_encodings_shape as Hshape. rewrite Forall_forall in Hshape.
  destruct ws as [|w ws].
  { simpl in Hr. rewrite app_nil_r in Hr. apply (f_equal length) in Hr.
    rewrite length_app in Hr. lia. }
  apply Forall_cons in Hws as [Hw _].
  pose proof (Hshape e He) as Hse. pose proof (Hshape w Hw) as Hsw.
  destruct w as [|b w]; [done|]. destruct Hsw as [Hb _].
  destruct e as [|b0 e]; [done|]. destruct Hse as [_ Hcont].
  destruct p as [|c p]; [done|].
  simpl in Hr. injection Hr as -> Hr.
  assert (is_cont b = true); [|congruence].
  rewrite Forall_forall in Hcont. apply Hcont.
  apply (f_equal (fun l => l !! length p)) in Hr.
  rewrite lookup_app_r in Hr by lia. rewrite Nat.sub_diag in Hr. simpl in Hr.
  rewrite lookup_app_l in Hr by (simpl in Hgt; lia).
  by eapply list_elem_of_lookup_2.
Qed.

(** X3: white space between the marker and the pattern and after the pattern
    does not count: a comment made of the marker, white-space runes, a
    pattern that neither begins nor ends with one, and white-space runes
    again, yields that pattern. *)
Theorem padding_around_the_pattern_is_ignored (ws1 ws2 p : gostring) :
  all_space ws1 -> all_space ws2 -> TrimSpace p = p ->
  extractSetterPattern (SetterCommentIdentifier ++ ws1 ++ p ++ ws2) = p.
Proof.
  intros (l1 & Hl1 & ->) (l2 & Hl2 & ->) Hp.
  unfold extractSetterPattern. rewrite HasPrefix_app, TrimPrefix_app. cbn [negb].
  destruct (decide (p = [])) as [->|Hne].
  { apply TrimSpace_all_space. exists (l1 ++ l2). split; [by apply Forall_app|].
    by rewrite concat_app. }
  destruct (TrimSpace_trimmed p) as [Hends _]. rewrite Hp in Hends.
  unfold TrimSpace. rewrite trim_left_spaces by done.
  rewrite (trim_left_nonspace _ (p ++ concat l2)).
  2:{ apply (space_width_0 _ _ space_encodings_nonempty), Forall_forall.
      intros e He Hpre. apply (no_space_across p l2 e Hl2 He Hne); [|done].
      rewrite Forall_forall in Hends. by apply Hends. }
  rewrite reverse_app, trim_right_spaces by done.
  rewrite trim_left_nonspace; [by rewrite reverse_involutive|].
  apply (space_width_0 _ _ reversed_encodings_nonempty), Forall_forall.
  intros e' He'. apply list_elem_of_fmap in He' as (e & -> & He).
  intros Hpre. rewrite Forall_forall in Hends. apply (Hends e He).
  apply suffix_prefix_reverse. exact Hpre.
Qed.

Lemma padding_around_the_pattern_is_ignored_witness :
  extractSetterPattern (SetterCommentIdentifier ++ str "  " ++ str "${image}:${tag}" ++ str " ")
  = str "${image}:${tag}".
Proof.
  apply (padding_around_the_pattern_is_ignored (str "  ") (str " ") (str "${image}:${tag}")).
  - exists [str " "; str " "]. split; [|reflexivity].
    repeat constructor; apply (bool_decide_unpack _); vm_compute; exact I.
  - exists [str " "]. split; [|reflexivity].
    repeat constructor; apply (bool_decide_unpack _); vm_compute; exact I.
  - vm_compute. reflexivity.
Defined.

(** ** What the resolver binds *)

Lemma find_placeholders_shape (k : nat) (s u : gostring) :
  u ∈ find_placeholders k s -> exists body, u = placeholder body /\ (rbrace ∉ body).
Proof.
  revert k. induction s as [|c s IH]; intros k; [destruct k; simpl; by rewrite elem_of_nil|].
  destruct k as [|k]; [|by apply IH].
  rewrite find_placeholders_0.
  destruct (HasPrefix (c :: s) (str "${")); [|by apply IH].
  destruct (until_brace (drop 2 (c :: s))) as [body|] eqn:Hb; [|by apply IH].
  rewrite elem_of_cons. intros [->|Hu]; [|by eapply IH].
  clear IH. revert body Hb. generalize (drop 2 (c :: s)). clear c s.
  intros s. induction s as [|c s IH]; intros body; simpl; [done|].
  case_decide as Hc.
  - intros [= <-]. exists []. split; [by subst c|apply not_elem_of_nil].
  - destruct (until_brace s) as [b|]; [|done]. intros [= <-].
    destruct (IH b eq_refl) as (name & Hn & Hname).
    exists (c :: name). split.
    + unfold placeholder in *. simpl in *. by simplify_eq.
    + rewrite not_elem_of_cons. split; [|done]. intros Heq. apply Hc. by rewrite <- Heq.
Qed.

Lemma bind_setters_sound (urs caps : list gostring) (res : gmap gostring gostring)
    (name x : gostring) :
  bind_setters urs caps res !! name = Some x ->
  res !! name = Some x
  \/ exists i u, urs !! i = Some u /\ caps !! i = Some x /\ clean u = name /\ x ≠ [].
Proof.
  revert urs res. induction caps as [|cap caps IH]; intros [|u urs] res; cbn [bind_setters];
    try (by left).
  case_decide as Hcap; [by rewrite lookup_empty|].
  intros Hb. apply IH in Hb as [Hb|(i & u' & Hu & Hc & Hcl & Hx)].
  - rewrite lookup_insert in Hb. case_decide as Hk; [|by left].
    right. exists 0, u. by simplify_eq.
  - right. by exists (S i), u'.
Qed.

(** The bytes after the first of a rune of more than one byte are not
    newlines. *)
Lemma rune_width_pending (c : ascii) (s : gostring) (i : nat) (d : ascii) :
  i < rune_width (c :: s) - 1 -> s !! i = Some d -> d ≠ newline.
Proof.
  assert (forall lo hi e, 0x80 <= lo -> byte_in lo hi e = true -> e ≠ newline) as Hb.
  { intros lo hi e Hlo He ->. unfold byte_in in He. apply andb_prop in He as [He _].
    apply Nat.leb_le in He. change (nat_of_ascii newline) with 10 in He. lia. }
  assert (forall e, is_cont e = true -> e ≠ newline) as Hc.
  { intros e. apply Hb. lia. }
  cbn [rune_width].
  destruct (nat_of_ascii c <? 194); [simpl; lia|].
  destruct (nat_of_ascii c <? 224).
  { destruct s as [|b1 s]; [simpl; lia|].
    destruct (is_cont b1) eqn:H1; [|simpl; lia].
    destruct i as [|i]; [|simpl; lia]. intros _ [= <-]. by apply Hc. }
  destruct (nat_of_ascii c <? 240).
  { destruct s as [|b1 [|b2 s]]; try (simpl; lia).
    destruct (byte_in _ _ b1 && is_cont b2) eqn:H12; [|simpl; lia].
    apply andb_prop in H12 as [H1 H2].
    destruct i as [|[|i]]; [| |simpl; lia]; intros _ [= <-].
    - eapply Hb; [|exact H1]. destruct (nat_of_ascii c =? 224); lia.
    - by apply Hc. }
  destruct (nat_of_ascii c <? 245); [|simpl; lia].
  destruct s as [|b1 [|b2 [|b3 s]]]; try (simpl; lia).
  destruct (byte_in _ _ b1 && is_cont b2 && is_cont b3) eqn:H123; [|simpl; lia].
  apply andb_prop in H123 as [H12 H3]. apply andb_prop in H12 as [H1 H2].
  destruct i as [|[|[|i]]]; [| | |simpl; lia]; intros _ [= <-].
  - eapply Hb; [|exact H1]. destruct (nat_of_ascii c =? 240); lia.
  - by apply Hc.
  - by apply Hc.
Qed.

Lemma star_no_newline (rest : gostring -> option (gostring * list gostring))
    (s : gostring) (k : nat) (cap m : gostring) (caps : list gostring) :
  (forall i d, i < k -> s !! i = Some d -> d ≠ newline) ->
  star rest k s = Some (cap, m, caps) -> newline ∉ cap.
Proof.
  revert k cap. induction s as [|c s IH]; intros k cap Hk.
  - destruct k; simpl; [|done]. destruct (rest []) as [[m' caps']|]; [|done].
    intros [= <- <- <-]. apply not_elem_of_nil.
  - assert (forall k', c ≠ newline ->
              (forall i d, i < k' -> s !! i = Some d -> d ≠ newline) ->
              extend c (star rest k' s) = Some (cap, m, caps) -> newline ∉ cap) as Hext.
    { intros k' Hc Hk'. destruct (star rest k' s) as [[[cap' m'] caps']|] eqn:Hs; [|done].
      simpl. intros [= <- <- <-]. apply IH in Hs; [|done].
      rewrite not_elem_of_cons. split; [congruence|done]. }
    assert (('(m0, caps0) ← rest (c :: s); Some ([], m0, caps0)) = Some (cap, m, caps) ->
            newline ∉ cap) as Hstop.
    { destruct (rest (c :: s)) as [[m' caps']|]; [|done].
      simpl. intros [= <- <- <-]. apply not_elem_of_nil. }
    destruct k as [|k]; cbn [star].
    + destruct (decide (c = newline)); [apply Hstop|].
      destruct (extend c (star rest (rune_width (c :: s) - 1) s)) eqn:He; [|apply Hstop].
      intros [= ->]. revert He. apply Hext; [done|].
      intros i d. apply rune_width_pending.
    + apply Hext.
      * apply (Hk 0 c); [lia|done].
      * intros i d Hi Hd. apply (Hk (S i) d); [lia|done].
Qed.

Lemma match_here_no_newline (p : prog) (s m : gostring) (caps : list gostring) :
  match_here p s = Some (m, caps) -> Forall (fun cap => newline ∉ cap) caps.
Proof.
  revert s m caps. induction p as [|[c|] p IH IH2] using prog_ind3; intros s m caps.
  - by intros [= <- <-].
  - rewrite match_here_Lit. destruct s as [|c' s]; [done|].
    destruct (bool_decide _ && _).
    + destruct (match_here (drop 2 p) s) as [[m' caps']|] eqn:Hm; [|done]. simpl.
      intros [= <- <-]. by eapply IH2.
    + destruct (decide (c = c')); [|done].
      destruct (match_here p s) as [[m' caps']|] eqn:Hm; [|done]. simpl.
      intros [= <- <-]. by eapply IH.
  - cbn [match_here].
    destruct (star (match_here p) 0 s) as [[[cap m'] caps']|] eqn:Hs; [|done]. simpl.
    intros [= <- <-]. constructor.
    + eapply star_no_newline; [|exact Hs]. intros i d Hi. lia.
    + apply star_sound in Hs as (s' & _ & Hm). by eapply IH.
Qed.

(** X4: whatever the pattern and the value, a binding the resolver returns is
    sound: its name is that of a placeholder of the pattern, and its value is
    a part of the field's value that is not empty and holds no newline. *)
Theorem bindings_are_sound (pattern value name x : gostring) :
  currentSetterValues pattern value !! name = Some x ->
  placeholder name ∈ unresolvedSetters pattern
  /\ x ≠ []
  /\ (newline ∉ x)
  /\ exists before after, value = before ++ x ++ after.
Proof.
  unfold currentSetterValues.
  destruct (Compile (setter_expr pattern)) as [r|]; [|by rewrite lookup_empty].
  destruct (FindStringSubmatch r value) as [[|m caps]|] eqn:Hm;
    [by rewrite lookup_empty| |by rewrite lookup_empty].
  case_decide as Hlen; [by rewrite lookup_empty|].
  intros Hb. apply bind_setters_sound in Hb as [Hb|(i & u & Hu & Hc & Hcl & Hx)];
    [by rewrite lookup_empty in Hb|].
  apply search_match in Hm as (before & after & -> & Hm).
  apply match_here_no_newline in Hm as Hnl.
  apply match_here_sound in Hm as ([after' ->] & Hg & Hpart).
  split; [|split; [done|split]].
  - apply list_elem_of_lookup_2 in Hu as Hin.
    destruct (find_placeholders_shape _ _ _ Hin) as (body & -> & _).
    rewrite clean_placeholder in Hcl. by subst body.
  - rewrite Forall_forall in Hnl. apply Hnl. by eapply list_elem_of_lookup_2.
  - destruct (Hpart i x Hc) as (a & b & ->).
    exists (before ++ a), (b ++ after'). by rewrite <- !app_assoc.
Qed.

Lemma bindings_are_sound_witness :
  placeholder (str "tag") ∈ unresolvedSetters (str "nginx:${tag}")
  /\ str "1.7" ≠ []
  /\ (newline ∉ str "1.7")
  /\ exists before after, str "img: nginx:1.7" = before ++ str "1.7" ++ after.
Proof.
  apply (bindings_are_sound (str "nginx:${tag}") (str "img: nginx:1.7") (str "tag") (str "1.7")).
  vm_compute. reflexivity.
Defined.

(** ** Placeholders side by side *)

(** A capture in front of a second capture: whenever the second could take
    some text, the first takes it. *)
Lemma star_before_star (r : gostring -> option (gostring * list gostring))
    (s : gostring) (k : nat) :
  let rest := fun s => '(cap, m, caps) ← star r 0 s; Some (cap ++ m, cap :: caps) in
  is_Some (star r k s) -> is_Some (star rest k s).
Proof.
  intros rest. revert k. induction s as [|c s IH]; intros k.
  - destruct k; simpl; [|by intros [? [=]]].
    unfold rest. simpl. destruct (r []) as [[m caps]|]; simpl; [by eexists|by intros [? [=]]].
  - assert (forall k', is_Some (extend c (star r k' s)) ->
                       is_Some (extend c (star rest k' s))) as Hext.
    { intros k' [x Hx]. destruct (star r k' s) as [[[cap m] caps]|] eqn:Hs; [|done].
      destruct (IH k') as [[[cap' m'] caps'] Hs']; [by rewrite Hs|].
      rewrite Hs'. by eexists. }
    destruct k as [|k]; cbn [star]; [|apply Hext].
    intros Hr.
    assert (is_Some (rest (c :: s))) as [[m caps] Hrest].
    { unfold rest. cbn [star]. destruct Hr as [[[cap m] caps] Hr]. rewrite Hr. by eexists. }
    rewrite Hrest. simpl.
    destruct (decide (c = newline)); [by eexists|].
    destruct (extend c (star rest _ s)); by eexists.
Qed.

Lemma star_star_empty (r : gostring -> option (gostring * list gostring))
    (s : gostring) (k : nat) (cap m : gostring) (caps : list gostring) :
  let rest := fun s => '(cap, m, caps) ← star r 0 s; Some (cap ++ m, cap :: caps) in
  star rest k s = Some (cap, m, caps) -> exists caps', caps = [] :: caps'.
Proof.
  intros rest. revert k cap. induction s as [|c s IH]; intros k cap.
  - destruct k; simpl; [|done]. unfold rest. simpl.
    destruct (r []) as [[m' caps']|]; [|done]. simpl. intros [= <- <- <-]. by eexists.
  - assert (forall k', extend c (star rest k' s) = Some (cap, m, caps) ->
                       exists caps', caps = [] :: caps') as Hext.
    { intros k'. destruct (star rest k' s) as [[[cap' m'] caps']|] eqn:Hs; [|done].
      simpl. intros [= <- <- <-]. by eapply IH. }
    destruct k as [|k]; cbn [star]; [|apply Hext].
    destruct (decide (c = newline)) as [->|Hc].
    { unfold rest. cbn [star]. rewrite decide_True by done.
      destruct (r (newline :: s)) as [[m' caps']|]; [|done]. simpl.
      intros [= <- <- <-]. by eexists. }
    destruct (extend c (star rest (rune_width (c :: s) - 1) s)) eqn:He.
    { intros [= ->]. by eapply Hext. }
    unfold rest at 1. cbn [star]. rewrite decide_False by done.
    destruct (extend c (star r (rune_width (c :: s) - 1) s)) as [[[cap' m'] caps']|] eqn:Her.
    { exfalso. destruct (star_before_star r s (rune_width (c :: s) - 1)) as [y Hy].
      - destruct (star r _ s); [by eexists|done].
      - fold rest in Hy. rewrite Hy in He. by destruct y as [[? ?] ?]. }
    destruct (r (c :: s)) as [[m' caps']|]; [|done]. simpl.
    intros [= <- <- <-]. by eexists.
Qed.

Lemma match_here_adjacent (p q : prog) (s m : gostring) (caps : list gostring) :
  match_here (p ++ CaptureAny :: CaptureAny :: q) s = Some (m, caps) -> [] ∈ caps.
Proof.
  revert s m caps. induction p as [|[c|] p IH IH2] using prog_ind3; intros s m caps.
  - cbn [app match_here].
    destruct (star _ 0 s) as [[[cap m'] caps']|] eqn:Hs; [|done]. simpl.
    intros [= <- <-]. apply star_star_empty in Hs as [caps'' ->].
    right. left.
  - rewrite <- app_comm_cons, match_here_Lit. destruct s as [|c' s]; [done|].
    destruct (bool_decide _ && _) eqn:Hb.
    + apply andb_prop in Hb as [Hb _]. apply bool_decide_eq_true_1 in Hb.
      apply RuneError_prefix_inv in Hb as (d & c2 & c3 & p' & [= <- Hp] & _).
      assert (exists p'', p = Lit c2 :: Lit c3 :: p''
                /\ p' = p'' ++ CaptureAny :: CaptureAny :: q) as (p'' & -> & ->).
      { destruct p as [|i1 [|i2 p'']]; simplify_eq/=. by eexists. }
      cbn [app drop] in *.
      destruct (match_here _ s) as [[m' caps']|] eqn:Hm; [|done]. simpl.
      intros [= <- <-]. by eapply IH2.
    + destruct (decide (c = c')); [|done].
      destruct (match_here _ s) as [[m' caps']|] eqn:Hm; [|done]. simpl.
      intros [= <- <-]. by eapply IH.
  - rewrite <- app_comm_cons. cbn [match_here].
    destruct (star _ 0 s) as [[[cap m'] caps']|] eqn:Hs; [|done]. simpl.
    intros [= <- <-]. apply star_sound in Hs as (s' & _ & Hm). right. by eapply IH.
Qed.

(** X5: a pattern with two placeholders side by side never resolves: the first
    takes all the text the two could share, the second is left empty, and the
    resolver then discards every binding. *)
Theorem adjacent_placeholders_never_resolve (before after : list piece)
    (a b value : gostring) :
  Forall piece_ok (before ++ Hole a :: Hole b :: after) ->
  currentSetterValues (render (before ++ Hole a :: Hole b :: after)) value = ∅.
Proof.
  intros Hok. unfold currentSetterValues.
  destruct (Compile _) as [r|] eqn:Hc; [|done].
  apply Compile_render in Hc as ->; [|done].
  destruct (FindStringSubmatch _ value) as [[|m caps]|] eqn:Hm; [done| |done].
  case_decide as Hlen; [done|].
  apply bind_setters_empty_capture; [done|].
  apply search_match in Hm as (s0 & s' & _ & Hm).
  unfold prog_of in Hm. rewrite bind_app, !bind_cons in Hm. cbn [app] in Hm.
  by apply match_here_adjacent in Hm.
Qed.

Lemma adjacent_placeholders_never_resolve_witness :
  currentSetterValues (str "v${major}${minor}") (str "v12") = ∅.
Proof.
  apply (adjacent_placeholders_never_resolve [Text (str "v")] [] (str "major") (str "minor")).
  repeat constructor; apply (bool_decide_unpack _); vm_compute; exact I.
Defined.

(** ** Two placeholders and the text between them *)

Lemma rune_width_app (s t : gostring) :
  rune_ok s = true -> rune_width (s ++ t) = rune_width s.
Proof.
  destruct s as [|b0 s]; [done|]. unfold rune_ok.
  rewrite <- app_comm_cons. cbn [rune_width].
  destruct (nat_of_ascii b0 <? 194) eqn:H0; [done|].
  assert ((nat_of_ascii b0 <? 128) = false) as ->.
  { apply Nat.ltb_ge. apply Nat.ltb_ge in H0. lia. }
  cbn [orb].
  destruct (nat_of_ascii b0 <? 224).
  { destruct s as [|b1 s]; [done|]. done. }
  destruct (nat_of_ascii b0 <? 240).
  { destruct s as [|b1 [|b2 s]]; try done. }
  destruct (nat_of_ascii b0 <? 245); [|done].
  destruct s as [|b1 [|b2 [|b3 s]]]; try done.
Qed.

Lemma valid_from_ascii (s : gostring) : ascii_only s -> ValidString s = true.
Proof.
  unfold ValidString. induction 1 as [|c s Hc Hs IH]; [done|].
  cbn [valid_from]. 
  assert ((nat_of_ascii c <? 194) = true) as H1 by (apply Nat.ltb_lt; lia).
  assert ((nat_of_ascii c <? 128) = true) as H2 by (apply Nat.ltb_lt; lia).
  unfold rune_ok. cbn [rune_width]. rewrite H1, H2. simpl. exact IH.
Qed.

(** A capture takes the longest text after which the rest of the expression
    matches. *)
Lemma star_greedy (rest : gostring -> option (gostring * list gostring))
    (u t m : gostring) (caps : list gostring) (k : nat) :
  valid_from k u = true -> k <= length u -> newline ∉ u ->
  rest t = Some (m, caps) ->
  (forall u' t', u ++ t = u' ++ t' -> length u < length u' -> rest t' = None) ->
  star rest k (u ++ t) = Some (u, m, caps).
Proof.
  intros Hv Hk Hnl Hrest Hlast. revert k Hv Hk t Hrest Hlast.
  induction u as [|c u IH]; intros k Hv Hk t Hrest Hlast.
  - destruct k; [|simpl in Hk; lia]. rewrite app_nil_l.
    destruct t as [|c t]; cbn [star]; [by rewrite Hrest|].
    destruct (decide (c = newline)); [by rewrite Hrest|].
    destruct (star rest (rune_width (c :: t) - 1) t) as [[[cap m'] caps']|] eqn:Hs.
    + apply star_sound in Hs as (s' & -> & Hr).
      rewrite (Hlast (c :: cap) s') in Hr; [done|done|simpl; lia].
    + simpl. by rewrite Hrest.
  - apply not_elem_of_cons in Hnl as [Hc Hnl].
    assert (forall k', valid_from k' u = true -> k' <= length u ->
              star rest k' (u ++ t) = Some (u, m, caps)) as Hu.
    { intros k' Hv' Hk'. apply IH; [done|done|done|done|].
      intros u' t' Heq Hlen. apply (Hlast (c :: u') t'); [by rewrite <- app_comm_cons, Heq|].
      simpl. lia. }
    rewrite <- app_comm_cons. destruct k as [|k]; cbn [star].
    + rewrite decide_False by congruence.
      cbn [valid_from] in Hv. apply andb_prop in Hv as [Hok Hv].
      rewrite app_comm_cons, (rune_width_app (c :: u) t Hok).
      rewrite Hu; [done|done|]. pose proof (rune_width_le (c :: u)) as Hw. cbn [length] in Hw. lia.
    + rewrite Hu; [done|done|]. simpl in Hk. lia.
Qed.

(** A byte below 128 is no byte of U+FFFD. *)
Lemma match_here_Lit_ascii (c : ascii) (p : prog) (s : gostring) :
  nat_of_ascii c < 128 ->
  match_here (Lit c :: p) s
  = match s with
    | [] => None
    | c' :: s' =>
      if decide (c = c') then '(m, caps) ← match_here p s'; Some (c' :: m, caps) else None
    end.
Proof.
  intros Hc. apply match_here_Lit_plain. intros Hp.
  apply RuneError_prefix_inv in Hp as (d & c2 & c3 & p' & [= <- _] & [= -> _ _]).
  vm_compute in Hc. lia.
Qed.

Lemma match_here_text (s : gostring) (p : prog) (rest : gostring) :
  ascii_only s ->
  match_here ((Lit <$> s) ++ p) (s ++ rest)
  = '(m, caps) ← match_here p rest; Some (s ++ m, caps).
Proof.
  induction 1 as [|c s Hc Hs IH].
  - simpl. by destruct (match_here p rest) as [[m caps]|].
  - rewrite fmap_cons, <- !app_comm_cons. rewrite match_here_Lit_ascii by done.
    rewrite decide_True by done. rewrite IH.
    by destruct (match_here p rest) as [[m caps]|].
Qed.

Lemma match_here_text_fails (s : gostring) (p : prog) (t : gostring) :
  ascii_only s -> ¬ s `prefix_of` t -> match_here ((Lit <$> s) ++ p) t = None.
Proof.
  intros Hs. revert t. induction Hs as [|c s Hc Hs IH]; intros t Hp.
  - exfalso. apply Hp, prefix_nil.
  - rewrite fmap_cons, <- app_comm_cons. rewrite match_here_Lit_ascii by done.
    destruct t as [|c' t]; [done|]. case_decide as Heq; [|done]. subst c'.
    rewrite IH; [done|]. intros Hpre. apply Hp. by apply prefix_cons.
Qed.

Lemma QuoteMeta_ascii (s : gostring) : ascii_only s -> ascii_only (QuoteMeta s).
Proof.
  induction 1 as [|c s Hc Hs IH]; [constructor|]. cbn [QuoteMeta].
  destruct (is_special c).
  - constructor; [vm_compute; lia|]. by constructor.
  - by constructor.
Qed.

Lemma capture_group_ascii : ascii_only capture_group.
Proof. unfold ascii_only. apply Forall_forall. intros c Hc. revert c Hc.
  apply Forall_forall. vm_compute. repeat constructor. Qed.

(** X6: for a pattern of two placeholders around a text, on one line: the first
    placeholder is greedy.  When the value is the pattern's leading text, a
    first part, the text in between and a second part, and the text in
    between does not occur again further to the right, the first name is
    bound to the first part and the second name to the second part; so the
    first part runs up to the last occurrence of the text in between. *)
Theorem first_placeholder_is_greedy (t sep a b u v : gostring) :
  ascii_only t -> ascii_only sep -> (dollar ∉ t) -> (dollar ∉ sep) ->
  (dollar ∉ a) -> (rbrace ∉ a) -> (dollar ∉ b) -> (rbrace ∉ b) -> a ≠ b ->
  ValidString u = true -> (newline ∉ u) -> (newline ∉ v) -> u ≠ [] -> v ≠ [] ->
  (forall i, 0 < i -> ¬ sep `prefix_of` drop i (sep ++ v)) ->
  currentSetterValues (t ++ placeholder a ++ sep ++ placeholder b) (t ++ u ++ sep ++ v)
  = {[ a := u; b := v ]}.
Proof.
  intros Ht Hsep Hdt Hdsep Hda Hra Hdb Hrb Hab Hu Hnu Hnv Hu0 Hv0 Hlast.
  set (pieces := [Text t; Hole a; Text sep; Hole b]).
  assert (render pieces = t ++ placeholder a ++ sep ++ placeholder b) as Hrender.
  { unfold render, pieces. simpl. by rewrite app_nil_r. }
  assert (Forall piece_ok pieces) as Hok by (by repeat constructor).
  rewrite <- Hrender. unfold currentSetterValues.
  assert (Compile (setter_expr (render pieces)) = Some (prog_of pieces)) as ->.
  { destruct (Compile_setter_expr (render pieces)) as [r Hr].
    - rewrite setter_expr_render by done. apply valid_from_ascii.
      unfold expr_with, pieces. simpl. rewrite !decide_True by set_solver.
      unfold ascii_only. rewrite !Forall_app.
      split; [by apply QuoteMeta_ascii|]. split; [apply capture_group_ascii|].
      split; [by apply QuoteMeta_ascii|]. split; [apply capture_group_ascii|constructor].
    - rewrite Hr. f_equal. by apply Compile_render. }
  rewrite unresolvedSetters_render by done.
  assert (match_here (prog_of pieces) (t ++ u ++ sep ++ v)
          = Some (t ++ u ++ sep ++ v, [u; v])) as Hm.
  { unfold prog_of, pieces. simpl.
    rewrite match_here_text by done. cbn [match_here].
    rewrite (star_greedy _ u (sep ++ v) (sep ++ v ++ []) [v] 0); [|done|lia|done| |].
    - simpl. by rewrite app_nil_r.
    - rewrite match_here_text by done. cbn [match_here].
      rewrite (star_all _ [] []); [done|done|done|lia].
    - intros u' t' Heq Hlen. apply match_here_text_fails; [done|].
      assert (t' = drop (length u' - length u) (sep ++ v)) as ->.
      { apply (f_equal (drop (length u'))) in Heq.
        rewrite drop_app_length in Heq. rewrite <- Heq.
        rewrite drop_app_ge by lia. done. }
      apply Hlast. lia. }
  unfold FindStringSubmatch. rewrite search_0, Hm.
  change (holes pieces) with [a; b]. cbn [fmap list_fmap length].
  rewrite decide_False by (intros Hn; by apply Hn).
  cbn [bind_setters]. rewrite !decide_False by done. rewrite !clean_placeholder.
  apply map_eq. intros k.
  destruct (decide (k = a)) as [->|Hka]; [|destruct (decide (k = b)) as [->|Hkb]].
  - rewrite lookup_insert_ne by done. by rewrite !lookup_insert_eq.
  - rewrite lookup_insert_eq, lookup_insert_ne by done. by rewrite lookup_singleton_eq.
  - rewrite !lookup_insert_ne by done. by rewrite lookup_empty, lookup_singleton_ne.
Qed.

Lemma first_placeholder_is_greedy_witness :
  currentSetterValues (str "app.${stage}.${tld}") (str "app.dev.example.com")
  = {[ str "stage" := str "dev.example"; str "tld" := str "com" ]}.
Proof.
  apply (first_placeholder_is_greedy (str "app.") (str ".") (str "stage") (str "tld")
           (str "dev.example") (str "com")).
  all: try (apply (bool_decide_unpack _); vm_compute; exact I).
  all: try (vm_compute; reflexivity).
  all: try discriminate.
  intros [|[|[|[|i]]]] Hi; try lia; simpl; intros [r Hr]; try discriminate.
  destruct i; simpl in Hr; discriminate.
Defined.

(** ** A name used more than once *)

Lemma bind_setters_other (names caps : list gostring) (res : gmap gostring gostring)
    (name : gostring) :
  ([] ∉ caps) -> name ∉ names ->
  bind_setters (placeholder <$> names) caps res !! name = res !! name.
Proof.
  revert caps res. induction names as [|n names IH]; intros [|cap caps] res Hc Hn; try done.
  apply not_elem_of_cons in Hc as [Hcap Hc]. apply not_elem_of_cons in Hn as [Hne Hn].
  rewrite fmap_cons. cbn [bind_setters]. rewrite decide_False by done.
  rewrite clean_placeholder, IH by done. by rewrite lookup_insert_ne.
Qed.

Lemma bind_setters_last (names caps : list gostring) (res : gmap gostring gostring)
    (i : nat) (name : gostring) :
  ([] ∉ caps) -> length names = length caps ->
  names !! i = Some name -> (forall j, i < j -> names !! j ≠ Some name) ->
  bind_setters (placeholder <$> names) caps res !! name = caps !! i.
Proof.
  revert caps res i. induction names as [|n names IH]; intros [|cap caps] res i Hc Hl Hi Hlast;
    try done.
  apply not_elem_of_cons in Hc as [Hcap Hc].
  rewrite fmap_cons. cbn [bind_setters]. rewrite decide_False by done.
  rewrite clean_placeholder. destruct i as [|i].
  - simpl in Hi. injection Hi as ->. rewrite bind_setters_other; [by rewrite lookup_insert_eq|done|].
    intros Hin. apply list_elem_of_lookup in Hin as [j Hj]. apply (Hlast (S j)); [lia|done].
  - simpl in Hi |- *. apply IH; [done|by simplify_eq/=|done|].
    intros j Hj. apply (Hlast (S j)). lia.
Qed.

(** X7: for a pattern made of text without dollar signs and of placeholders,
    even when a name is used more than once: when the resolver returns a
    binding that is not empty, the expression matched a part of the value
    with one capture for each placeholder, none empty and each a part of the
    match; a name is bound to the capture of its last placeholder, and
    nothing else is bound.  When the pattern holds no U+FFFD, the match is
    the text of the pattern with the captures in the place of the
    placeholders. *)
Theorem repeated_name_keeps_last_capture (pieces : list piece) (value : gostring) :
  Forall piece_ok pieces ->
  currentSetterValues (render pieces) value ≠ ∅ ->
  exists caps m before after,
    value = before ++ m ++ after
    /\ Forall (fun cap => exists a b, m = a ++ cap ++ b) caps
    /\ (Contains (render pieces) RuneError = false -> m = assemble (prog_of pieces) caps)
    /\ length caps = length (holes pieces)
    /\ ([] ∉ caps)
    /\ (forall i name, holes pieces !! i = Some name ->
          (forall j, i < j -> holes pieces !! j ≠ Some name) ->
          currentSetterValues (render pieces) value !! name = caps !! i)
    /\ (forall name, name ∉ holes pieces ->
          currentSetterValues (render pieces) value !! name = None).
Proof.
  intros Hok. unfold currentSetterValues.
  destruct (Compile (setter_expr (render pieces))) as [r|] eqn:Hc; [|done].
  apply Compile_render in Hc as ->; [|done].
  destruct (FindStringSubmatch _ value) as [[|m caps]|] eqn:Hm; [done| |done].
  apply search_match in Hm as (before & rest & -> & Hm).
  apply match_here_sound in Hm as Hsound. destruct Hsound as ([after ->] & Hg & Hpart).
  rewrite groups_prog_of in Hg. rewrite unresolvedSetters_render by done.
  rewrite length_fmap. case_decide as Hlen; [done|]. intros Hne.
  assert ([] ∉ caps) as Hcaps.
  { intros Hin. apply Hne. apply bind_setters_empty_capture; [|done].
    by rewrite length_fmap, Hg. }
  exists caps, m, before, after. split; [done|]. split.
  { apply Forall_forall. intros cap Hin. apply list_elem_of_lookup in Hin as [i Hi].
    by apply (Hpart i). }
  split.
  { intros Hfree. eapply match_here_assemble; [|exact Hm].
    by apply replacement_free_prog_of. }
  split; [done|]. split; [done|]. split.
  - intros i name Hi Hlast. by apply bind_setters_last.
  - intros name Hn. by rewrite bind_setters_other, lookup_empty.
Qed.

Lemma repeated_name_keeps_last_capture_witness :
  exists caps m before after,
    str "x-y" = before ++ m ++ after
    /\ Forall (fun cap => exists a b, m = a ++ cap ++ b) caps
    /\ (Contains (str "${a}-${a}") RuneError = false ->
        m = assemble (prog_of [Hole (str "a"); Text (str "-"); Hole (str "a")]) caps)
    /\ length caps = 2
    /\ ([] ∉ caps)
    /\ (forall i name, [str "a"; str "a"] !! i = Some name ->
          (forall j, i < j -> [str "a"; str "a"] !! j ≠ Some name) ->
          currentSetterValues (str "${a}-${a}") (str "x-y") !! name = caps !! i)
    /\ (forall name, name ∉ [str "a"; str "a"] ->
          currentSetterValues (str "${a}-${a}") (str "x-y") !! name = None).
Proof.
  apply (repeated_name_keeps_last_capture
           [Hole (str "a"); Text (str "-"); Hole (str "a")] (str "x-y")).
  - repeat constructor; apply (bool_decide_unpack _); vm_compute; exact I.
  - intros Hm. apply (f_equal (fun m => m !! str "a")) in Hm. vm_compute in Hm. discriminate.
Defined.

(** ** The groups of any pattern *)

Lemma setter_expr_prog (pattern : gostring) :
  setter_expr pattern = units_text (prog_expr pattern).
Proof.
  unfold setter_expr, prog_expr. rewrite QuoteMeta_units.
  generalize (Lit <$> pattern).
  pose proof (find_placeholders_dollar pattern 0) as Hu. fold (unresolvedSetters pattern) in Hu.
  induction Hu as [|u urs [body ->] _ IH]; intros p; [done|].
  cbn [foldl]. rewrite ReplaceAll_nonempty by done.
  rewrite QuoteMeta_units, replace_all_units. apply IH.
Qed.

Lemma Compile_prog_expr (pattern : gostring) (r : prog) :
  Compile (setter_expr pattern) = Some r -> r = prog_expr pattern.
Proof.
  unfold Compile. destruct (ValidString _); [|done].
  rewrite setter_expr_prog, parse_units. by intros [= <-].
Qed.

(** Replacing in two texts put end to end, when no occurrence that begins in
    the first text runs into the second. *)
Lemma replace_all_app {A} `{EqDecision A} (old new a b : list A) :
  old ≠ [] ->
  (forall i, i < length a -> old `prefix_of` drop i (a ++ b) -> i + length old <= length a) ->
  replace_all old new 0 (a ++ b) = replace_all old new 0 a ++ replace_all old new 0 b.
Proof.
  intros Hold. remember (length a) as n eqn:Hn. revert a Hn.
  induction n as [n IH] using lt_wf_ind. intros a -> Hin.
  destruct a as [|c a]; [done|].
  destruct (decide (old `prefix_of` (c :: a) ++ b)) as [Hp|Hp].
  - pose proof (Hin 0 ltac:(simpl; lia) Hp) as Hlen. simpl in Hlen.
    assert (old `prefix_of` c :: a) as [q Hq].
    { destruct Hp as [r Hr]. apply (f_equal (take (length old))) in Hr.
      rewrite take_app_le in Hr by (simpl; lia). rewrite take_app_length in Hr.
      rewrite <- Hr. apply prefix_take. }
    rewrite Hq, <- app_assoc, !replace_all_match by done. rewrite <- app_assoc. f_equal.
    apply (IH (length q)); [|done|].
    + apply (f_equal length) in Hq. rewrite length_app in Hq. simpl in Hq.
      destruct old; [done|]. simpl in *. lia.
    + intros i Hi Hpi.
      assert (length (c :: a) = length old + length q) as Hl.
      { by rewrite Hq, length_app. }
      specialize (Hin (length old + i)).
      rewrite Hq, <- app_assoc, <- drop_drop, drop_app_length in Hin.
      rewrite length_app in Hin. specialize (Hin ltac:(lia) Hpi). lia.
  - rewrite <- app_comm_cons, replace_all_step by done.
    rewrite (replace_all_step _ _ c a).
    2:{ intros [q Hq]. apply Hp. exists (q ++ b). by rewrite Hq, <- app_assoc. }
    rewrite <- app_comm_cons. f_equal. apply (IH (length a)); [simpl; lia|done|].
    intros i Hi Hpi. specialize (Hin (S i) ltac:(simpl; lia) Hpi). simpl in Hin. lia.
Qed.

(** ** Occurrences of a placeholder *)

Lemma Contains_lookup (t : gostring) (i : nat) (a b : ascii) :
  t !! i = Some a -> t !! S i = Some b -> Contains t [a; b] = true.
Proof.
  revert i. induction t as [|c t IH]; intros i Ha Hb; [done|].
  change (Contains (c :: t) [a; b]) with (HasPrefix (c :: t) [a; b] || Contains t [a; b]).
  destruct i as [|i].
  - simpl in Ha, Hb. injection Ha as ->. destruct t as [|d t]; [done|].
    simpl in Hb. injection Hb as ->. simpl. by rewrite !decide_True.
  - simpl in Ha, Hb. rewrite (IH i) by done. apply orb_true_r.
Qed.

Lemma replace_all_none {A} `{EqDecision A} (old new a : list A) :
  (forall i, i < length a -> ¬ old `prefix_of` drop i a) ->
  replace_all old new 0 a = a.
Proof.
  induction a as [|c a IH]; intros Hn; [done|].
  rewrite replace_all_step.
  - f_equal. apply IH. intros i Hi. apply (Hn (S i)). simpl. lia.
  - apply (Hn 0). simpl. lia.
Qed.

Lemma placeholder_length (m : gostring) : length (placeholder m) = length m + 3.
Proof. unfold placeholder. rewrite !length_app. simpl. lia. Qed.

Lemma placeholder_lookup_last (m : gostring) :
  placeholder m !! (length m + 2) = Some rbrace.
Proof.
  unfold placeholder. rewrite lookup_app_r by (simpl; lia).
  rewrite lookup_app_r by (simpl; lia).
  by replace (length m + 2 - length (str "${") - length m) with 0 by (simpl; lia).
Qed.

Lemma placeholder_lookup_inner (m : gostring) (j : nat) (c : ascii) :
  (rbrace ∉ m) -> j < length m + 2 -> placeholder m !! j = Some c -> c ≠ rbrace.
Proof.
  intros Hm. unfold placeholder. cbn [str list_ascii_of_string app].
  destruct j as [|[|j]]; simpl; [by intros _ [= <-]|by intros _ [= <-]|].
  intros Hj. rewrite lookup_app_l by lia. intros Hc ->.
  apply Hm. by eapply list_elem_of_lookup_2.
Qed.

Lemma occ_lookup (M : gostring) (p : prog) (i j : nat) (c : ascii) :
  (Lit <$> M) `prefix_of` drop i p -> M !! j = Some c -> p !! (i + j) = Some (Lit c).
Proof.
  intros Hp Hj. rewrite <- lookup_drop. eapply prefix_lookup_Some; [|exact Hp].
  by rewrite list_lookup_fmap, Hj.
Qed.

(** No occurrence begins in the text before a placeholder. *)
Lemma occ_not_in_text (m t : gostring) (rest : prog) (i : nat) :
  Contains t (str "${") = false -> head rest ≠ Some (Lit lbrace) ->
  i < length t -> ¬ (Lit <$> placeholder m) `prefix_of` drop i ((Lit <$> t) ++ rest).
Proof.
  intros Ht Hrest Hi Hp.
  pose proof (occ_lookup _ _ i 0 dollar Hp eq_refl) as H0.
  pose proof (occ_lookup _ _ i 1 lbrace Hp eq_refl) as H1.
  rewrite Nat.add_0_r, lookup_app_l, list_lookup_fmap in H0 by (by rewrite length_fmap).
  destruct (t !! i) as [c|] eqn:Hc; [|done]. injection H0 as ->.
  destruct (decide (i + 1 < length t)) as [Hlt|Hge].
  - rewrite lookup_app_l, list_lookup_fmap in H1 by (by rewrite length_fmap).
    destruct (t !! (i + 1)) as [d|] eqn:Hd; [|done]. injection H1 as ->.
    rewrite Nat.add_1_r in Hd.
    pose proof (Contains_lookup t i dollar lbrace Hc Hd) as Hcon.
    change [dollar; lbrace] with (str "${") in Hcon. congruence.
  - rewrite lookup_app_r in H1 by (rewrite length_fmap; lia).
    rewrite length_fmap in H1. replace (i + 1 - length t) with 0 in H1 by lia.
    apply Hrest. by destruct rest.
Qed.

(** An occurrence that begins in a placeholder ends with it. *)
Lemma occ_in_intact (m t body : gostring) (rest : prog) (i : nat) :
  (rbrace ∉ m) -> Contains t (str "${") = false -> (rbrace ∉ body) ->
  i < length (t ++ placeholder body) ->
  (Lit <$> placeholder m) `prefix_of` drop i ((Lit <$> (t ++ placeholder body)) ++ rest) ->
  length t <= i /\ drop (i - length t) (placeholder body) = placeholder m.
Proof.
  intros Hm Ht Hbody Hi Hp.
  assert (length t <= i) as Hti.
  { destruct (decide (length t <= i)) as [|Hlt]; [done|]. exfalso.
    rewrite fmap_app, <- app_assoc in Hp.
    by apply (occ_not_in_text m t _ i) in Hp; [|done|done|lia]. }
  split; [done|].
  rewrite length_app, placeholder_length in Hi.
  assert (forall k c, placeholder body !! k = Some c ->
            ((Lit <$> (t ++ placeholder body)) ++ rest) !! (length t + k) = Some (Lit c)) as Hin.
  { intros k c Hk. rewrite lookup_app_l.
    - rewrite list_lookup_fmap, lookup_app_r by lia.
      replace (length t + k - length t) with k by lia. by rewrite Hk.
    - rewrite length_fmap, length_app. apply lookup_lt_Some in Hk. lia. }
  set (o := i - length t). assert (i = length t + o) as Hio by lia.
  assert (o + length m = length body) as Hlen.
  { destruct (decide (o + length m < length body)) as [Hlt|Hge1].
    - exfalso.
      pose proof (occ_lookup _ _ i _ _ Hp (placeholder_lookup_last m)) as Hl.
      destruct (lookup_lt_is_Some_2 (placeholder body) (o + (length m + 2))) as [c Hc].
      { rewrite placeholder_length. lia. }
      pose proof (Hin _ _ Hc) as Hc'.
      replace (length t + (o + (length m + 2))) with (i + (length m + 2)) in Hc' by lia.
      rewrite Hl in Hc'. injection Hc' as <-.
      by apply (placeholder_lookup_inner body (o + (length m + 2)) rbrace) in Hc; [|done|lia].
    - destruct (decide (length body < o + length m)) as [Hgt|Hle]; [|lia]. exfalso.
      pose proof (Hin _ _ (placeholder_lookup_last body)) as Hl.
      destruct (lookup_lt_is_Some_2 (placeholder m) (length body + 2 - o)) as [c Hc].
      { rewrite placeholder_length. lia. }
      pose proof (occ_lookup _ _ i _ _ Hp Hc) as Hc'.
      replace (i + (length body + 2 - o)) with (length t + (length body + 2)) in Hc' by lia.
      rewrite Hl in Hc'. injection Hc' as <-.
      by apply (placeholder_lookup_inner m (length body + 2 - o) rbrace) in Hc; [|done|lia]. }
  apply list_eq. intros j. rewrite lookup_drop.
  destruct (placeholder m !! j) as [c|] eqn:Hc.
  - pose proof (occ_lookup _ _ i _ _ Hp Hc) as Hc'.
    destruct (lookup_lt_is_Some_2 (placeholder body) (o + j)) as [d Hd].
    { rewrite placeholder_length. apply lookup_lt_Some in Hc.
      rewrite placeholder_length in Hc. lia. }
    pose proof (Hin _ _ Hd) as Hd'.
    replace (length t + (o + j)) with (i + j) in Hd' by lia.
    rewrite Hc' in Hd'. injection Hd' as <-. done.
  - apply lookup_ge_None in Hc. apply lookup_ge_None.
    rewrite placeholder_length in *. lia.
Qed.

(** No occurrence begins in a stretch whose placeholder is replaced. *)
Lemma occ_in_replaced (m t pre : gostring) (rest : prog) (i : nat) :
  (rbrace ∉ m) -> Contains t (str "${") = false -> (rbrace ∉ pre) ->
  head pre ≠ Some lbrace ->
  i < length (t ++ pre) + 1 ->
  ¬ (Lit <$> placeholder m) `prefix_of`
      drop i (((Lit <$> (t ++ pre)) ++ [CaptureAny]) ++ rest).
Proof.
  intros Hm Ht Hpre Hhead Hi Hp.
  assert (forall j c, placeholder m !! j = Some c -> i + j < length (t ++ pre)) as Hlit.
  { intros j c Hj. pose proof (occ_lookup _ _ i _ _ Hp Hj) as Hl.
    destruct (decide (i + j < length (t ++ pre))) as [|Hge]; [done|]. exfalso.
    (* the group is met at or before [i + j] *)
    set (g := length (t ++ pre) - i).
    destruct (lookup_lt_is_Some_2 (placeholder m) g) as [d Hd].
    { apply lookup_lt_Some in Hj. lia. }
    pose proof (occ_lookup _ _ i _ _ Hp Hd) as Hg.
    replace (i + g) with (length (t ++ pre)) in Hg by lia.
    rewrite <- app_assoc, lookup_app_r in Hg by (by rewrite length_fmap).
    rewrite length_fmap, Nat.sub_diag in Hg. done. }
  pose proof (Hlit _ _ (placeholder_lookup_last m)) as Hend.
  assert (forall j c, placeholder m !! j = Some c -> (t ++ pre) !! (i + j) = Some c) as Hin.
  { intros j c Hj. pose proof (occ_lookup _ _ i _ _ Hp Hj) as Hl.
    pose proof (Hlit _ _ Hj) as Hlt.
    rewrite <- app_assoc, lookup_app_l, list_lookup_fmap in Hl by (by rewrite length_fmap).
    destruct ((t ++ pre) !! (i + j)); [by injection Hl as ->|done]. }
  destruct (decide (i < length t)) as [Hit|Hit].
  - (* it begins in the text *)
    apply (occ_not_in_text m t ((Lit <$> pre) ++ [CaptureAny] ++ rest) i); [done| |done|].
    + destruct pre as [|c pre]; [done|]. simpl in *. congruence.
    + by rewrite fmap_app, <- !app_assoc in Hp.
  - (* it lies in the literals left of the group *)
    pose proof (Hin _ _ (placeholder_lookup_last m)) as Hl.
    rewrite lookup_app_r in Hl by lia.
    apply Hpre. by eapply list_elem_of_lookup_2.
Qed.

(** ** Replacing a placeholder, stretch by stretch *)

Lemma fmap_Lit_prefix (a b : gostring) :
  (Lit <$> a) `prefix_of` (Lit <$> b) -> a `prefix_of` b.
Proof.
  revert b. induction a as [|c a IH]; intros b Hp; [apply prefix_nil|].
  destruct b as [|d b]; [by apply prefix_nil_not in Hp|].
  rewrite !fmap_cons in Hp. pose proof (prefix_cons_inv_1 _ _ _ _ Hp) as [= ->].
  apply prefix_cons, IH. by apply prefix_cons_inv_2 in Hp.
Qed.

Lemma replace_intact (m t body : gostring) :
  (rbrace ∉ m) -> Contains t (str "${") = false -> (rbrace ∉ body) ->
  replace_all (Lit <$> placeholder m) [CaptureAny] 0 (Lit <$> (t ++ placeholder body))
  = block_prog (block_step (placeholder m) (t, Intact body)).
Proof.
  intros Hm Ht Hbody. unfold block_step. cbn [fst snd].
  assert (forall i, i < length (t ++ placeholder body) ->
            (Lit <$> placeholder m) `prefix_of` drop i (Lit <$> (t ++ placeholder body)) ->
            length t <= i /\ drop (i - length t) (placeholder body) = placeholder m) as Hocc.
  { intros i Hi Hp. apply (occ_in_intact m t body [] i); [done|done|done|done|].
    by rewrite app_nil_r. }
  destruct (decide (placeholder m `suffix_of` placeholder body)) as [[pre Hpre]|Hns].
  - unfold block_prog. cbn [fst snd].
    assert (take (length (placeholder body) - length (placeholder m)) (placeholder body) = pre)
      as ->.
    { rewrite Hpre, length_app.
      replace (length pre + length (placeholder m) - length (placeholder m))
        with (length pre) by lia.
      by rewrite take_app_length. }
    rewrite Hpre, app_assoc, fmap_app.
    assert (forall i, i < length (Lit <$> (t ++ pre)) ->
              ¬ (Lit <$> placeholder m) `prefix_of`
                  drop i ((Lit <$> (t ++ pre)) ++ (Lit <$> placeholder m))) as Hno.
    { intros i Hi Hp. rewrite length_fmap, length_app in Hi.
      destruct (Hocc i) as [Hti Hd].
      - rewrite Hpre, !length_app. lia.
      - by rewrite Hpre, app_assoc, fmap_app.
      - apply (f_equal length) in Hd. rewrite Hpre, length_drop, length_app in Hd. lia. }
    rewrite replace_all_app; [| |].
    + rewrite replace_all_none, replace_all_self; [done|done|].
      intros i Hi Hp. apply (Hno i Hi).
      rewrite drop_app_le by lia. by apply prefix_app_r.
    + done.
    + intros i Hi Hp. by apply Hno in Hp.
  - unfold block_prog. cbn [fst snd].
    apply replace_all_none. intros i Hi Hp. rewrite length_fmap in Hi.
    destruct (Hocc i Hi Hp) as [_ Hd]. apply Hns. rewrite <- Hd. apply suffix_drop.
Qed.

Lemma replace_block (m : gostring) (b : gostring * hole_state) (rest : prog) :
  (rbrace ∉ m) -> block_ok b ->
  replace_all (Lit <$> placeholder m) [CaptureAny] 0 (block_prog b ++ rest)
  = block_prog (block_step (placeholder m) b)
    ++ replace_all (Lit <$> placeholder m) [CaptureAny] 0 rest.
Proof.
  intros Hm [Ht Hx]. destruct b as [t [body|pre]]; cbn [fst snd] in *.
  - unfold block_prog at 1. cbn [fst snd].
    rewrite replace_all_app; [by rewrite replace_intact|done|].
    intros i Hi Hp. rewrite length_fmap in Hi. rewrite !length_fmap.
    destruct (occ_in_intact m t body rest i Hm Ht Hx Hi Hp) as [Hti Hd].
    apply (f_equal length) in Hd. rewrite length_drop in Hd.
    rewrite length_app in Hi |- *. lia.
  - destruct Hx as [Hpre Hhead]. unfold block_step, block_prog. cbn [fst snd].
    assert (forall rest' i, i < length ((Lit <$> (t ++ pre)) ++ [CaptureAny]) ->
              ¬ (Lit <$> placeholder m) `prefix_of`
                  drop i (((Lit <$> (t ++ pre)) ++ [CaptureAny]) ++ rest')) as Hno.
    { intros rest' i Hi. apply occ_in_replaced; [done|done|done|done|].
      rewrite length_app, length_fmap in Hi. simpl in Hi. lia. }
    rewrite replace_all_app; [|done|].
    + rewrite replace_all_none; [done|]. intros i Hi Hp. apply (Hno [] i Hi).
      by rewrite app_nil_r.
    + intros i Hi Hp. by apply Hno in Hp.
Qed.

Lemma block_step_ok (m : gostring) (b : gostring * hole_state) :
  block_ok b -> block_ok (block_step (placeholder m) b).
Proof.
  intros [Ht Hx]. destruct b as [t [body|pre]]; [|done]. unfold block_step. cbn [fst snd] in *.
  case_decide as Hs; [|done]. split; [done|]. cbn [snd].
  destruct Hs as [pre Hpre].
  assert (take (length (placeholder body) - length (placeholder m)) (placeholder body) = pre)
    as ->.
  { rewrite Hpre, length_app.
    replace (length pre + length (placeholder m) - length (placeholder m))
      with (length pre) by lia.
    by rewrite take_app_length. }
  assert (length pre + length m = length body) as Hlen.
  { apply (f_equal length) in Hpre. rewrite length_app, !placeholder_length in Hpre. lia. }
  split.
  - intros Hin. apply list_elem_of_lookup in Hin as [j Hj].
    apply (placeholder_lookup_inner body j rbrace); [done| | |done].
    + apply lookup_lt_Some in Hj. lia.
    + rewrite Hpre. by apply lookup_app_l_Some.
  - destruct pre as [|c pre]; [done|]. simpl. intros [= ->].
    apply (f_equal head) in Hpre. done.
Qed.

Lemma occ_finds_placeholder (m a r : gostring) :
  (rbrace ∉ m) -> find_placeholders 0 (a ++ placeholder m ++ r) ≠ [].
Proof.
  intros Hm. induction a as [|c a IH].
  - rewrite app_nil_l. by rewrite find_placeholders_hole.
  - rewrite <- app_comm_cons, find_placeholders_0.
    destruct (HasPrefix _ _); [|done].
    by destruct (until_brace _).
Qed.

Lemma replace_tail (m tail : gostring) :
  (rbrace ∉ m) -> find_placeholders 0 tail = [] ->
  replace_all (Lit <$> placeholder m) [CaptureAny] 0 (Lit <$> tail) = Lit <$> tail.
Proof.
  intros Hm Htail. apply replace_all_none. intros i Hi Hp.
  rewrite <- fmap_drop in Hp. apply fmap_Lit_prefix in Hp as [r Hr].
  apply (occ_finds_placeholder m (take i tail) r Hm).
  by rewrite <- Hr, take_drop.
Qed.

Lemma replace_blocks (m : gostring) (bs : list (gostring * hole_state)) (tail : gostring) :
  (rbrace ∉ m) -> Forall block_ok bs -> find_placeholders 0 tail = [] ->
  replace_all (Lit <$> placeholder m) [CaptureAny] 0 (blocks_prog bs tail)
  = blocks_prog (block_step (placeholder m) <$> bs) tail.
Proof.
  intros Hm Hbs Htail. unfold blocks_prog.
  induction Hbs as [|b bs Hb Hbs IH]; [by apply replace_tail|].
  rewrite !fmap_cons. cbn [concat]. rewrite <- !app_assoc.
  by rewrite replace_block, IH.
Qed.

(** ** One group for each placeholder *)

Lemma block_step_replaced (M : gostring) (b : gostring * hole_state) :
  is_replaced b -> is_replaced (block_step M b).
Proof. by destruct b as [t [body|pre]]. Qed.

Lemma steps_replace (b : gostring * hole_state) (bodies : list gostring) :
  is_replaced b \/ (exists body, b.2 = Intact body /\ body ∈ bodies) ->
  is_replaced (foldl (fun b m => block_step (placeholder m) b) b bodies).
Proof.
  revert b. induction bodies as [|m bodies IH]; intros b Hb.
  - destruct Hb as [Hb|(body & _ & Hin)]; [done|by apply elem_of_nil in Hin].
  - cbn [foldl]. apply IH. destruct Hb as [Hb|(body & Hbody & Hin)].
    + left. by apply block_step_replaced.
    + destruct b as [t x]. cbn [snd] in Hbody. subst x.
      unfold block_step. cbn [fst snd]. case_decide as Hs; [by left|].
      right. exists body. split; [done|].
      apply elem_of_cons in Hin as [->|Hin]; [|done]. by destruct Hs.
Qed.

Lemma groups_app (p q : prog) : groups (p ++ q) = groups p + groups q.
Proof. unfold groups. by rewrite filter_app, length_app. Qed.

Lemma groups_Lit (s : gostring) : groups (Lit <$> s) = 0.
Proof.
  unfold groups. induction s as [|c s IH]; [done|].
  by rewrite fmap_cons, filter_cons_False.
Qed.

Lemma groups_blocks (bs : list (gostring * hole_state)) (tail : gostring) :
  Forall is_replaced bs -> groups (blocks_prog bs tail) = length bs.
Proof.
  unfold blocks_prog. intros Hbs. rewrite groups_app, groups_Lit, Nat.add_0_r.
  induction Hbs as [|[t [body|pre]] bs Hb Hbs IH]; [done|done|].
  rewrite fmap_cons. cbn [concat]. rewrite groups_app, IH.
  unfold block_prog. cbn [fst snd]. by rewrite groups_app, groups_Lit.
Qed.

Lemma fmap_Lit_concat (l : list gostring) :
  Lit <$> concat l = concat ((fun s : gostring => Lit <$> s) <$> l).
Proof. induction l as [|x l IH]; [done|]. simpl. by rewrite fmap_app, IH. Qed.

Lemma fold_blocks (bodies : list gostring) (bs : list (gostring * hole_state))
    (tail : gostring) :
  Forall (fun m => rbrace ∉ m) bodies -> Forall block_ok bs ->
  find_placeholders 0 tail = [] ->
  foldl (fun p setterName => replace_all (Lit <$> setterName) [CaptureAny] 0 p)
        (blocks_prog bs tail) (placeholder <$> bodies)
  = blocks_prog ((fun b => foldl (fun b m => block_step (placeholder m) b) b bodies) <$> bs)
      tail.
Proof.
  intros Hbodies. revert bs. induction Hbodies as [|m bodies Hm _ IH]; intros bs Hbs Htail.
  - simpl. by rewrite list_fmap_id.
  - rewrite fmap_cons. cbn [foldl]. rewrite replace_blocks by done.
    rewrite IH; [|by apply Forall_fmap; eapply Forall_impl; [exact Hbs|];
                   intros b Hb; apply block_step_ok|done].
    by rewrite <- list_fmap_compose.
Qed.

Lemma groups_prog_expr (pattern : gostring) :
  groups (prog_expr pattern) = length (unresolvedSetters pattern).
Proof.
  destruct (pattern_blocks pattern) as (blocks & tail & Hpat & Hurs & Hblocks & Htail).
  unfold prog_expr. rewrite Hurs.
  set (bs0 := (fun tb : gostring * gostring => (tb.1, Intact tb.2)) <$> blocks).
  assert (Lit <$> pattern = blocks_prog bs0 tail) as ->.
  { rewrite Hpat at 1. unfold blocks_prog, bs0.
    rewrite fmap_app, fmap_Lit_concat, <- !list_fmap_compose. done. }
  replace ((fun tb : gostring * gostring => placeholder tb.2) <$> blocks)
    with (placeholder <$> blocks.*2) by (by rewrite <- list_fmap_compose).
  rewrite fold_blocks.
  - rewrite groups_blocks; [unfold bs0; by rewrite !length_fmap|].
    apply Forall_fmap, Forall_forall. intros b Hb. simpl. apply steps_replace. right.
    apply list_elem_of_fmap in Hb as ([t body] & -> & Hin). exists body. split; [done|].
    apply list_elem_of_fmap. by exists (t, body).
  - apply Forall_fmap. eapply Forall_impl; [exact Hblocks|]. by intros [t body] [_ ?].
  - apply Forall_fmap. eapply Forall_impl; [exact Hblocks|]. by intros [t body] [? ?].
  - done.
Qed.

(** X8: whatever the pattern, the expression built for it has one group for
    each placeholder that [unresolvedSetters] finds: a match gives as many
    captures as there are placeholders, and the resolver never gives up for a
    difference between the two numbers. *)
Theorem one_group_for_each_placeholder (pattern : gostring) (r : prog) :
  Compile (setter_expr pattern) = Some r ->
  groups r = length (unresolvedSetters pattern)
  /\ (forall value m caps,
        FindStringSubmatch r value = Some (m :: caps) ->
        length caps = length (unresolvedSetters pattern)
        /\ currentSetterValues pattern value
           = bind_setters (unresolvedSetters pattern) caps ∅).
Proof.
  intros Hc. apply Compile_prog_expr in Hc as Hr. subst r.
  pose proof (groups_prog_expr pattern) as Hg. split; [done|].
  intros value m caps Hm.
  apply search_sound in Hm as Hs. destruct Hs as (before & after & _ & Hlen & _).
  rewrite Hg in Hlen. split; [done|].
  unfold currentSetterValues. rewrite Hc, Hm. by rewrite decide_False by (intros Hn; by apply Hn).
Qed.

Lemma one_group_for_each_placeholder_witness :
  groups [Lit "a"%char; CaptureAny; Lit "."%char; CaptureAny] = 2
  /\ (forall value m caps,
        FindStringSubmatch [Lit "a"%char; CaptureAny; Lit "."%char; CaptureAny] value
        = Some (m :: caps) ->
        length caps = 2
        /\ currentSetterValues (str "a${x}.${y}") value
           = bind_setters [str "${x}"; str "${y}"] caps ∅).
Proof.
  apply (one_group_for_each_placeholder (str "a${x}.${y}")). vm_compute. reflexivity.
Defined.

(** ** Valid UTF-8 *)

Lemma byte_in_ascii (lo hi : nat) (c : ascii) :
  128 <= lo -> nat_of_ascii c < 128 -> byte_in lo hi c = false.
Proof.
  intros Hlo Hc. unfold byte_in. apply andb_false_intro1. apply Nat.leb_gt. lia.
Qed.

(** A byte below 128 ends the rune before it. *)
Lemma rune_width_before_ascii (s r : gostring) (c : ascii) :
  s ≠ [] -> nat_of_ascii c < 128 -> rune_width (s ++ c :: r) = rune_width s.
Proof.
  intros Hs Hc. destruct s as [|b0 s]; [done|].
  assert (is_cont c = false) as Hcont by (by apply byte_in_ascii).
  rewrite <- app_comm_cons. cbn [rune_width].
  destruct (nat_of_ascii b0 <? 194); [done|].
  destruct (nat_of_ascii b0 <? 224).
  { destruct s as [|b1 s]; [|done]. simpl. by rewrite Hcont. }
  destruct (nat_of_ascii b0 <? 240).
  { destruct s as [|b1 [|b2 s]]; [| |done]; simpl.
    - destruct r; [done|]. rewrite byte_in_ascii; [done| |done].
      destruct (nat_of_ascii b0 =? 224); lia.
    - by rewrite Hcont, andb_false_r. }
  destruct (nat_of_ascii b0 <? 245); [|done].
  destruct s as [|b1 [|b2 [|b3 s]]]; [| | |done]; simpl.
  - destruct r as [|? [|? ?]]; try done. rewrite byte_in_ascii; [done| |done].
    destruct (nat_of_ascii b0 =? 240); lia.
  - destruct r; [done|]. by rewrite Hcont, andb_false_r.
  - by rewrite Hcont, andb_false_r.
Qed.

(** The bytes after the first of a rune are not below 128. *)
Lemma rune_width_cont (c : ascii) (s : gostring) (i : nat) (d : ascii) :
  i < rune_width (c :: s) - 1 -> s !! i = Some d -> 128 <= nat_of_ascii d.
Proof.
  assert (forall lo hi e, 128 <= lo -> byte_in lo hi e = true -> 128 <= nat_of_ascii e) as Hb.
  { intros lo hi e Hlo He. unfold byte_in in He. apply andb_prop in He as [He _].
    apply Nat.leb_le in He. lia. }
  assert (forall e, is_cont e = true -> 128 <= nat_of_ascii e) as Hc.
  { intros e. apply Hb. lia. }
  cbn [rune_width].
  destruct (nat_of_ascii c <? 194); [simpl; lia|].
  destruct (nat_of_ascii c <? 224).
  { destruct s as [|b1 s]; [simpl; lia|].
    destruct (is_cont b1) eqn:H1; [|simpl; lia].
    destruct i as [|i]; [|simpl; lia]. intros _ [= <-]. by apply Hc. }
  destruct (nat_of_ascii c <? 240).
  { destruct s as [|b1 [|b2 s]]; try (simpl; lia).
    destruct (byte_in _ _ b1 && is_cont b2) eqn:H12; [|simpl; lia].
    apply andb_prop in H12 as [H1 H2].
    destruct i as [|[|i]]; [| |simpl; lia]; intros _ [= <-].
    - eapply Hb; [|exact H1]. destruct (nat_of_ascii c =? 224); lia.
    - by apply Hc. }
  destruct (nat_of_ascii c <? 245); [|simpl; lia].
  destruct s as [|b1 [|b2 [|b3 s]]]; try (simpl; lia).
  destruct (byte_in _ _ b1 && is_cont b2 && is_cont b3) eqn:H123; [|simpl; lia].
  apply andb_prop in H123 as [H12 H3]. apply andb_prop in H12 as [H1 H2].
  destruct i as [|[|[|i]]]; [| | |simpl; lia]; intros _ [= <-].
  - eapply Hb; [|exact H1]. destruct (nat_of_ascii c =? 240); lia.
  - by apply Hc.
  - by apply Hc.
Qed.

(** A text is valid on both sides of a byte below 128. *)
Lemma valid_from_split (a r : gostring) (c : ascii) (k : nat) :
  nat_of_ascii c < 128 ->
  (forall i d, i < k -> (a ++ c :: r) !! i = Some d -> 128 <= nat_of_ascii d) ->
  valid_from k (a ++ c :: r) = valid_from k a && valid_from 0 r.
Proof.
  intros Hc. revert k. induction a as [|x a IH]; intros k Hk.
  - destruct k as [|k].
    + simpl app. cbn [valid_from]. unfold rune_ok. cbn [rune_width].
      assert ((nat_of_ascii c <? 194) = true) as -> by (apply Nat.ltb_lt; lia).
      assert ((nat_of_ascii c <? 128) = true) as -> by (apply Nat.ltb_lt; lia).
      done.
    + exfalso. specialize (Hk 0 c ltac:(lia) eq_refl). lia.
  - rewrite <- app_comm_cons. destruct k as [|k]; cbn [valid_from].
    + rewrite (app_comm_cons a (c :: r) x).
      rewrite (rune_width_before_ascii (x :: a) r c) by done.
      assert (rune_ok ((x :: a) ++ c :: r) = rune_ok (x :: a)) as ->.
      { unfold rune_ok. rewrite <- app_comm_cons.
        by rewrite (app_comm_cons a (c :: r) x), (rune_width_before_ascii (x :: a) r c). }
      rewrite <- andb_assoc. f_equal. apply IH.
      intros i d Hi. apply (rune_width_cont x (a ++ c :: r)).
      rewrite (app_comm_cons a (c :: r) x), (rune_width_before_ascii (x :: a) r c) by done.
      done.
    + apply IH. intros i d Hi Hd. apply (Hk (S i) d); [lia|done].
Qed.

Lemma ValidString_split (a r : gostring) (c : ascii) :
  nat_of_ascii c < 128 ->
  ValidString (a ++ c :: r) = ValidString a && ValidString r.
Proof. intros Hc. apply valid_from_split; [done|]. intros i d Hi. lia. Qed.

Lemma ValidString_ascii_app (g y : gostring) :
  ascii_only g -> ValidString (g ++ y) = ValidString y.
Proof.
  induction 1 as [|c g Hc Hg IH]; [done|].
  rewrite <- app_comm_cons.
  pose proof (ValidString_split [] (g ++ y) c Hc) as Hsplit.
  rewrite app_nil_l in Hsplit. rewrite Hsplit. exact IH.
Qed.

Lemma is_special_ascii (c : ascii) : is_special c = true -> nat_of_ascii c < 128.
Proof.
  unfold is_special. intros Hc. apply bool_decide_eq_true_1 in Hc.
  unfold special in Hc. cbn [str list_ascii_of_string] in Hc.
  repeat (apply elem_of_cons in Hc as [->|Hc]; [vm_compute; lia|]).
  by apply elem_of_nil in Hc.
Qed.

(** Escaping keeps a text valid. *)
Lemma ValidString_QuoteMeta (s x : gostring) :
  ValidString (x ++ s) = true -> ValidString (x ++ QuoteMeta s) = true.
Proof.
  revert x. induction s as [|c s IH]; intros x Hv; [done|].
  cbn [QuoteMeta]. destruct (is_special c) eqn:Hc.
  - apply is_special_ascii in Hc.
    rewrite ValidString_split in Hv by done. apply andb_prop in Hv as [Hx Hs].
    rewrite ValidString_split by (vm_compute; lia). rewrite Hx. simpl.
    pose proof (ValidString_split [] (QuoteMeta s) c Hc) as Hsplit.
    rewrite app_nil_l in Hsplit. rewrite Hsplit. simpl. by apply (IH []).
  - rewrite (cons_middle c x), app_assoc. apply IH.
    by rewrite <- app_assoc, <- cons_middle.
Qed.

(** Replacing, by bytes below 128, a text that begins and ends with a byte
    below 128 keeps a text valid. *)
Lemma ValidString_replace_all (c0 c1 n0 : ascii) (mid new s x : gostring) :
  nat_of_ascii c0 < 128 -> nat_of_ascii c1 < 128 -> nat_of_ascii n0 < 128 ->
  ascii_only new ->
  ValidString (x ++ s) = true ->
  ValidString (x ++ replace_all (c0 :: mid ++ [c1]) (n0 :: new) 0 s) = true.
Proof.
  intros H0 H1 Hn0 Hnew. remember (length s) as n eqn:Hn. revert s x Hn.
  induction n as [n IH] using lt_wf_ind. intros s x -> Hv.
  destruct s as [|c s]; [done|].
  destruct (decide ((c0 :: mid ++ [c1]) `prefix_of` (c :: s))) as [[q Hq]|Hnp].
  - rewrite Hq, replace_all_match by done. rewrite Hq in Hv.
    rewrite <- !app_comm_cons, <- app_assoc in Hv. cbn [app] in Hv.
    rewrite ValidString_split in Hv by done. apply andb_prop in Hv as [Hx Hv].
    rewrite ValidString_split in Hv by done. apply andb_prop in Hv as [_ Hv].
    rewrite <- app_comm_cons, ValidString_split by done. rewrite Hx. simpl.
    rewrite ValidString_ascii_app by done.
    assert (length q < length (c :: s)) as Hlt.
    { rewrite Hq. rewrite length_app. simpl. lia. }
    apply (IH (length q) Hlt q []); done.
  - rewrite replace_all_step by done.
    rewrite (cons_middle c x), app_assoc.
    apply (IH (length s) ltac:(simpl; lia)); [done|].
    by rewrite <- app_assoc, <- cons_middle.
Qed.

Lemma ValidString_setter_expr (pattern : gostring) :
  ValidString pattern = true -> ValidString (setter_expr pattern) = true.
Proof.
  intros Hv. unfold setter_expr.
  assert (ValidString (QuoteMeta pattern) = true) as Hq by (by apply (ValidString_QuoteMeta pattern [])).
  revert Hq. generalize (QuoteMeta pattern).
  assert (Forall (fun u => exists body, u = placeholder body) (unresolvedSetters pattern)) as Hu.
  { apply Forall_forall. intros u Hu. apply find_placeholders_shape in Hu as (body & -> & _).
    by exists body. }
  induction Hu as [|u urs [body ->] _ IH]; intros e He; [done|].
  cbn [foldl]. apply IH.
  replace (ReplaceAll e _ _) with
    (ReplaceAll e (backslash :: (str "$\{" ++ QuoteMeta body ++ [backslash]) ++ [rbrace])
       capture_group).
  2:{ f_equal. unfold placeholder. rewrite !QuoteMeta_app. cbn [str list_ascii_of_string app].
      simpl. by rewrite <- !app_assoc. }
  rewrite ReplaceAll_nonempty by done.
  change capture_group with ("("%char :: str "?P<x>.*)").
  apply (ValidString_replace_all backslash rbrace "("%char _ (str "?P<x>.*)") e []);
    try (vm_compute; lia); [|done].
  apply Forall_forall. intros c Hc.
  repeat (apply elem_of_cons in Hc as [->|Hc]; [vm_compute; lia|]).
  by apply elem_of_nil in Hc.
Qed.

(** X9: a pattern that is valid UTF-8 has an expression that compiles: the
    escaping leaves no byte that could make the expression ill-formed. *)
Theorem valid_pattern_compiles (pattern : gostring) :
  ValidString pattern = true -> is_Some (Compile (setter_expr pattern)).
Proof.
  intros Hv. apply Compile_setter_expr. by apply ValidString_setter_expr.
Qed.

Lemma valid_pattern_compiles_witness :
  ValidString (str "a${x}.${y}") = true
  /\ is_Some (Compile (setter_expr (str "a${x}.${y}"))).
Proof.
  split; [vm_compute; reflexivity|].
  apply (valid_pattern_compiles (str "a${x}.${y}")). vm_compute. reflexivity.
Defined.

(** ** Scalar setters and the nodes that bind them *)

Lemma apply_visit_scalars (ls : ListSetters) (v : visit) :
  ScalarSetters (apply_visit ls v) = scalar_step (ScalarSetters ls) v.
Proof.
  destruct v as [n|node]; cbn [apply_visit scalar_step]; [|apply visitField_scalars].
  unfold visitScalar.
  destruct (decide (NodeKind n ≠ ScalarNode)) as [Hk|Hk].
  { rewrite decide_False; [done|]. by intros [? _]. }
  apply dec_stable in Hk.
  destruct (decide (extractSetterPattern (LineComment n) = [])) as [Hp|Hp].
  - rewrite decide_False; [done|]. by intros [_ ?].
  - by rewrite decide_True by (by split).
Qed.

Lemma foldl_apply_visit_scalars (ls : ListSetters) (vs : list visit) :
  ScalarSetters (foldl apply_visit ls vs) = foldl scalar_step (ScalarSetters ls) vs.
Proof.
  revert ls. induction vs as [|v vs IH]; intros ls; simpl; [done|].
  by rewrite IH, apply_visit_scalars.
Qed.

Lemma scalar_step_lookup (m : gmap gostring ScalarSetter) (v : visit) (name : gostring) :
  scalar_step m v !! name
  = if decide (binds name v)
    then Some (match m !! name with
               | Some s => incr_scalar s
               | None => mkScalarSetter name (bound_value name v) 1
               end)
    else m !! name.
Proof.
  destruct v as [n|node]; cbn [scalar_step]; [|by rewrite decide_False by tauto].
  destruct (decide (binds name (ScalarVisit n))) as [(Hk & Hp & x & Hx)|Hb].
  - rewrite decide_True by done. rewrite range_add_scalar_lookup, Hx.
    cbn [bound_value]. by rewrite Hx.
  - case_decide as Hd; [|done]. rewrite range_add_scalar_lookup.
    destruct (currentSetterValues _ _ !! name) as [x|] eqn:Hx; [|done].
    exfalso. apply Hb. destruct Hd as [Hk Hp]. split; [done|]. split; [done|].
    by exists x.
Qed.

(** The scalar setter a run of visits leaves under [name]: the count grows by
    the number of visits that bind the name, the value is that of the setter
    already there, else the one the first such visit binds. *)
Lemma foldl_scalar_step_lookup (vs : list visit) (m : gmap gostring ScalarSetter)
    (name : gostring) :
  foldl scalar_step m vs !! name
  = match filter (binds name) vs with
    | [] => m !! name
    | v :: rest =>
      Some (match m !! name with
            | Some s =>
              mkScalarSetter (SName s) (SValue s)
                (wrap_int (SCount s + Z.of_nat (length (v :: rest))))
            | None =>
              mkScalarSetter name (bound_value name v) (wrap_int (Z.of_nat (length (v :: rest))))
            end)
    end.
Proof.
  revert m. induction vs as [|v vs IH]; intros m; [done|].
  cbn [foldl]. rewrite IH, filter_cons, scalar_step_lookup.
  destruct (decide (binds name v)) as [Hc|Hc]; [|done].
  destruct (filter (binds name) vs) as [|v' rest].
  - by destruct (m !! name).
  - f_equal. destruct (m !! name) as [s|]; cbn [incr_scalar SName SValue SCount].
    + f_equal. rewrite !length_cons, !Nat2Z.inj_succ.
      rewrite <- (wrap_int_plus (wrap_int (SCount s + 1))), wrap_int_idemp, wrap_int_plus.
      f_equal. lia.
    + f_equal. rewrite !length_cons, !Nat2Z.inj_succ. f_equal. lia.
Qed.

(** X10: when the visitor rules run over any series of nodes and fields, the
    scalar setter left under a name has its count raised by the number of
    scalar nodes whose comment and value bind the name; its value is that of
    the setter already there, else the one the first such node binds; the
    sequence fields in between do not touch it. *)
Theorem scalar_setter_counts_its_nodes (ls : ListSetters) (vs : list visit)
    (name : gostring) :
  ScalarSetters (foldl apply_visit ls vs) !! name
  = match filter (binds name) vs with
    | [] => ScalarSetters ls !! name
    | v :: rest =>
      Some (match ScalarSetters ls !! name with
            | Some s =>
              mkScalarSetter (SName s) (SValue s)
                (wrap_int (SCount s + Z.of_nat (length (v :: rest))))
            | None =>
              mkScalarSetter name (bound_value name v) (wrap_int (Z.of_nat (length (v :: rest))))
            end)
    end.
Proof.
  rewrite foldl_apply_visit_scalars.
  apply foldl_scalar_step_lookup.
Qed.

(** ** The values of a new array setter *)

Lemma not_after_str_lt_trans (a b c : gostring) :
  not_after str_lt a b -> not_after str_lt b c -> not_after str_lt a c.
Proof.
  unfold not_after. intros Hab Hbc.
  destruct (str_lt c a) eqn:Hca; [|done].
  destruct (decide (a = b)) as [->|Hne]; [congruence|].
  destruct (str_lt_total a b Hne) as [Hlt|Hlt]; [|congruence].
  by rewrite (str_lt_trans c a b) in Hbc.
Qed.

Lemma not_after_str_lt_antisym (a b : gostring) :
  not_after str_lt a b -> not_after str_lt b a -> a = b.
Proof.
  unfold not_after. intros Hab Hba.
  destruct (decide (a = b)) as [|Hne]; [done|].
  destruct (str_lt_total a b Hne); congruence.
Qed.

Lemma sorted_strings_unique (l1 l2 : list gostring) :
  Sorted (not_after str_lt) l1 -> Sorted (not_after str_lt) l2 -> l1 ≡ₚ l2 -> l1 = l2.
Proof.
  apply Sorted_unique.
  - intros a b c. apply not_after_str_lt_trans.
  - intros a b. apply not_after_str_lt_antisym.
Qed.

(** X11: the first field that carries an array setter gives it the values of its
    elements in ascending byte order, with the count 1; the order in which
    the sequence lists them is lost. *)
Theorem new_array_setter_is_sorted (ls : ListSetters) (key value : Node)
    (name : gostring) :
  ArraySetters ls !! name = None ->
  resolves_array key value name ->
  exists vs,
    ArraySetters (visitField (Some (mkMapNode (Some key) (Some value))) ls).1 !! name
    = Some (mkArraySetter name vs 1)
    /\ vs ≡ₚ Value <$> Content value
    /\ Sorted (not_after str_lt) vs
    /\ (forall l, l ≡ₚ Value <$> Content value -> Sorted (not_after str_lt) l -> l = vs).
Proof.
  intros Hnone Hr. exists (sort_Strings (Value <$> Content value)).
  destruct (sort_Strings_sorted (Value <$> Content value)) as [Hperm Hsorted].
  split; [|split; [done|split; [done|]]].
  - by rewrite visitField_lookup, decide_True, Hnone.
  - intros l Hl Hs. apply sorted_strings_unique; [done|done|]. by rewrite Hl, Hperm.
Qed.

Lemma new_array_setter_is_sorted_witness :
  exists vs,
    ArraySetters (visitField (Some (mkMapNode
        (Some (scalar (str "args") (str "# kpt-set: ${list}")))
        (Some (sequence 0 [] [scalar (str "b") []; scalar (str "a") []])))) New).1
      !! str "list"
    = Some (mkArraySetter (str "list") vs 1)
    /\ vs ≡ₚ [str "b"; str "a"]
    /\ Sorted (not_after str_lt) vs
    /\ (forall l, l ≡ₚ [str "b"; str "a"] -> Sorted (not_after str_lt) l -> l = vs).
Proof.
  apply (new_array_setter_is_sorted New
           (scalar (str "args") (str "# kpt-set: ${list}"))
           (sequence 0 [] [scalar (str "b") []; scalar (str "a") []]) (str "list")).
  - reflexivity.
  - split; [reflexivity|]. split; [vm_compute; discriminate|vm_compute; reflexivity].
Defined.

(** ** A plain name on a sequence field *)

Lemma TrimPrefix_none (s prefix : gostring) :
  HasPrefix s prefix = false -> TrimPrefix s prefix = s.
Proof. intros Hp. unfold TrimPrefix. by rewrite Hp. Qed.

(** X12: a sequence field whose marker carries a plain name, with no dollar sign
    and no closing brace at its end, is an array setter of that very name:
    the mapping visit needs no placeholder, unlike the scalar visit, which
    registers nothing for such a comment. *)
Theorem plain_name_marks_an_array (ls : ListSetters) (key value n : Node)
    (path : gostring) :
  let p := extractSetterPattern (attached_comment key value) in
  p ≠ [] -> (dollar ∉ p) -> HasSuffix p (str "}") = false ->
  NodeKind value = SequenceNode ->
  LineComment n = attached_comment key value ->
  ArraySetters (visitField (Some (mkMapNode (Some key) (Some value))) ls).1 !! p
  = Some (match ArraySetters ls !! p with
          | Some a => mkArraySetter (AName a) (AValues a) (wrap_int (ACount a + 1))
          | None => mkArraySetter p (sort_Strings (Value <$> Content value)) 1
          end)
  /\ visitScalar ls (Some n) path = (ls, None).
Proof.
  intros p Hp Hd Hs Hk Hn.
  assert (clean p = p) as Hclean.
  { destruct (extractSetterPattern_trimmed (attached_comment key value)) as [_ Ht].
    fold p in Ht. unfold clean. rewrite Ht, TrimPrefix_none.
    - unfold TrimSuffix. by rewrite Hs.
    - destruct p as [|c p']; [done|]. apply not_elem_of_cons in Hd as [Hc _].
      simpl. rewrite decide_False; [done|]. intros Heq. apply Hc. by rewrite <- Heq. }
  split.
  - rewrite visitField_lookup, decide_True; [done|]. by split.
  - unfold visitScalar. case_decide; [done|]. rewrite Hn. fold p.
    rewrite decide_False by done. cbn zeta.
    assert (currentSetterValues p (Value n) = ∅) as ->.
    { unfold currentSetterValues.
      assert (unresolvedSetters p = []) as Hurs.
      { rewrite <- (app_nil_r p). unfold unresolvedSetters.
        by rewrite find_placeholders_text. }
      rewrite Hurs. destruct (Compile _) as [r|]; [|done].
      destruct (FindStringSubmatch r (Value n)) as [[|m caps]|]; try done.
      case_decide; [done|]. by destruct caps. }
    unfold range_map. rewrite map_fold_empty. by destruct ls.
Qed.

Lemma plain_name_marks_an_array_witness :
  let key := scalar (str "args") (str "# kpt-set: list") in
  let value := sequence 0 [] [scalar (str "b") []; scalar (str "a") []] in
  ArraySetters (visitField (Some (mkMapNode (Some key) (Some value))) New).1 !! str "list"
  = Some (mkArraySetter (str "list") (sort_Strings [str "b"; str "a"]) 1)
  /\ visitScalar New (Some (scalar (str "3") (str "# kpt-set: list"))) [] = (New, None).
Proof.
  intros key value.
  apply (plain_name_marks_an_array New key value (scalar (str "3") (str "# kpt-set: list")) []).
  - vm_compute. discriminate.
  - apply (bool_decide_unpack _). vm_compute. exact I.
  - vm_compute. reflexivity.
  - reflexivity.
  - reflexivity.
Defined.

(** ** Printing a result *)

Lemma itoa_inj (z1 z2 : Z) : itoa z1 = itoa z2 -> z1 = z2.
Proof.
  unfold itoa, str. intros Heq.
  apply (f_equal string_of_list_ascii) in Heq.
  rewrite !string_of_list_ascii_of_string in Heq.
  apply DecimalZ.to_int_inj.
  assert (forall z, DecimalString.NilZero.int_of_string
                      (DecimalString.NilZero.string_of_int (Z.to_int z))
                    = Some (Z.to_int z)) as Hisi.
  { intros z. apply DecimalString.NilZero.isi; destruct z; simpl; try discriminate;
      intros [= Hp]; by apply DecimalPos.Unsigned.to_uint_nonnil in Hp. }
  pose proof (Hisi z1) as H1. rewrite Heq, Hisi in H1. congruence.
Qed.

Lemma split_at_comma (a b r1 r2 : gostring) :
  (","%char ∉ a) -> (","%char ∉ b) ->
  a ++ ","%char :: r1 = b ++ ","%char :: r2 -> a = b /\ r1 = r2.
Proof.
  intros Ha Hb Heq.
  assert (a = b) as ->.
  { apply (first_occurrence ","%char a b r1 r2); [by rewrite Heq|done|done]. }
  split; [done|]. by simplify_list_eq.
Qed.

(** X13: the printed form of a result tells the result: two results whose names,
    values and types hold no comma and that print the same are the same. *)
Theorem printed_result_tells_the_result (r1 r2 : Result) :
  (","%char ∉ RName r1 ++ RValue r1 ++ RType r1) ->
  (","%char ∉ RName r2 ++ RValue r2 ++ RType r2) ->
  Result_String r1 = Result_String r2 -> r1 = r2.
Proof.
  destruct r1 as [n1 v1 t1 c1], r2 as [n2 v2 t2 c2]. unfold Result_String. cbn [RName RValue RType RCount].
  rewrite !not_elem_of_app. intros (Hn1 & Hv1 & Ht1) (Hn2 & Hv2 & Ht2) Heq.
  apply app_inv_head in Heq.
  change (str ", Value: ") with (","%char :: str " Value: ") in Heq.
  rewrite <- !app_comm_cons in Heq.
  apply split_at_comma in Heq as [-> Heq]; [|done|done].
  apply app_inv_head in Heq.
  change (str ", Type ") with (","%char :: str " Type ") in Heq.
  rewrite <- !app_comm_cons in Heq.
  apply split_at_comma in Heq as [-> Heq]; [|done|done].
  apply app_inv_head in Heq.
  change (str ", Count ") with (","%char :: str " Count ") in Heq.
  rewrite <- !app_comm_cons in Heq.
  apply split_at_comma in Heq as [-> Heq]; [|done|done].
  apply app_inv_head in Heq. by apply itoa_inj in Heq as ->.
Qed.

Lemma printed_result_tells_the_result_witness :
  let r := mkResult (str "replicas") (str "3") ScalarSetterType 2 in
  Result_String r = str "Name: replicas, Value: 3, Type string, Count 2"
  /\ (forall r', (","%char ∉ RName r' ++ RValue r' ++ RType r') ->
        Result_String r = Result_String r' -> r = r').
Proof.
  intros r. split; [vm_compute; reflexivity|].
  intros r' Hr'. apply (printed_result_tells_the_result r r'); [|done].
  apply (bool_decide_unpack _). vm_compute. exact I.
Defined.

(** ** Looking up the manifest and the configuration file *)

Section manifest.
Context `{Collaborators}.

Lemma findSetterNode_app (pre post : list Node) (n : Node) (path : gostring) :
  Forall (fun m => PathAnnotation m ≠ path) pre -> PathAnnotation n = path ->
  findSetterNode (pre ++ n :: post) path = inr n.
Proof.
  intros Hpre Hn. induction Hpre as [|m pre Hm Hpre IH]; simpl.
  - by rewrite decide_True.
  - by rewrite decide_False.
Qed.

(** X14: [findSetterNode] returns the first document annotated with the path, and
    fails with a plain error exactly when no document is. *)
Theorem findSetterNode_first_match (nodes : list Node) (path : gostring) :
  (forall n, findSetterNode nodes path = inr n <->
     exists pre post,
       nodes = pre ++ n :: post
       /\ Forall (fun m => PathAnnotation m ≠ path) pre
       /\ PathAnnotation n = path)
  /\ ((exists msg, findSetterNode nodes path = inl (Errorf msg)) <->
      Forall (fun m => PathAnnotation m ≠ path) nodes).
Proof.
  split.
  - intros n. split.
    + induction nodes as [|m nodes IH]; simpl; [done|].
      case_decide as Hm.
      * intros [= ->]. by exists [], nodes.
      * intros Hf. destruct (IH Hf) as (pre & post & -> & Hpre & Hn).
        exists (m :: pre), post. split; [done|]. split; [by constructor|done].
    + intros (pre & post & -> & Hpre & Hn). by apply findSetterNode_app.
  - split.
    + intros [msg Hmsg]. induction nodes as [|m nodes IH]; [done|].
      simpl in Hmsg. case_decide as Hm; [done|]. constructor; [done|by apply IH].
    + apply findSetterNode_missing.
Qed.

(** X15: [FindKptfile] reads the first document annotated as the manifest and no
    other: when reading it fails, the failure is returned with a prefix, and
    a later manifest is not tried. *)
Theorem FindKptfile_reads_first_manifest (pre post : list Node) (n : Node) :
  Forall (fun m => PathAnnotation m ≠ KptFileName) pre ->
  PathAnnotation n = KptFileName ->
  FindKptfile (pre ++ n :: post)
  = match ReadFile n with
    | inl err => inl (Wrapped (str "unable to read Kptfile") err)
    | inr kf => inr kf
    end.
Proof.
  intros Hpre Hn. induction Hpre as [|m pre Hm Hpre IH]; simpl.
  - by rewrite decide_True.
  - by rewrite decide_False.
Qed.

(** X16: the first stage of the pipeline that applies setters decides where the
    setters come from, whatever the stages after it: its inline
    configuration when it has one, even if it also names a file; else the
    data of the first document at the path it names. *)
Theorem first_stage_configures_setters (nodes : list Node) (kf : KptFile)
    (p : Pipeline) (fn : Function) :
  FindKptfile nodes = inr kf -> KptPipeline kf = Some p ->
  first_apply_setters (Mutators p) fn ->
  (forall m, ConfigMap fn = Some m -> FindSettersFromKptfile nodes = inr m)
  /\ (forall n, ConfigMap fn = None -> ConfigPath fn ≠ [] ->
        findSetterNode nodes (ConfigPath fn) = inr n ->
        FindSettersFromKptfile nodes = inr (GetDataMap n)).
Proof.
  intros Hkf Hp Hfn. unfold FindSettersFromKptfile. rewrite Hkf, Hp.
  rewrite (find_apply_setters_first nodes _ fn Hfn). split.
  - by intros m ->.
  - intros n -> Hpath ->. by rewrite decide_True.
Qed.

(** X17: a manifest that cannot be read ends the pass before any document is
    walked: [Filter] returns the documents and the read failure under its
    prefix, and the registry is as it was. *)
Theorem unreadable_manifest_aborts (ls : ListSetters) (pre post : list Node)
    (n : Node) (e : error) :
  Forall (fun m => PathAnnotation m ≠ KptFileName) pre ->
  PathAnnotation n = KptFileName ->
  ReadFile n = inl e -> As_discovery e = None ->
  Filter ls (pre ++ n :: post)
  = (ls, Some (pre ++ n :: post), Some (Wrapped (str "unable to read Kptfile") e)).
Proof.
  intros Hpre Hn He Has. unfold Filter, FindSettersFromKptfile.
  assert (FindKptfile (pre ++ n :: post) = inl (Wrapped (str "unable to read Kptfile") e))
    as ->.
  { induction Hpre as [|m pre Hm Hpre IH]; simpl.
    - by rewrite decide_True, He.
    - by rewrite decide_False. }
  cbn [As_discovery]. by rewrite Has.
Qed.
End manifest.

Lemma FindKptfile_reads_first_manifest_witness :
  FindKptfile (H := reader)
    ([deployment] ++ kptfile_path "setters.yaml" :: [kptfile_inline []])
  = match ReadFile (Collaborators := reader) (kptfile_path "setters.yaml") with
    | inl err => inl (Wrapped (str "unable to read Kptfile") err)
    | inr kf => inr kf
    end.
Proof.
  apply (FindKptfile_reads_first_manifest (H := reader)).
  - repeat constructor. vm_compute. discriminate.
  - vm_compute. reflexivity.
Defined.

Lemma first_stage_configures_setters_witness :
  FindSettersFromKptfile (H := reader) package
  = inr (string_map (mapping [(key "list", scalar (str "[b, a]") []);
                              (key "replicas", scalar (str "5") []);
                              (key "zone", scalar (str "eu") [])]))
  /\ FindSettersFromKptfile (H := reader) [kptfile_path "setters.yaml"; setters_file]
     = inr (GetDataMap (Collaborators := reader) setters_file).
Proof.
  split.
  - pose (fn := mkFunction (str "gcr.io/kpt-fn/apply-setters:v0.1") []
                  (Some (string_map (mapping [(key "list", scalar (str "[b, a]") []);
                                              (key "replicas", scalar (str "5") []);
                                              (key "zone", scalar (str "eu") [])])))).
    destruct (first_stage_configures_setters (H := reader) package
                (mkKptFile (Some (mkPipeline [fn]))) (mkPipeline [fn]) fn) as [H1 _].
    + vm_compute. reflexivity.
    + reflexivity.
    + exists [], []. split; [reflexivity|]. split; [constructor|vm_compute; reflexivity].
    + apply H1. reflexivity.
  - pose (fn := mkFunction (str "gcr.io/kpt-fn/apply-setters:v0.1") (str "setters.yaml") None).
    destruct (first_stage_configures_setters (H := reader)
                [kptfile_path "setters.yaml"; setters_file]
                (mkKptFile (Some (mkPipeline [fn]))) (mkPipeline [fn]) fn) as [_ H2].
    + vm_compute. reflexivity.
    + reflexivity.
    + exists [], []. split; [reflexivity|]. split; [constructor|vm_compute; reflexivity].
    + apply H2; [reflexivity|discriminate|vm_compute; reflexivity].
Defined.

Lemma unreadable_manifest_aborts_witness :
  Filter (H := strict_reader) New ([deployment] ++ kptfile_broken :: [kptfile_inline []])
  = (New, Some ([deployment] ++ kptfile_broken :: [kptfile_inline []]),
     Some (Wrapped (str "unable to read Kptfile") (Errorf (str "yaml: unmarshal errors")))).
Proof.
  apply (unreadable_manifest_aborts (H := strict_reader) New [deployment]
           [kptfile_inline []] kptfile_broken).
  - repeat constructor. vm_compute. discriminate.
  - vm_compute. reflexivity.
  - reflexivity.
  - reflexivity.
Defined.

(** ** The values of the manifest *)

Section manifest_values.
Context `{Collaborators}.

(** X18: [getArraySetterValues] succeeds exactly when the text parses to a
    node that is tagged null or is a sequence, and whose content nodes all
    print; it returns, node by node, the printed text without its newlines,
    so that no value holds one.  For a null node without content, as [~]
    reads, it returns no value at all. *)
Theorem array_values_of_the_manifest (sv : gostring) (vs : list gostring) :
  (getArraySetterValues sv = inr vs <->
   exists rn texts,
     yaml_Parse sv = inr rn /\ (Tag rn = NullNodeTag \/ NodeKind rn = SequenceNode)
     /\ Forall2 (fun elem text => RNode_String elem = inr text) (Content rn) texts
     /\ vs = filter (fun c => c ≠ newline) <$> texts)
  /\ (getArraySetterValues sv = inr vs -> Forall (fun v => newline ∉ v) vs)
  /\ (forall rn, yaml_Parse sv = inr rn -> Tag rn = NullNodeTag -> Content rn = [] ->
        getArraySetterValues sv = inr []).
Proof.
  split; [apply getArraySetterValues_inr|]. split.
  - intros Hvs. apply getArraySetterValues_inr in Hvs as (rn & texts & _ & _ & _ & ->).
    apply Forall_fmap, Forall_forall. intros text _. simpl.
    intros Hin. by apply list_elem_of_filter in Hin as [Hne _].
  - intros rn Hp Ht Hc. apply getArraySetterValues_inr. exists rn, [].
    rewrite Hc. split; [done|]. split; [by left|]. split; [constructor|done].
Qed.

Lemma filePath_addKptfileSetters (ls : ListSetters) (s : gmap gostring gostring) :
  filePath (addKptfileSetters ls s) = filePath ls.
Proof.
  unfold addKptfileSetters, range_map.
  apply (map_fold_weak_ind (fun ls' _ => filePath ls' = filePath ls)); [done|].
  intros k v m r _ IH. unfold add_kptfile_setter. by destruct (getArraySetterValues v).
Qed.

Lemma ListSetters_eq (ls1 ls2 : ListSetters) :
  ScalarSetters ls1 = ScalarSetters ls2 -> ArraySetters ls1 = ArraySetters ls2 ->
  Warnings ls1 = Warnings ls2 -> filePath ls1 = filePath ls2 -> ls1 = ls2.
Proof. destruct ls1, ls2; simpl; by intros -> -> -> ->. Qed.

(** X19: seeding overwrites: whatever the registry held under a name the manifest
    declares, seeding leaves there a setter with the count 0: in the array
    mapping, with the values [getArraySetterValues] returns, when that
    function accepts the value, and in the scalar mapping, with the text of
    the manifest, when it fails.  A value that reads as a null node without
    content, as [~] does, is accepted: it leaves an array setter without
    values.  Names the manifest does not declare are left alone, and seeding
    twice is seeding once. *)
Theorem seeding_overwrites (ls : ListSetters) (s : gmap gostring gostring) :
  let ls' := addKptfileSetters ls s in
  (forall name v, s !! name = Some v ->
     match getArraySetterValues v with
     | inr vs => ArraySetters ls' !! name = Some (mkArraySetter name vs 0)
     | inl _ => ScalarSetters ls' !! name = Some (mkScalarSetter name v 0)
     end)
  /\ (forall name v rn, s !! name = Some v ->
        yaml_Parse v = inr rn -> Tag rn = NullNodeTag -> Content rn = [] ->
        ArraySetters ls' !! name = Some (mkArraySetter name [] 0))
  /\ (forall name, s !! name = None ->
        ScalarSetters ls' !! name = ScalarSetters ls !! name
        /\ ArraySetters ls' !! name = ArraySetters ls !! name)
  /\ addKptfileSetters ls' s = ls'.
Proof.
  intros ls'. split; [|split; [|split]].
  - intros name v Hv. pose proof (addKptfileSetters_lookup ls s name) as Hl.
    cbv zeta in Hl. rewrite Hv in Hl. fold ls' in Hl.
    destruct (getArraySetterValues v); by destruct Hl.
  - intros name v rn Hv Hp Ht Hc. pose proof (addKptfileSetters_lookup ls s name) as Hl.
    cbv zeta in Hl. rewrite Hv in Hl. fold ls' in Hl.
    assert (getArraySetterValues v = inr []) as Hnull.
    { apply getArraySetterValues_inr. exists rn, []. rewrite Hc.
      split; [done|]. split; [by left|]. split; [constructor|done]. }
    rewrite Hnull in Hl. by destruct Hl.
  - intros name Hn. pose proof (addKptfileSetters_lookup ls s name) as Hl.
    cbv zeta in Hl. by rewrite Hn in Hl.
  - apply ListSetters_eq.
    + apply map_eq. intros name.
      pose proof (addKptfileSetters_lookup ls' s name) as Hl2.
      pose proof (addKptfileSetters_lookup ls s name) as Hl1.
      cbv zeta in Hl1, Hl2. fold ls' in Hl1.
      destruct (s !! name) as [v|]; [|by destruct Hl2].
      destruct (getArraySetterValues v); destruct Hl1, Hl2; congruence.
    + apply map_eq. intros name.
      pose proof (addKptfileSetters_lookup ls' s name) as Hl2.
      pose proof (addKptfileSetters_lookup ls s name) as Hl1.
      cbv zeta in Hl1, Hl2. fold ls' in Hl1.
      destruct (s !! name) as [v|]; [|by destruct Hl2].
      destruct (getArraySetterValues v); destruct Hl1, Hl2; congruence.
    + apply addKptfileSetters_warnings.
    + apply filePath_addKptfileSetters.
Qed.
End manifest_values.

Lemma array_values_of_the_manifest_witness :
  Forall (fun v => newline ∉ v) [str "a"; str "b"].
Proof.
  apply (proj1 (proj2 (array_values_of_the_manifest (H := reader) (str "[a, b]")
                         [str "a"; str "b"]))).
  vm_compute. reflexivity.
Defined.

Lemma seeding_overwrites_witness :
  let ls := mkListSetters {[ str "replicas" := mkScalarSetter (str "replicas") (str "3") 7 ]}
              ∅ [] [] in
  let s : gmap gostring gostring :=
    <[ str "list" := str "~" ]> {[ str "replicas" := str "5" ]} in
  ScalarSetters (addKptfileSetters (H := reader) ls s) !! str "replicas"
  = Some (mkScalarSetter (str "replicas") (str "5") 0)
  /\ ArraySetters (addKptfileSetters (H := reader) ls s) !! str "list"
     = Some (mkArraySetter (str "list") [] 0).
Proof.
  intros ls s. destruct (seeding_overwrites (H := reader) ls s) as (Hseed & Hnull & _).
  split.
  - apply (Hseed (str "replicas") (str "5")). vm_compute. reflexivity.
  - apply (Hnull (str "list") (str "~") (null (str "~"))); vm_compute; reflexivity.
Defined.

(** ** The list of results *)

Lemma GetResults_eq (ls : ListSetters) :
  GetResults ls
  = SliceStable less_name
      ((array_result <$> (map_to_list (ArraySetters ls)).*2)
       ++ (scalar_result <$> (map_to_list (ScalarSetters ls)).*2)).
Proof. reflexivity. Qed.

Lemma less_name_asym (a b : Result) : less_name a b = true -> less_name b a = false.
Proof. apply str_lt_asym. Qed.

Lemma elem_of_snd_map_to_list {V} (m : gmap gostring V) (v : V) :
  v ∈ (map_to_list m).*2 <-> exists k, m !! k = Some v.
Proof.
  rewrite list_elem_of_fmap. split.
  - intros ([k v'] & -> & Hin). exists k. by apply elem_of_map_to_list.
  - intros [k Hk]. exists (k, v). split; [done|]. by apply elem_of_map_to_list.
Qed.

(** X20: [GetResults] returns one result for each setter of the two mappings and
    nothing else, in ascending order of the names. *)
Theorem results_are_sorted_and_complete (ls : ListSetters) :
  Sorted (not_after less_name) (GetResults ls)
  /\ length (GetResults ls) = size (ArraySetters ls) + size (ScalarSetters ls)
  /\ (forall r, r ∈ GetResults ls <->
        (exists k a, ArraySetters ls !! k = Some a /\ r = array_result a)
        \/ (exists k s, ScalarSetters ls !! k = Some s /\ r = scalar_result s)).
Proof.
  rewrite GetResults_eq.
  pose proof (SliceStable_Permutation less_name
    ((array_result <$> (map_to_list (ArraySetters ls)).*2)
     ++ (scalar_result <$> (map_to_list (ScalarSetters ls)).*2))) as Hperm.
  split; [|split].
  - apply SliceStable_Sorted, less_name_asym.
  - rewrite Hperm, length_app, !length_fmap. unfold size, map_size. 
    by rewrite !length_map_to_list.
  - intros r. rewrite Hperm, elem_of_app, !list_elem_of_fmap.
    split; (intros [Ha|Hs]; [left|right]).
    + destruct Ha as (a & -> & Hin). apply elem_of_snd_map_to_list in Hin as [k Hk].
      by exists k, a.
    + destruct Hs as (s & -> & Hin). apply elem_of_snd_map_to_list in Hin as [k Hk].
      by exists k, s.
    + destruct Ha as (k & a & Hk & ->). exists a. split; [done|].
      apply elem_of_snd_map_to_list. by exists k.
    + destruct Hs as (k & s & Hk & ->). exists s. split; [done|].
      apply elem_of_snd_map_to_list. by exists k.
Qed.

(** ** A name in both mappings *)

Lemma str_lt_irrefl (a : gostring) : str_lt a a = false.
Proof. destruct (str_lt a a) eqn:Ha; [|done]. by rewrite (str_lt_asym a a Ha) in Ha. Qed.

Lemma filter_insert_sorted (n : gostring) (x : Result) (l : list Result) :
  filter (fun r => RName r = n) (insert_sorted less_name x l)
  = if decide (RName x = n) then x :: filter (fun r => RName r = n) l
    else filter (fun r => RName r = n) l.
Proof.
  induction l as [|y l IH]; cbn [insert_sorted].
  - rewrite filter_cons, filter_nil. by destruct (decide (RName x = n)).
  - destruct (less_name y x) eqn:Hyx.
    + rewrite !(filter_cons _ y), IH.
      destruct (decide (RName y = n)) as [Hy|Hy], (decide (RName x = n)) as [Hx|Hx];
        try done.
      unfold less_name in Hyx. by rewrite Hy, Hx, str_lt_irrefl in Hyx.
    + rewrite (filter_cons _ x). by destruct (decide (RName x = n)).
Qed.

Lemma filter_SliceStable (n : gostring) (l : list Result) :
  filter (fun r => RName r = n) (SliceStable less_name l) = filter (fun r => RName r = n) l.
Proof.
  induction l as [|x l IH]; [done|].
  change (SliceStable less_name (x :: l)) with (insert_sorted less_name x (SliceStable less_name l)).
  rewrite filter_insert_sorted, IH, filter_cons. by destruct (decide (RName x = n)).
Qed.

Lemma not_after_less_name_trans (a b c : Result) :
  not_after less_name a b -> not_after less_name b c -> not_after less_name a c.
Proof.
  unfold not_after, less_name. intros Hab Hbc.
  destruct (str_lt (RName c) (RName a)) eqn:Hca; [|done].
  destruct (decide (RName a = RName b)) as [Heq|Hne]; [congruence|].
  destruct (str_lt_total _ _ Hne) as [Hlt|Hlt]; [|congruence].
  by rewrite (str_lt_trans _ _ _ Hca Hlt) in Hbc.
Qed.

Lemma filter_none {A} (P : A -> Prop) `{forall x, Decision (P x)} (l : list A) :
  Forall (fun x => ¬ P x) l -> filter P l = [].
Proof.
  induction 1 as [|x l Hx Hl IH]; [done|]. by rewrite filter_cons, decide_False.
Qed.

(** In a list in ascending order of the names, the results of one name are
    side by side. *)
Lemma sorted_same_name_together (n : gostring) (l : list Result) :
  Sorted (not_after less_name) l ->
  exists pre post, l = pre ++ filter (fun r => RName r = n) l ++ post.
Proof.
  intros Hs.
  assert (StronglySorted (not_after less_name) l) as Hss.
  { apply Sorted_StronglySorted; [|done]. intros a b c. apply not_after_less_name_trans. }
  clear Hs.
  enough (exists post, l = filter (fun r => str_lt (RName r) n = true) l
                          ++ filter (fun r => RName r = n) l ++ post
                       /\ Forall (fun r => str_lt n (RName r) = true) post)
    as (post & Hl & _) by eauto.
  induction Hss as [|x l Hss (post & IH & Hpost) Hall].
  - by exists [].
  - rewrite !(filter_cons _ x).
    destruct (decide (str_lt (RName x) n = true)) as [Hlt|Hlt].
    { rewrite decide_False.
      - exists post. split; [|done]. simpl. by rewrite <- IH.
      - intros Heq. by rewrite Heq, str_lt_irrefl in Hlt. }
    assert (filter (fun r => str_lt (RName r) n = true) l = []) as Hnil.
    { apply filter_none. eapply Forall_impl; [exact Hall|].
      intros y Hy Hyn. unfold not_after, less_name in Hy. simpl in *.
      destruct (decide (RName x = n)) as [Hx|Hx]; [by rewrite Hx, Hyn in Hy|].
      destruct (str_lt_total _ _ Hx) as [H1|H1]; [done|].
      by rewrite (str_lt_trans _ _ _ Hyn H1) in Hy. }
    rewrite Hnil in IH |- *. simpl in IH |- *.
    destruct (decide (RName x = n)) as [Hx|Hx].
    + exists post. split; [|done]. simpl. by rewrite <- IH.
    + assert (filter (fun r => RName r = n) l = []) as Hnil'.
      { apply filter_none. eapply Forall_impl; [exact Hall|].
        intros y Hy Hyn. unfold not_after, less_name in Hy. simpl in *.
        destruct (str_lt_total _ _ Hx) as [H1|H1]; [done|]. by rewrite Hyn, H1 in Hy. }
      rewrite Hnil' in IH |- *. simpl in IH |- *. exists (x :: post).
      split; [by rewrite <- IH|]. constructor; [|done].
      by destruct (str_lt_total _ _ Hx).
Qed.

Lemma filter_unique_key {A} (g : A -> gostring) (l : list A) (x : A) (n : gostring) :
  NoDup (g <$> l) -> x ∈ l -> g x = n -> filter (fun y => g y = n) l = [x].
Proof.
  intros Hnd Hin Hx. induction l as [|y l IH]; [by apply elem_of_nil in Hin|].
  rewrite fmap_cons in Hnd. apply NoDup_cons in Hnd as [Hy Hnd].
  rewrite filter_cons. apply elem_of_cons in Hin as [->|Hin].
  - rewrite decide_True by done. f_equal.
    apply filter_none, Forall_forall. intros z Hz Hzn. apply Hy.
    apply list_elem_of_fmap. exists z. split; [congruence|done].
  - rewrite decide_False; [by apply IH|]. intros Hyn. apply Hy.
    apply list_elem_of_fmap. exists x. split; [congruence|done].
Qed.

(** X21: when a name is in both mappings, [GetResults] lists its array setter
    and its scalar setter side by side, the array setter first. *)
Theorem same_name_lists_the_array_first (ls : ListSetters) (name : gostring)
    (a : ArraySetter) (s : ScalarSetter) :
  names_ok ls ->
  ArraySetters ls !! name = Some a -> ScalarSetters ls !! name = Some s ->
  exists pre post, GetResults ls = pre ++ array_result a :: scalar_result s :: post.
Proof.
  intros [Hs Ha] Hla Hls.
  assert (Sorted (not_after less_name) (GetResults ls)) as Hsorted.
  { rewrite GetResults_eq. apply SliceStable_Sorted, less_name_asym. }
  destruct (sorted_same_name_together name _ Hsorted) as (pre & post & Hl).
  exists pre, post. rewrite Hl at 1. f_equal.
  rewrite GetResults_eq, filter_SliceStable, filter_app.
  rewrite (filter_unique_key RName _ (array_result a) name).
  - rewrite (filter_unique_key RName _ (scalar_result s) name); [done| | |].
    + replace (RName <$> (scalar_result <$> (map_to_list (ScalarSetters ls)).*2))
        with ((map_to_list (ScalarSetters ls)).*1); [apply NoDup_fst_map_to_list|].
      rewrite <- !list_fmap_compose. apply list_fmap_ext.
      intros i [k s'] Hi. simpl. symmetry. apply Hs. apply elem_of_map_to_list.
      by eapply list_elem_of_lookup_2.
    + apply list_elem_of_fmap. exists s. split; [done|].
      apply elem_of_snd_map_to_list. by exists name.
    + by apply Hs.
  - replace (RName <$> (array_result <$> (map_to_list (ArraySetters ls)).*2))
      with ((map_to_list (ArraySetters ls)).*1); [apply NoDup_fst_map_to_list|].
    rewrite <- !list_fmap_compose. apply list_fmap_ext.
    intros i [k a'] Hi. simpl. symmetry. apply Ha. apply elem_of_map_to_list.
    by eapply list_elem_of_lookup_2.
  - apply list_elem_of_fmap. exists a. split; [done|].
    apply elem_of_snd_map_to_list. by exists name.
  - by apply Ha.
Qed.

Lemma same_name_lists_the_array_first_witness :
  let ls := foldl apply_visit New
              [ScalarVisit (scalar (str "1") (str "# kpt-set: ${x}"));
               FieldVisit (Some (mkMapNode (Some (scalar (str "xs") (str "# kpt-set: ${x}")))
                                           (Some (sequence 0 [] [scalar (str "1") []]))))] in
  exists pre post,
    GetResults ls
    = pre ++ array_result (mkArraySetter (str "x") [str "1"] 1)
          :: scalar_result (mkScalarSetter (str "x") (str "1") 1) :: post.
Proof.
  intros ls.
  apply (same_name_lists_the_array_first ls (str "x")).
  - apply names_ok_foldl_apply_visit, names_ok_New.
  - vm_compute. reflexivity.
  - vm_compute. reflexivity.
Defined.

(** ** The warnings and the documents of a pass *)

Section outcome.
Context `{Collaborators}.

Lemma discover_warnings (all nodes : list Node) (ls : ListSetters) :
  Warnings (discover all ls nodes).1.1 = Warnings ls.
Proof.
  revert ls. induction nodes as [|n nodes IH]; intros ls; simpl; [done|].
  destruct (GetFileAnnotations n) as [err|[path i]]; [done|].
  set (ls0 := mkListSetters _ _ _ path).
  assert (Warnings (accept n ls0).1 = Warnings ls) as Hw.
  { destruct (accept_visits n ls0) as [vs ->]. by rewrite foldl_apply_visit_warnings. }
  destruct (accept n ls0) as [ls1 [e|]]; [done|]. simpl in Hw. by rewrite IH.
Qed.

Lemma discover_documents (all nodes : list Node) (ls : ListSetters) :
  (discover all ls nodes).1.2 = Some all
  \/ ((discover all ls nodes).1.2 = None /\ is_Some (discover all ls nodes).2).
Proof.
  revert ls. induction nodes as [|n nodes IH]; intros ls; simpl; [by left|].
  destruct (GetFileAnnotations n) as [err|[path i]]; [by left|].
  destruct (accept n _) as [ls1 [e|]]; [right; by eauto|]. apply IH.
Qed.

(** X22: whatever the outcome of [Filter], the manifest alone decides the
    warnings: its recoverable failure is appended to those already there,
    and the walk neither adds nor drops one, even when it fails.  The
    documents come back as they were given, or not at all, and then with an
    error. *)
Theorem Filter_warnings_and_documents (ls : ListSetters) (nodes : list Node) :
  Warnings (Filter ls nodes).1.1
  = Warnings ls ++ match FindSettersFromKptfile nodes with
                   | inl err => option_list (As_discovery err)
                   | inr _ => []
                   end
  /\ ((Filter ls nodes).1.2 = Some nodes
      \/ ((Filter ls nodes).1.2 = None /\ is_Some (Filter ls nodes).2)).
Proof.
  unfold Filter. destruct (FindSettersFromKptfile nodes) as [err|s].
  - destruct (As_discovery err) as [w|]; simpl.
    + split; [by rewrite discover_warnings|apply discover_documents].
    + split; [by rewrite app_nil_r|by left].
  - split; [|apply discover_documents].
    by rewrite discover_warnings, addKptfileSetters_warnings, app_nil_r.
Qed.

(** X23: a document whose annotations cannot be read ends the pass there:
    [Filter] returns the documents and the failure as it is, and the
    registry keeps what the documents before it gave. *)
Theorem unreadable_document_ends_the_pass (ls ls0 : ListSetters)
    (pre post : list Node) (n : Node) (e : error) :
  seeded ls (pre ++ n :: post) = Some ls0 ->
  Forall readable pre -> Forall (fun d => well_formed d = true) pre ->
  GetFileAnnotations n = inl e ->
  Filter ls (pre ++ n :: post)
  = (foldl walk_document ls0 pre, Some (pre ++ n :: post), Some e).
Proof.
  intros Hseed Hread Hwf He.
  assert (forall all ls1, discover all ls1 (pre ++ n :: post)
                          = (foldl walk_document ls1 pre, Some all, Some e)) as Hd.
  { intros all. clear Hseed. induction Hread as [|d pre [[path i] Hd] Hread IH]; intros ls1.
    - simpl. by rewrite He.
    - apply Forall_cons in Hwf as [Hwd Hwf]. simpl. rewrite Hd.
      rewrite accept_trace by done. rewrite IH by done. cbn [foldl]. do 3 f_equal.
      unfold walk_document. by rewrite Hd. }
  unfold Filter. unfold seeded in Hseed.
  destruct (FindSettersFromKptfile (pre ++ n :: post)) as [err|s].
  - destruct (As_discovery err) as [w|]; [|done]. simpl in Hseed. injection Hseed as <-.
    apply Hd.
  - injection Hseed as <-. apply Hd.
Qed.
End outcome.

Lemma unreadable_document_ends_the_pass_witness :
  let ls0 := with_warning New (mkErrSetterDiscovery
    (str "unable to find Kptfile, please include --include-meta-resources flag if a Kptfile is present")) in
  Filter (H := strict_reader) New ([deployment] ++ scalar (str "text") [] :: [deployment])
  = (foldl (walk_document (H := strict_reader)) ls0 [deployment],
     Some ([deployment] ++ scalar (str "text") [] :: [deployment]),
     Some (Errorf (str "wrong Node Kind"))).
Proof.
  intros ls0.
  apply (unreadable_document_ends_the_pass (H := strict_reader) New ls0 [deployment]
           [deployment] (scalar (str "text") [])).
  - vm_compute. reflexivity.
  - repeat constructor. eexists. vm_compute. reflexivity.
  - repeat constructor.
  - reflexivity.
Defined.

(** ** A pass that succeeds *)

Section success.
Context `{Collaborators}.

(** X24: [Filter] is the manifest, then the walk: when the manifest gives the
    setters or only a warning, and every document can be read and is well
    formed, the pass succeeds, returns the documents, and its registry is
    the seeded one after the visits of every document in order; and a pass
    that succeeds has done just that. *)
Theorem Filter_seeds_then_walks (ls : ListSetters) (nodes : list Node) :
  (forall ls0,
     seeded ls nodes = Some ls0 ->
     Forall readable nodes -> Forall (fun d => well_formed d = true) nodes ->
     Filter ls nodes = (foldl walk_document ls0 nodes, Some nodes, None))
  /\ (forall ls' out,
        Filter ls nodes = (ls', out, None) ->
        exists ls0, seeded ls nodes = Some ls0
          /\ ls' = foldl walk_document ls0 nodes /\ out = Some nodes).
Proof.
  split.
  - intros ls0 Hseed Hr Hwf. unfold Filter. unfold seeded in Hseed.
    destruct (FindSettersFromKptfile nodes) as [err|s].
    + destruct (As_discovery err) as [w|]; [|done]. injection Hseed as <-.
      by apply discover_readable.
    + injection Hseed as <-. by apply discover_readable.
  - intros ls' out Hf. apply Filter_inv in Hf as (ls0 & Hs & _ & -> & ->). by exists ls0.
Qed.
End success.

Lemma Filter_seeds_then_walks_witness :
  Filter (H := reader) New package
  = (foldl (walk_document (H := reader))
       (addKptfileSetters (H := reader) New
          (string_map (mapping [(key "list", scalar (str "[b, a]") []);
                                (key "replicas", scalar (str "5") []);
                                (key "zone", scalar (str "eu") [])])))
       package,
     Some package, None).
Proof.
  apply (proj1 (Filter_seeds_then_walks (H := reader) New package)).
  - vm_compute. reflexivity.
  - repeat constructor; eexists; vm_compute; reflexivity.
  - repeat constructor.
Defined.

(** ** The setters of a whole pass *)

Section pass_setters.
Context `{Collaborators}.

Lemma walk_document_visits (ls : ListSetters) (node : Node) :
  readable node ->
  exists path, walk_document ls node = foldl apply_visit (with_filePath ls path) (trace node).
Proof. intros [[path i] Hn]. exists path. unfold walk_document. by rewrite Hn. Qed.

Lemma foldl_walk_document_scalars (ls : ListSetters) (nodes : list Node) :
  Forall readable nodes ->
  ScalarSetters (foldl walk_document ls nodes)
  = foldl scalar_step (ScalarSetters ls) (nodes ≫= trace).
Proof.
  intros Hr. revert ls. induction Hr as [|n nodes Hn _ IH]; intros ls; [done|].
  cbn [foldl]. rewrite IH, bind_cons, foldl_app.
  destruct (walk_document_visits ls n Hn) as [path ->].
  by rewrite foldl_apply_visit_scalars.
Qed.

Lemma seeded_scalar_lookup (nodes : list Node) (ls0 : ListSetters) (name : gostring) :
  seeded New nodes = Some ls0 ->
  ScalarSetters ls0 !! name
  = (fun v => mkScalarSetter name v 0) <$> seeded_scalar nodes name.
Proof.
  unfold seeded, seeded_scalar. destruct (FindSettersFromKptfile nodes) as [err|s].
  - destruct (As_discovery err); [|done]. by intros [= <-].
  - intros [= <-]. pose proof (addKptfileSetters_lookup New s name) as Hl. simpl in Hl.
    destruct (s !! name) as [sv|].
    + destruct (getArraySetterValues sv); [by destruct Hl as [-> _]|by destruct Hl as [_ ->]].
    + by destruct Hl as [-> _].
Qed.

(** X25: after a pass that succeeds on a fresh registry, the scalar setter of a
    name is settled by the manifest and by the scalar nodes that bind the
    name: its count is the number of these nodes, none included; its value
    is the text the manifest declares for the name, when
    [getArraySetterValues] fails on that text, and else the one the first
    node binds; a name that the manifest does not seed as a scalar and that
    no node binds has no scalar setter.  Likewise an array setter the
    manifest seeds (its text is accepted by [getArraySetterValues], as that
    of a sequence or of [~]) and no field carries is there with the count
    0. *)
Theorem setters_of_a_pass (nodes : list Node) (ls' : ListSetters) (name : gostring) :
  Filter New nodes = (ls', Some nodes, None) ->
  ScalarSetters ls' !! name
  = match filter (binds name) (nodes ≫= trace) with
    | [] => (fun v => mkScalarSetter name v 0) <$> seeded_scalar nodes name
    | v :: rest =>
      Some (mkScalarSetter name
              (default (bound_value name v) (seeded_scalar nodes name))
              (wrap_int (Z.of_nat (length (v :: rest)))))
    end
  /\ (filter (carries name) (nodes ≫= trace) = [] ->
      ArraySetters ls' !! name
      = (fun vs => mkArraySetter name vs 0) <$> seeded_array nodes name).
Proof.
  intros Hf. apply Filter_inv in Hf as (ls0 & Hs & Hr & -> & _). split.
  - rewrite foldl_walk_document_scalars, foldl_scalar_step_lookup by done.
    rewrite (seeded_scalar_lookup nodes ls0) by done.
    destruct (filter (binds name) (nodes ≫= trace)) as [|v rest]; [done|].
    by destruct (seeded_scalar nodes name).
  - intros Hc. rewrite foldl_walk_document_arrays, foldl_array_step_lookup, Hc by done.
    by apply seeded_lookup.
Qed.
End pass_setters.

Lemma setters_of_a_pass_witness :
  let ls' := (Filter (H := reader) New package).1.1 in
  ScalarSetters ls' !! str "replicas" = Some (mkScalarSetter (str "replicas") (str "5") 1)
  /\ ScalarSetters ls' !! str "zone" = Some (mkScalarSetter (str "zone") (str "eu") 0).
Proof.
  intros ls'. split.
  - destruct (setters_of_a_pass (H := reader) package ls' (str "replicas")) as [-> _];
      [vm_compute; reflexivity|]. vm_compute. reflexivity.
  - destruct (setters_of_a_pass (H := reader) package ls' (str "zone")) as [-> _];
      [vm_compute; reflexivity|]. vm_compute. reflexivity.
Defined.
